(** * Pet-Mk-IV: the model-predictive trajectory optimizer [pet::control::Mpc]

    A shallow embedding of [pet_mk_iv_control/src/mpc.cpp] and
    [pet_mk_iv_control/include/pet_mk_iv_control/mpc.h].

    Conventions of the embedding:
    - [int] is [Z]; the only narrowing conversion of the source
      ([std::min<int>] applied to a [size_t]) is written out as [int_of_size].
    - The one [double] the source computes with is the penalty coefficient
      ([penalty_coefficient *= m_options.penalty_increase_factor]): it, the
      growth factor and the scale of a [ceres::ScaledLoss] are IEEE 754
      binary64 numbers ([float], with the rounding product [PrimFloat.mul]).
      A [double] that the source only stores, copies or compares with [>]
      (coordinates, the time step, costs and their bound) is the rational it
      denotes ([Q]); every computation on those lives in headers that are
      taken as parameters.
    - [std::vector] is [list]; [v[i]] is the lookup [v !! i], and reading past
      the end (undefined behaviour in C++) is the fault [OutOfRange].
    - [ROS_ASSERT] is taken with assertions enabled (the default build).
    - The ROS log and the calls into the solving engine are recorded as a
      trace of [Event]s returned by each operation. *)

From Stdlib Require Import Floats QArith Qpower ZArith Lia Lqa.
From stdpp Require Import base list strings gmap.

Local Open Scope Z_scope.

(** ** Eigen value types used by [Pose2D<double>] *)

Module Eigen.

Record Matrix2d := mkMatrix2d { m00 : Q; m01 : Q; m10 : Q; m11 : Q }.
Record Vector2d := mkVector2d { v_x : Q; v_y : Q }.
(** A twist is stored as (angular z, linear x, linear y). *)
Record Vector3d := mkVector3d { e0 : Q; e1 : Q; e2 : Q }.

Definition Matrix2d_Identity : Matrix2d := mkMatrix2d 1 0 0 1.
Definition Vector2d_Zero : Vector2d := mkVector2d 0 0.
Definition Vector3d_Zero : Vector3d := mkVector3d 0 0 0.

(** [v.isZero()]: every coefficient is zero (as a number). *)
Definition Vector3d_isZero (v : Vector3d) : Prop :=
  (e0 v == 0 /\ e1 v == 0 /\ e2 v == 0)%Q.

(** [data()]: the coefficients as a flat array (column-major for matrices). *)
Definition Matrix2d_data (m : Matrix2d) : list Q := [m00 m; m10 m; m01 m; m11 m].
Definition Vector2d_data (v : Vector2d) : list Q := [v_x v; v_y v].
Definition Vector3d_data (v : Vector3d) : list Q := [e0 v; e1 v; e2 v].

End Eigen.

Import Eigen.

Record Pose2D := mkPose2D { rotation : Matrix2d; position : Vector2d }.

(** ** ROS messages *)

Module Msg.

Record Header := mkHeader { header_seq : Z; stamp : Z; frame_id : string }.
Record Point := mkPoint { px : Q; py : Q; pz : Q }.
Record Quaternion := mkQuaternion { qx : Q; qy : Q; qz : Q; qw : Q }.
Record Vector3 := mkVector3 { vx : Q; vy : Q; vz : Q }.
Record Pose := mkPose { pose_position : Point; pose_orientation : Quaternion }.
Record PoseStamped := mkPoseStamped { ps_header : Header; ps_pose : Pose }.
Record Twist := mkTwist { linear : Vector3; angular : Vector3 }.
Record TwistStamped := mkTwistStamped { ts_header : Header; ts_twist : Twist }.
Record Path := mkPath { path_header : Header; poses : list PoseStamped }.

(** Value-initialised messages ([T x{}]). *)
Definition Header_default : Header := mkHeader 0 0 "".
Definition Point_default : Point := mkPoint 0 0 0.
Definition Quaternion_default : Quaternion := mkQuaternion 0 0 0 0.
Definition Pose_default : Pose := mkPose Point_default Quaternion_default.
Definition PoseStamped_default : PoseStamped := mkPoseStamped Header_default Pose_default.
Definition Path_default : Path := mkPath Header_default [].

End Msg.

Import Msg.

(** ** Machine integers *)

Definition INT_MAX : Z := 2147483647.

(** Conversion of a [size_t] to [int]: the value modulo 2^32, read as a
    two's-complement number. *)
Definition int_of_size (n : nat) : Z :=
  let z := Z.of_nat n mod 4294967296 in
  if z <=? INT_MAX then z else z - 4294967296.

(** ** Faults and results *)

Inductive Fault :=
| Thrown (what : string)            (* a C++ [throw] that leaves the call *)
| AssertionFailed (what : string)   (* a failed ROS_ASSERT: the process aborts *)
| OutOfRange.                       (* an index past the end of a vector *)

Inductive Result (A : Type) :=
| Ok (a : A)
| Fail (f : Fault).
Arguments Ok {A} a.
Arguments Fail {A} f.

(** ** Loops

    [for (int i = lo; i < hi; ++i) body]: the body runs [hi - lo] times (none
    when [hi <= lo]) and a faulting body ends the loop. *)

Fixpoint for_int {S : Type} (n : nat) (i : Z) (body : Z -> S -> option S) (s : S)
  : option S :=
  match n with
  | O => Some s
  | Datatypes.S k =>
      match body i s with
      | Some s' => for_int k (i + 1) body s'
      | None => None
      end
  end.

Definition for_range {S : Type} (lo hi : Z) (body : Z -> S -> option S) (s : S)
  : option S :=
  for_int (Z.to_nat (hi - lo)) lo body s.

(** [v[i]] for an [int] index. *)
Definition at_int {A : Type} (v : list A) (i : Z) : option A :=
  if i <? 0 then None else v !! Z.to_nat i.

(** ** The problem description handed to the least-squares engine

    What [ceres::Problem] records: parameter blocks (identified by the place
    their doubles live, [m_xxx[i].data()]), which of them are constant, and
    residual blocks with their cost function, loss function and parameter
    blocks. *)

Module Ceres.

Inductive Buffer :=
| Rotations | Positions | Twists | ReferenceRotations | ReferencePositions.

Definition Address : Type := Buffer * nat.

Inductive LocalParameterization :=
| Rotation2DParameterization
| SubsetParameterization (size : nat) (constant_parameters : list nat).

Record ParameterBlock := mkParameterBlock {
  block_address : Address;
  block_size : nat;
  block_parameterization : option LocalParameterization }.

Inductive CostFunction :=
| ReferencePathResidual
| VelocityChangeResidual
| KinematicConstraintPenaltyResidual (time_step : Q).

(** The loss function of a residual block is a pointer to one of the three
    loss members of the optimizer. *)
Inductive LossFunctionRef :=
| reference_loss_function
| velocity_loss_function
| constraint_penalty_coefficient_handle.

Record ResidualBlock := mkResidualBlock {
  cost_function : CostFunction;
  loss_function : LossFunctionRef;
  residual_parameters : list Address }.

(** A residual block id names the block by its position in the problem. *)
Definition ResidualBlockId : Type := nat.

Record Problem := mkProblem {
  parameter_blocks : list ParameterBlock;
  constant_blocks : list Address;
  residual_blocks : list ResidualBlock }.

Definition Problem_empty : Problem := mkProblem [] [] [].

Definition AddParameterBlock (values : Address) (size : nat)
    (parameterization : option LocalParameterization) (problem : Problem) : Problem :=
  mkProblem (parameter_blocks problem ++ [mkParameterBlock values size parameterization])
            (constant_blocks problem)
            (residual_blocks problem).

Definition SetParameterBlockConstant (values : Address) (problem : Problem) : Problem :=
  mkProblem (parameter_blocks problem)
            (constant_blocks problem ++ [values])
            (residual_blocks problem).

Definition AddResidualBlock (cost : CostFunction) (loss : LossFunctionRef)
    (blocks : list Address) (problem : Problem) : ResidualBlockId * Problem :=
  (length (residual_blocks problem),
   mkProblem (parameter_blocks problem)
             (constant_blocks problem)
             (residual_blocks problem ++ [mkResidualBlock cost loss blocks])).

(** [ceres::ScaledLoss{nullptr, a, TAKE_OWNERSHIP}]: the identity loss scaled
    by [a].  A [ceres::LossFunctionWrapper] holds such a loss or [nullptr]. *)
Record ScaledLoss := mkScaledLoss { scale : float }.
Definition LossFunctionWrapper : Type := option ScaledLoss.

Record LossFunctions := mkLossFunctions {
  reference_loss : ScaledLoss;
  velocity_loss : ScaledLoss;
  constraint_loss : LossFunctionWrapper }.

(** The doubles the problem points into. *)
Record Memory := mkMemory {
  mem_rotations : list Matrix2d;
  mem_positions : list Vector2d;
  mem_twists : list Vector3d;
  mem_reference_rotations : list Matrix2d;
  mem_reference_positions : list Vector2d }.

Definition read (m : Memory) (a : Address) : option (list Q) :=
  match a.1 with
  | Rotations => Matrix2d_data <$> mem_rotations m !! a.2
  | Positions => Vector2d_data <$> mem_positions m !! a.2
  | Twists => Vector3d_data <$> mem_twists m !! a.2
  | ReferenceRotations => Matrix2d_data <$> mem_reference_rotations m !! a.2
  | ReferencePositions => Vector2d_data <$> mem_reference_positions m !! a.2
  end.

#[global] Instance Buffer_eq_dec : EqDecision Buffer.
Proof. solve_decision. Defined.

#[global] Instance Q_eq_dec : EqDecision Q.
Proof. solve_decision. Defined.
#[global] Instance CostFunction_eq_dec : EqDecision CostFunction.
Proof. solve_decision. Defined.
#[global] Instance LossFunctionRef_eq_dec : EqDecision LossFunctionRef.
Proof. solve_decision. Defined.
#[global] Instance ResidualBlock_eq_dec : EqDecision ResidualBlock.
Proof. solve_decision. Defined.


(** A block the engine may change: declared, and not set constant. *)
Definition is_free (problem : Problem) (a : Address) : bool :=
  bool_decide (a ∈ block_address <$> parameter_blocks problem)
  && negb (bool_decide (a ∈ constant_blocks problem)).

(** Component [j] of block [a] is held fixed by a subset parameterization. *)
Definition holds_component (b : ParameterBlock) (a : Address) (j : nat) : bool :=
  bool_decide (block_address b = a)
  && match block_parameterization b with
     | Some (SubsetParameterization _ cs) => bool_decide (j ∈ cs)
     | _ => false
     end.

Definition is_held (problem : Problem) (a : Address) (j : nat) : bool :=
  existsb (fun b => holds_component b a j) (parameter_blocks problem).

(** The engine's side of the contract: [Solve] writes only through the
    pointers of free blocks, and never to a component that a subset
    parameterization holds fixed. *)
Record respects (problem : Problem) (m m' : Memory) : Prop := mkRespects {
  keeps_rotations_size : length (mem_rotations m') = length (mem_rotations m);
  keeps_positions_size : length (mem_positions m') = length (mem_positions m);
  keeps_twists_size : length (mem_twists m') = length (mem_twists m);
  keeps_reference_rotations_size :
    length (mem_reference_rotations m') = length (mem_reference_rotations m);
  keeps_reference_positions_size :
    length (mem_reference_positions m') = length (mem_reference_positions m);
  keeps_other_blocks :
    forall a, is_free problem a = false -> read m' a = read m a;
  keeps_held_components :
    forall a j, is_held problem a j = true ->
      (read m' a ≫= (.!! j)) = (read m a ≫= (.!! j)) }.

End Ceres.

Import Ceres.

(** ** The optimizer's state ([class Mpc], mpc.h) *)

(** Modelled from the spec: [KinematicModel] (kinematic_model.h is not part of
    the sources at hand) is a pure function carrier with no state. *)
Inductive KinematicModel := mkKinematicModel.

Record Options := mkOptions {
  max_num_poses : Z;
  time_step : Q;
  max_penalty_iterations : Z;
  penalty_increase_factor : float;
  max_constraint_cost : Q;
  reference_loss_factor : float;
  velocity_loss_factor : float }.

(** The default member initialisers of [Mpc::Options]. *)
Definition Options_default : Options :=
  mkOptions 100 (1 # 100) 8 5%float (1 # 100) 20%float 1%float.

Record Mpc := mkMpc {
  m_kinematic_model : KinematicModel;
  m_options : Options;
  m_rotations : list Matrix2d;
  m_positions : list Vector2d;
  m_reference_rotations : list Matrix2d;
  m_reference_positions : list Vector2d;
  m_twists : list Vector3d;
  m_reference_path_set : bool;
  m_problem_size : Z;
  m_reference_loss_function : ScaledLoss;
  m_velocity_loss_function : ScaledLoss;
  m_constraint_penalty_coefficient_handle : LossFunctionWrapper;
  m_kinematic_constraint_residuals : list ResidualBlockId }.

(** Assignments to single members. *)

Definition set_rotations (v : list Matrix2d) (s : Mpc) : Mpc :=
  mkMpc (m_kinematic_model s) (m_options s) v (m_positions s)
        (m_reference_rotations s) (m_reference_positions s) (m_twists s)
        (m_reference_path_set s) (m_problem_size s)
        (m_reference_loss_function s) (m_velocity_loss_function s)
        (m_constraint_penalty_coefficient_handle s)
        (m_kinematic_constraint_residuals s).

Definition set_positions (v : list Vector2d) (s : Mpc) : Mpc :=
  mkMpc (m_kinematic_model s) (m_options s) (m_rotations s) v
        (m_reference_rotations s) (m_reference_positions s) (m_twists s)
        (m_reference_path_set s) (m_problem_size s)
        (m_reference_loss_function s) (m_velocity_loss_function s)
        (m_constraint_penalty_coefficient_handle s)
        (m_kinematic_constraint_residuals s).

Definition set_reference_rotations (v : list Matrix2d) (s : Mpc) : Mpc :=
  mkMpc (m_kinematic_model s) (m_options s) (m_rotations s) (m_positions s)
        v (m_reference_positions s) (m_twists s)
        (m_reference_path_set s) (m_problem_size s)
        (m_reference_loss_function s) (m_velocity_loss_function s)
        (m_constraint_penalty_coefficient_handle s)
        (m_kinematic_constraint_residuals s).

Definition set_reference_positions (v : list Vector2d) (s : Mpc) : Mpc :=
  mkMpc (m_kinematic_model s) (m_options s) (m_rotations s) (m_positions s)
        (m_reference_rotations s) v (m_twists s)
        (m_reference_path_set s) (m_problem_size s)
        (m_reference_loss_function s) (m_velocity_loss_function s)
        (m_constraint_penalty_coefficient_handle s)
        (m_kinematic_constraint_residuals s).

Definition set_twists (v : list Vector3d) (s : Mpc) : Mpc :=
  mkMpc (m_kinematic_model s) (m_options s) (m_rotations s) (m_positions s)
        (m_reference_rotations s) (m_reference_positions s) v
        (m_reference_path_set s) (m_problem_size s)
        (m_reference_loss_function s) (m_velocity_loss_function s)
        (m_constraint_penalty_coefficient_handle s)
        (m_kinematic_constraint_residuals s).

Definition set_reference_path_set (b : bool) (s : Mpc) : Mpc :=
  mkMpc (m_kinematic_model s) (m_options s) (m_rotations s) (m_positions s)
        (m_reference_rotations s) (m_reference_positions s) (m_twists s)
        b (m_problem_size s)
        (m_reference_loss_function s) (m_velocity_loss_function s)
        (m_constraint_penalty_coefficient_handle s)
        (m_kinematic_constraint_residuals s).

Definition set_problem_size (n : Z) (s : Mpc) : Mpc :=
  mkMpc (m_kinematic_model s) (m_options s) (m_rotations s) (m_positions s)
        (m_reference_rotations s) (m_reference_positions s) (m_twists s)
        (m_reference_path_set s) n
        (m_reference_loss_function s) (m_velocity_loss_function s)
        (m_constraint_penalty_coefficient_handle s)
        (m_kinematic_constraint_residuals s).

Definition set_constraint_penalty_coefficient_handle
    (h : LossFunctionWrapper) (s : Mpc) : Mpc :=
  mkMpc (m_kinematic_model s) (m_options s) (m_rotations s) (m_positions s)
        (m_reference_rotations s) (m_reference_positions s) (m_twists s)
        (m_reference_path_set s) (m_problem_size s)
        (m_reference_loss_function s) (m_velocity_loss_function s)
        h
        (m_kinematic_constraint_residuals s).

Definition set_kinematic_constraint_residuals
    (ids : list ResidualBlockId) (s : Mpc) : Mpc :=
  mkMpc (m_kinematic_model s) (m_options s) (m_rotations s) (m_positions s)
        (m_reference_rotations s) (m_reference_positions s) (m_twists s)
        (m_reference_path_set s) (m_problem_size s)
        (m_reference_loss_function s) (m_velocity_loss_function s)
        (m_constraint_penalty_coefficient_handle s)
        ids.

(** What the engine sees of the optimizer: the five buffers its parameter
    blocks point into and the three loss functions its residual blocks
    point to. *)

Definition memory_of (s : Mpc) : Memory :=
  mkMemory (m_rotations s) (m_positions s) (m_twists s)
           (m_reference_rotations s) (m_reference_positions s).

Definition store_memory (m : Memory) (s : Mpc) : Mpc :=
  set_rotations (mem_rotations m)
    (set_positions (mem_positions m)
      (set_twists (mem_twists m)
        (set_reference_rotations (mem_reference_rotations m)
          (set_reference_positions (mem_reference_positions m) s)))).

Definition losses_of (s : Mpc) : LossFunctions :=
  mkLossFunctions (m_reference_loss_function s) (m_velocity_loss_function s)
                  (m_constraint_penalty_coefficient_handle s).

(** ** Observable effects *)

Definition error_text : string :=
  "Reference path must be set before calling Mpc::solve()!".

Inductive Event :=
| ROS_ERROR (text : string)
| ROS_INFO_BriefReport                          (* ROS_INFO("%s", summary.BriefReport()) *)
| ROS_INFO_Feasible (iteration : Z)             (* "Feasible solution found on iteration %i." *)
| ROS_WARN_MaxIterations                        (* "Max constraint penalty iterations reached." *)
| CeresSolve (handle : LossFunctionWrapper).    (* ceres::Solve, with what the penalty
                                                   handle holds at the call *)

Definition is_CeresSolve (e : Event) : bool :=
  match e with CeresSolve _ => true | _ => false end.

Definition is_warning (e : Event) : bool :=
  match e with ROS_WARN_MaxIterations => true | _ => false end.

(** Number of engine invocations recorded in a trace. *)
Definition solver_invocations (trace : list Event) : nat :=
  length (filter (fun e => is_CeresSolve e = true) trace).

(** The penalty coefficients the engine was run with, in order. *)
Definition penalty_coefficients (trace : list Event) : list float :=
  omap (fun e => match e with CeresSolve (Some loss) => Some (scale loss) | _ => None end)
       trace.

Definition warned (trace : list Event) : bool := existsb is_warning trace.

(** [cost > bound] on doubles. *)
Definition Qgtb (a b : Q) : bool := negb (Qle_bool a b).

(** ** The operations of [Mpc] (mpc.cpp) *)

Module Control.

Section MpcOperations.

(** Collaborators whose code is outside mpc.cpp. *)

(** [KinematicModel::propagate] (kinematic_model.h). *)
Variable propagate : Pose2D -> Vector3d -> Q -> Pose2D.
(** [SO2<double>::from_quaternion] after [tf2::fromMsg], and
    [tf2::toMsg] after [SO2<double>::to_quaternion] (parameterization2d.h). *)
Variable from_quaternion : Quaternion -> Matrix2d.
Variable to_quaternion : Matrix2d -> Quaternion.
(** [ceres::Solve]: the values it leaves in the buffers. *)
Variable ceres_Solve : Problem -> LossFunctions -> Memory -> Memory.
(** [ceres::Problem::EvaluateResidualBlock(id, false, &cost, nullptr, nullptr)]:
    [Some cost] on success, [None] when the block cannot be evaluated. *)
Variable EvaluateResidualBlock : Problem -> Memory -> ResidualBlockId -> option Q.

(** [Mpc::Mpc] *)
Definition Mpc_new (kinematic_model : KinematicModel) (options : Options) : Mpc :=
  mkMpc kinematic_model options
        [Matrix2d_Identity] [Vector2d_Zero]
        [] []
        [Vector3d_Zero]
        false 0
        (mkScaledLoss (reference_loss_factor options))
        (mkScaledLoss (velocity_loss_factor options))
        None
        [].

(** [std::vector::reserve] with an [int] argument: a negative count converts
    to a size beyond [max_size()] and throws [std::length_error]. *)
Definition reserve_ok (n : Z) : bool := 0 <=? n.

(** [Mpc::set_reference_path] *)
Definition set_reference_path (reference_path : Path) (self : Mpc)
  : Result unit * Mpc :=
  if negb (0 <? length (poses reference_path))%nat then
    (Fail (AssertionFailed "reference_path.poses.size() > 0"), self)
  else
    let self := set_problem_size
                  (Z.min (int_of_size (length (poses reference_path)))
                         (max_num_poses (m_options self))) self in
    let self := set_reference_positions [] self in
    let self := set_reference_rotations [] self in
    if negb (reserve_ok (m_problem_size self)) then
      (Fail (Thrown "std::length_error"), self)
    else
      match
        for_range 0 (m_problem_size self)
          (fun i self =>
             stamped ← at_int (poses reference_path) i;
             let pose := ps_pose stamped in
             let self :=
               set_reference_positions
                 (m_reference_positions self
                    ++ [mkVector2d (px (pose_position pose)) (py (pose_position pose))])
                 self in
             Some (set_reference_rotations
                     (m_reference_rotations self
                        ++ [from_quaternion (pose_orientation pose)])
                     self))
          self
      with
      | Some self => (Ok tt, set_reference_path_set true self)
      | None => (Fail OutOfRange, self)
      end.

(** [Mpc::set_initial_pose] *)
Definition set_initial_pose (initial_pose : PoseStamped) (self : Mpc) : Mpc :=
  let self := set_positions [] self in
  let self := set_rotations [] self in
  let pose := ps_pose initial_pose in
  let self :=
    set_positions
      (m_positions self
         ++ [mkVector2d (px (pose_position pose)) (py (pose_position pose))])
      self in
  set_rotations (m_rotations self ++ [from_quaternion (pose_orientation pose)]) self.

(** [Mpc::set_initial_twist] *)
Definition set_initial_twist (initial_twist : TwistStamped) (self : Mpc) : Mpc :=
  let self := set_twists [] self in
  let twist := ts_twist initial_twist in
  set_twists
    (m_twists self
       ++ [mkVector3d (vz (angular twist)) (vx (linear twist)) (vy (linear twist))])
    self.

(** [Mpc::generate_initial_values] *)
Definition generate_step (twist : Vector3d) (dt : Q)
    (st : Pose2D * Mpc) : Pose2D * Mpc :=
  let '(prev_pose, self) := st in
  let next_pose := propagate prev_pose twist dt in
  let self := set_positions (m_positions self ++ [position next_pose]) self in
  let self := set_rotations (m_rotations self ++ [rotation next_pose]) self in
  let self := set_twists (m_twists self ++ [twist]) self in
  (next_pose, self).

Definition generate_initial_values (self : Mpc) : Result Mpc :=
  match m_twists self !! 0%nat, m_rotations self !! 0%nat, m_positions self !! 0%nat with
  | Some twist, Some rotation0, Some position0 =>
      let dt := time_step (m_options self) in
      let prev_pose := mkPose2D rotation0 position0 in
      match
        for_range 1 (m_problem_size self)
          (fun _ st => Some (generate_step twist dt st))
          (prev_pose, self)
      with
      | Some (_, self) => Ok self
      | None => Fail OutOfRange
      end
  | _, _, _ => Fail OutOfRange
  end.

(** [&v[i]] as a parameter block: the element must exist. *)
Definition data_at {A : Type} (buffer : Buffer) (v : list A) (i : Z) : option Address :=
  _ ← at_int v i; Some (buffer, Z.to_nat i).

Definition rotation2d_parameterization : option LocalParameterization :=
  Some Rotation2DParameterization.
Definition twist_diffdrive_parameterization : option LocalParameterization :=
  Some (SubsetParameterization 3 [2%nat]).

(** [Mpc::build_optimization_problem]: one pass of the loop body. *)
Definition build_step (i : Z) (st : Problem * Mpc) : option (Problem * Mpc) :=
  let '(problem, self) := st in
  rotation_i ← data_at Rotations (m_rotations self) i;
  position_i ← data_at Positions (m_positions self) i;
  reference_rotation_i ← data_at ReferenceRotations (m_reference_rotations self) i;
  reference_position_i ← data_at ReferencePositions (m_reference_positions self) i;
  twist_i ← data_at Twists (m_twists self) i;
  rotation_prev ← data_at Rotations (m_rotations self) (i - 1);
  position_prev ← data_at Positions (m_positions self) (i - 1);
  twist_prev ← data_at Twists (m_twists self) (i - 1);
  let problem := AddParameterBlock rotation_i 4 rotation2d_parameterization problem in
  let problem := AddParameterBlock position_i 2 None problem in
  let problem := AddParameterBlock reference_rotation_i 4 rotation2d_parameterization problem in
  let problem := AddParameterBlock reference_position_i 2 None problem in
  let problem := AddParameterBlock twist_i 3 twist_diffdrive_parameterization problem in
  let problem := SetParameterBlockConstant reference_rotation_i problem in
  let problem := SetParameterBlockConstant reference_position_i problem in
  let '(_, problem) :=
    AddResidualBlock ReferencePathResidual reference_loss_function
      [reference_rotation_i; reference_position_i; rotation_i; position_i] problem in
  let '(_, problem) :=
    AddResidualBlock VelocityChangeResidual velocity_loss_function
      [twist_i; twist_prev] problem in
  let '(residual_id, problem) :=
    AddResidualBlock
      (KinematicConstraintPenaltyResidual (time_step (m_options self)))
      constraint_penalty_coefficient_handle
      [rotation_i; position_i; rotation_prev; position_prev; twist_prev] problem in
  Some (problem,
        set_kinematic_constraint_residuals
          (m_kinematic_constraint_residuals self ++ [residual_id]) self).

(** [Mpc::build_optimization_problem], applied to a fresh [ceres::Problem]. *)
Definition build_optimization_problem (problem : Problem) (self : Mpc)
  : Result (Problem * Mpc) :=
  match
    rotation_0 ← data_at Rotations (m_rotations self) 0;
    position_0 ← data_at Positions (m_positions self) 0;
    twist_0 ← data_at Twists (m_twists self) 0;
    let problem := AddParameterBlock rotation_0 4 rotation2d_parameterization problem in
    let problem := AddParameterBlock position_0 2 None problem in
    let problem := AddParameterBlock twist_0 3 twist_diffdrive_parameterization problem in
    let problem := SetParameterBlockConstant rotation_0 problem in
    let problem := SetParameterBlockConstant position_0 problem in
    let problem := SetParameterBlockConstant twist_0 problem in
    let self := set_kinematic_constraint_residuals [] self in
    for_range 1 (m_problem_size self) build_step (problem, self)
  with
  | Some r => Ok r
  | None => Fail OutOfRange
  end.

(** [Mpc::is_feasible] *)
Fixpoint is_feasible_from (problem : Problem) (self : Mpc)
    (ids : list ResidualBlockId) : Result bool :=
  match ids with
  | [] => Ok true
  | id :: rest =>
      match EvaluateResidualBlock problem (memory_of self) id with
      | None =>
          Fail (AssertionFailed
                  "Could not evaluate feasibility of kinematic constraint residual block!")
      | Some cost =>
          if Qgtb cost (max_constraint_cost (m_options self)) then Ok false
          else is_feasible_from problem self rest
      end
  end.

Definition is_feasible (problem : Problem) (self : Mpc) : Result bool :=
  is_feasible_from problem self (m_kinematic_constraint_residuals self).

(** The state of the outer loop of [Mpc::solve]: the two locals, the
    optimizer and the effects so far. *)
Record LoopState := mkLoopState {
  iteration : Z;
  penalty_coefficient : float;
  loop_self : Mpc;
  loop_trace : list Event }.

(** One pass of the body of the [while], up to and including the
    feasibility test. *)
Definition penalty_step (problem : Problem) (st : LoopState)
  : LoopState * Result bool :=
  let iteration := iteration st + 1 in
  let self :=
    set_constraint_penalty_coefficient_handle
      (Some (mkScaledLoss (penalty_coefficient st))) (loop_self st) in
  let trace :=
    loop_trace st
    ++ [CeresSolve (m_constraint_penalty_coefficient_handle self); ROS_INFO_BriefReport] in
  let self := store_memory (ceres_Solve problem (losses_of self) (memory_of self)) self in
  (mkLoopState iteration (penalty_coefficient st) self trace, is_feasible problem self).

(** [while (iteration < m_options.max_penalty_iterations) { ... }] *)
Fixpoint penalty_loop (fuel : nat) (problem : Problem) (st : LoopState)
  : option Fault * LoopState :=
  match fuel with
  | O => (None, st)
  | S fuel =>
      if iteration st <? max_penalty_iterations (m_options (loop_self st)) then
        let '(st, feasible) := penalty_step problem st in
        match feasible with
        | Fail f => (Some f, st)
        | Ok true =>
            (None,
             mkLoopState (iteration st) (penalty_coefficient st) (loop_self st)
               (loop_trace st ++ [ROS_INFO_Feasible (iteration st)]))
        | Ok false =>
            penalty_loop fuel problem
              (mkLoopState (iteration st)
                 (PrimFloat.mul (penalty_coefficient st)
                    (penalty_increase_factor (m_options (loop_self st))))
                 (loop_self st) (loop_trace st))
        end
      else (None, st)
  end.

(** [Mpc::solve].  The loop counts from 0 up to [max_penalty_iterations], so
    that many passes always suffice. *)
Definition solve (self : Mpc) : Result unit * Mpc * list Event :=
  if negb (m_reference_path_set self) then
    (Fail (Thrown error_text), self, [ROS_ERROR error_text])
  else
    match generate_initial_values self with
    | Fail f => (Fail f, self, [])
    | Ok self =>
        match build_optimization_problem Problem_empty self with
        | Fail f => (Fail f, self, [])
        | Ok (problem, self) =>
            let '(fault, st) :=
              penalty_loop (Z.to_nat (max_penalty_iterations (m_options self)))
                problem (mkLoopState 0 1%float self []) in
            match fault with
            | Some f => (Fail f, loop_self st, loop_trace st)
            | None =>
                if max_penalty_iterations (m_options (loop_self st)) <=? iteration st then
                  (Ok tt, loop_self st, loop_trace st ++ [ROS_WARN_MaxIterations])
                else (Ok tt, loop_self st, loop_trace st)
            end
        end
    end.

(** [Mpc::get_optimal_path] *)
Definition get_optimal_path (self : Mpc) : Result Path :=
  let optimal_path := mkPath (mkHeader 0 0 "map") [] in
  match
    for_range 0 (m_problem_size self)
      (fun i optimal_path =>
         rotation_i ← at_int (m_rotations self) i;
         position_i ← at_int (m_positions self) i;
         let pose :=
           mkPoseStamped Header_default
             (mkPose (mkPoint (v_x position_i) (v_y position_i) 0)
                     (to_quaternion rotation_i)) in
         Some (mkPath (path_header optimal_path) (poses optimal_path ++ [pose])))
      optimal_path
  with
  | Some optimal_path => Ok optimal_path
  | None => Fail OutOfRange
  end.

(** Modelled from the spec: the kinematic-consistency residual of step [i]
    (residuals.h is not part of the sources at hand) is
    [minus(pose_i, propagate(pose_{i-1}, twist_{i-1}, dt))], for a pose
    difference [pose_minus] that is zero on equal poses. *)
Variable pose_minus : Pose2D -> Pose2D -> Vector3d.

Definition pose_at (self : Mpc) (i : nat) : option Pose2D :=
  r ← m_rotations self !! i; p ← m_positions self !! i; Some (mkPose2D r p).

Definition kinematic_residual (self : Mpc) (i : nat) : option Vector3d :=
  pose_i ← pose_at self i;
  pose_prev ← pose_at self (i - 1);
  twist_prev ← m_twists self !! (i - 1)%nat;
  Some (pose_minus pose_i (propagate pose_prev twist_prev (time_step (m_options self)))).

(** ** Vocabulary for the properties *)

(** The poses obtained by propagating [n] times from [pose] under a constant
    twist. *)
Fixpoint rollout (twist : Vector3d) (dt : Q) (n : nat) (pose : Pose2D) : list Pose2D :=
  match n with
  | O => []
  | S n => let next := propagate pose twist dt in next :: rollout twist dt n next
  end.

(** The loop state before pass [k + 1] when none of the first [k] passes
    found a feasible solution. *)
Definition advance (problem : Problem) (st : LoopState) : LoopState :=
  let st' := (penalty_step problem st).1 in
  mkLoopState (iteration st')
    (PrimFloat.mul (penalty_coefficient st')
       (penalty_increase_factor (m_options (loop_self st'))))
    (loop_self st') (loop_trace st').

Fixpoint after_passes (problem : Problem) (k : nat) (st : LoopState) : LoopState :=
  match k with
  | O => st
  | S k => after_passes problem k (advance problem st)
  end.

(** The verdict of [is_feasible] on iteration [k] (counted from 1). *)
Definition verdict_on (problem : Problem) (st : LoopState) (k : nat) : Result bool :=
  (penalty_step problem (after_passes problem (Nat.pred k) st)).2.

(** The optimizer as the engine leaves it on iteration [k]. *)
Definition self_on (problem : Problem) (st : LoopState) (k : nat) : Mpc :=
  loop_self (penalty_step problem (after_passes problem (Nat.pred k) st)).1.

(** Feasibility as the spec words it: every recorded kinematic-constraint
    residual block evaluates to a cost of at most [max_constraint_cost]. *)
Definition all_costs_within (problem : Problem) (self : Mpc) : Prop :=
  Forall (fun id => exists cost,
            EvaluateResidualBlock problem (memory_of self) id = Some cost
            /\ (cost <= max_constraint_cost (m_options self))%Q)
         (m_kinematic_constraint_residuals self).

(** ** Reachable states: what a client can build through the public interface. *)
Inductive reachable : Mpc -> Prop :=
| reachable_new km options : reachable (Mpc_new km options)
| reachable_set_reference_path path self r self' :
    reachable self -> set_reference_path path self = (r, self') -> reachable self'
| reachable_set_initial_pose pose self :
    reachable self -> reachable (set_initial_pose pose self)
| reachable_set_initial_twist twist self :
    reachable self -> reachable (set_initial_twist twist self)
| reachable_solve self r self' trace :
    reachable self -> solve self = (r, self', trace) -> reachable self'.

End MpcOperations.

End Control.

Import Control.

(** A coefficient [c] after [k] multiplications by the growth factor, each
    one a binary64 product (rounded to nearest, ties to even). *)
Fixpoint grown (c factor : float) (k : nat) : float :=
  match k with
  | O => c
  | S k => PrimFloat.mul (grown c factor k) factor
  end.

(** The penalty coefficient after [k] iterations that were not feasible. *)
Definition penalty_after (factor : float) (k : nat) : float := grown 1%float factor k.

(** What [n] passes of the loop add to the trace, starting from coefficient [c]. *)
Definition loop_events (c factor : float) (n : nat) : list Event :=
  flat_map (fun j => [CeresSolve (Some (mkScaledLoss (grown c factor j)));
                      ROS_INFO_BriefReport]) (seq 0 n).

(** What the penalty handle holds after the engine invocations of a trace,
    when it held [handle] before. *)
Definition handle_after (trace : list Event) (handle : LossFunctionWrapper)
  : LossFunctionWrapper :=
  fold_left (fun h e => match e with CeresSolve h' => h' | _ => h end) trace handle.

(** The penalty handle is the loss function of the kinematic-constraint
    blocks of a problem, and of no other residual block. *)
Definition penalty_on_kinematic_blocks (problem : Problem) : Prop :=
  forall block, block ∈ residual_blocks problem ->
    loss_function block = constraint_penalty_coefficient_handle
    <-> exists dt, cost_function block = KinematicConstraintPenaltyResidual dt.

(** A binary64 number that is at least 1, by its representation: plus
    infinity, or a positive normal number with exponent at least -52. *)
Definition at_least_one (x : spec_float) : Prop :=
  match x with
  | S754_infinity false => True
  | S754_finite false m e => -52 <= e /\ 2 ^ 52 <= Z.pos m < 2 ^ 53
  | _ => False
  end.

(** The blocks [build_optimization_problem] is expected to attach for step [i]. *)
Definition reference_block (i : nat) : ResidualBlock :=
  mkResidualBlock ReferencePathResidual reference_loss_function
    [(ReferenceRotations, i); (ReferencePositions, i); (Rotations, i); (Positions, i)].

Definition velocity_block (i : nat) : ResidualBlock :=
  mkResidualBlock VelocityChangeResidual velocity_loss_function
    [(Twists, i); (Twists, (i - 1)%nat)].

Definition kinematic_block (dt : Q) (i : nat) : ResidualBlock :=
  mkResidualBlock (KinematicConstraintPenaltyResidual dt)
    constraint_penalty_coefficient_handle
    [(Rotations, i); (Positions, i);
     (Rotations, (i - 1)%nat); (Positions, (i - 1)%nat); (Twists, (i - 1)%nat)].

Definition step_residual_blocks (dt : Q) (i : nat) : list ResidualBlock :=
  [reference_block i; velocity_block i; kinematic_block dt i].

Definition step_parameter_blocks (i : nat) : list ParameterBlock :=
  [mkParameterBlock (Rotations, i) 4 (Some Rotation2DParameterization);
   mkParameterBlock (Positions, i) 2 None;
   mkParameterBlock (ReferenceRotations, i) 4 (Some Rotation2DParameterization);
   mkParameterBlock (ReferencePositions, i) 2 None;
   mkParameterBlock (Twists, i) 3 (Some (SubsetParameterization 3 [2%nat]))].

Definition step_constant_blocks (i : nat) : list Address :=
  [(ReferenceRotations, i); (ReferencePositions, i)].

Definition initial_parameter_blocks : list ParameterBlock :=
  [mkParameterBlock (Rotations, 0%nat) 4 (Some Rotation2DParameterization);
   mkParameterBlock (Positions, 0%nat) 2 None;
   mkParameterBlock (Twists, 0%nat) 3 (Some (SubsetParameterization 3 [2%nat]))].

Definition initial_constant_blocks : list Address :=
  [(Rotations, 0%nat); (Positions, 0%nat); (Twists, 0%nat)].

(** Conversions applied to a reference pose by [set_reference_path]. *)
Definition point_of (pose : PoseStamped) : Vector2d :=
  mkVector2d (px (pose_position (ps_pose pose))) (py (pose_position (ps_pose pose))).

(** A stamped pose as [get_optimal_path] writes it. *)
Definition stamped_pose_of (to_quaternion : Matrix2d -> Quaternion)
    (r : Matrix2d) (p : Vector2d) : PoseStamped :=
  mkPoseStamped Header_default
    (mkPose (mkPoint (v_x p) (v_y p) 0) (to_quaternion r)).

(** The horizon buffers with poses and twists pushed at the back. *)
Definition append_horizon (new_poses : list Pose2D) (new_twists : list Vector3d)
    (s : Mpc) : Mpc :=
  set_twists (m_twists s ++ new_twists)
    (set_rotations (m_rotations s ++ (rotation <$> new_poses))
       (set_positions (m_positions s ++ (position <$> new_poses)) s)).

(** The step-0 entries that the two setters store. *)
Definition twist_of_msg (twist : TwistStamped) : Vector3d :=
  mkVector3d (vz (angular (ts_twist twist)))
             (vx (linear (ts_twist twist)))
             (vy (linear (ts_twist twist))).

Definition pose_of_msg (from_quaternion : Quaternion -> Matrix2d)
    (pose : PoseStamped) : Pose2D :=
  mkPose2D (from_quaternion (pose_orientation (ps_pose pose))) (point_of pose).

(** The elements [build_optimization_problem] takes the address of exist:
    step 0 of the horizon, and every step below the problem size in the
    horizon and in the reference. *)
Definition build_in_bounds (s : Mpc) : Prop :=
  let N := Z.to_nat (m_problem_size s) in
  ((1 <= length (m_rotations s) /\ N <= length (m_rotations s))
   /\ (1 <= length (m_positions s) /\ N <= length (m_positions s))
   /\ (1 <= length (m_twists s) /\ N <= length (m_twists s))
   /\ (2 <= N -> N <= length (m_reference_rotations s))
   /\ (2 <= N -> N <= length (m_reference_positions s)))%nat.

(** The problem [build_optimization_problem] is expected to produce for a
    problem size [N] and time step [dt]. *)
Definition expected_problem (dt : Q) (N : nat) : Problem :=
  mkProblem
    (initial_parameter_blocks ++ flat_map step_parameter_blocks (seq 1 (N - 1)))
    (initial_constant_blocks ++ flat_map step_constant_blocks (seq 1 (N - 1)))
    (flat_map (step_residual_blocks dt) (seq 1 (N - 1))).

(** What holds of the buffers in every reachable state: the horizon buffers
    have a step-0 entry, rotations and positions go together, and the
    reference buffers hold problem-size entries. *)
Definition buffers_wf (s : Mpc) : Prop :=
  (1 <= length (m_rotations s)
   /\ length (m_positions s) = length (m_rotations s)
   /\ 1 <= length (m_twists s)
   /\ length (m_reference_rotations s) = Z.to_nat (m_problem_size s)
   /\ length (m_reference_positions s) = Z.to_nat (m_problem_size s))%nat.

(** The sizes of the five buffers. *)
Definition buffer_sizes (s : Mpc) : list nat :=
  [length (m_rotations s); length (m_positions s); length (m_twists s);
   length (m_reference_rotations s); length (m_reference_positions s)].

(** Every twist block of a problem carries the differential-drive subset
    parameterization, which holds the lateral component (index 2). *)
Definition twist_blocks_diffdrive (problem : Problem) : Prop :=
  forall b, b ∈ parameter_blocks problem -> (block_address b).1 = Twists ->
    block_parameterization b = Some (SubsetParameterization 3 [2%nat]).

(** The lateral velocity of every twist in the buffer is [c]. *)
Definition lateral_is (c : Q) (s : Mpc) : Prop :=
  forall t, t ∈ m_twists s -> e2 t = c.

(** ** Concrete collaborators

    Small stand-ins for the kinematic model, the quaternion conversions and
    the engine, so that the model can be run on concrete inputs. *)

Module Concrete.

(** Straight-line kinematics: the position advances by [dt] times the linear
    velocity and the heading is kept. *)
Definition propagate (pose : Pose2D) (twist : Vector3d) (dt : Q) : Pose2D :=
  mkPose2D (rotation pose)
    (mkVector2d (v_x (position pose) + dt * e1 twist)%Q
                (v_y (position pose) + dt * e2 twist)%Q).

(** The planar rotation of a yaw quaternion. *)
Definition from_quaternion (q : Quaternion) : Matrix2d :=
  let c := (qw q * qw q - qz q * qz q)%Q in
  let s := (2 * qw q * qz q)%Q in
  mkMatrix2d c (- s)%Q s c.

(** A yaw quaternion for a rotation close to the identity. *)
Definition to_quaternion (m : Matrix2d) : Quaternion :=
  mkQuaternion 0 0 (m10 m / 2)%Q ((1 + m00 m) / 2)%Q.

Definition pose_minus (a b : Pose2D) : Vector3d :=
  mkVector3d (m10 (rotation a) - m10 (rotation b))%Q
             (v_x (position a) - v_x (position b))%Q
             (v_y (position a) - v_y (position b))%Q.

(** The number a finite binary64 value denotes (0 for an infinity or NaN). *)
Definition Q_of_double (x : float) : Q :=
  match Prim2SF x with
  | S754_finite s m e =>
      Qred ((if s then -1 else 1) * inject_Z (Z.pos m) * Qpower 2 e)
  | _ => 0
  end.

Definition penalty_scale (losses : LossFunctions) : Q :=
  match constraint_loss losses with
  | Some l => Q_of_double (scale l)
  | None => 1
  end.

(** An engine that honours the problem's constant blocks and held
    components: it pulls every free position towards its reference, the
    less so the larger the penalty scale, and speeds every free twist up by
    one in each component that is not held. *)
Definition move (problem : Problem) (a : Address) (j : nat) (old new : Q) : Q :=
  if is_held problem a j then old else new.

Definition solve_position (problem : Problem) (losses : LossFunctions) (m : Memory)
    (i : nat) (p : Vector2d) : Vector2d :=
  if is_free problem (Positions, i) then
    match mem_reference_positions m !! i with
    | Some r =>
        mkVector2d (move problem (Positions, i) 0 (v_x p) (v_x r / penalty_scale losses)%Q)
                   (move problem (Positions, i) 1 (v_y p) (v_y r / penalty_scale losses)%Q)
    | None => p
    end
  else p.

Definition solve_twist (problem : Problem) (i : nat) (t : Vector3d) : Vector3d :=
  if is_free problem (Twists, i) then
    mkVector3d (move problem (Twists, i) 0 (e0 t) (e0 t + 1)%Q)
               (move problem (Twists, i) 1 (e1 t) (e1 t + 1)%Q)
               (move problem (Twists, i) 2 (e2 t) (e2 t + 1)%Q)
  else t.

Definition Solve (problem : Problem) (losses : LossFunctions) (m : Memory) : Memory :=
  mkMemory (mem_rotations m)
           (imap (solve_position problem losses m) (mem_positions m))
           (imap (solve_twist problem) (mem_twists m))
           (mem_reference_rotations m)
           (mem_reference_positions m).

(** The cost of a kinematic-constraint block under the straight-line model:
    half the squared distance between a position and the propagated previous
    position. *)
Definition EvaluateResidualBlock (problem : Problem) (m : Memory)
    (id : ResidualBlockId) : option Q :=
  block ← residual_blocks problem !! id;
  match cost_function block, residual_parameters block with
  | KinematicConstraintPenaltyResidual dt, [_; position_i; _; position_prev; twist_prev] =>
      p ← read m position_i;
      q ← read m position_prev;
      t ← read m twist_prev;
      match p, q, t with
      | [xi; yi], [xp; yp], [_; vx; vy] =>
          let dx := (xi - (xp + dt * vx))%Q in
          let dy := (yi - (yp + dt * vy))%Q in
          Some ((dx * dx + dy * dy) / 2)%Q
      | _, _, _ => None
      end
  | _, _ => None
  end.

(** The operations over these collaborators. *)
Definition set_reference_path := set_reference_path from_quaternion.
Definition set_initial_pose := set_initial_pose from_quaternion.
Definition generate_initial_values := generate_initial_values propagate.
Definition solve := solve propagate Solve EvaluateResidualBlock.
Definition get_optimal_path := get_optimal_path to_quaternion.

(** Inputs. *)
Definition pose_at (x0 y0 : Q) : PoseStamped :=
  mkPoseStamped (mkHeader 0 0 "map") (mkPose (mkPoint x0 y0 0) (mkQuaternion 0 0 0 1)).

Definition twist_of (angular_z linear_x linear_y : Q) : TwistStamped :=
  mkTwistStamped (mkHeader 0 0 "map")
    (mkTwist (mkVector3 linear_x linear_y 0) (mkVector3 0 0 angular_z)).

(** Two reference poses at the origin: the robot is already at its target. *)
Definition still_path : Path := mkPath (mkHeader 0 0 "map") [pose_at 0 0; pose_at 0 0].
(** A target one metre ahead. *)
Definition ahead_path : Path := mkPath (mkHeader 0 0 "map") [pose_at 0 0; pose_at 1 0].
Definition empty_path : Path := mkPath (mkHeader 0 0 "map") [].

Definition with_iterations (n : Z) (factor : float) : Options :=
  mkOptions 100 (1 # 100) n factor (1 # 100) 20%float 1%float.

(** A fresh optimizer that has been given a reference path. *)
Definition ready (options : Options) (path : Path) : Mpc :=
  (set_reference_path path (Mpc_new mkKinematicModel options)).2.

(** The initial guess of an optimizer, the problem built on it and the
    optimizer as the loop receives it (the optimizer itself when a step
    fails). *)
Definition seed_of (self : Mpc) : Mpc :=
  match generate_initial_values self with
  | Ok seed => seed
  | Fail _ => self
  end.

Definition problem_of (self : Mpc) : Problem :=
  match build_optimization_problem Problem_empty (seed_of self) with
  | Ok (problem, _) => problem
  | Fail _ => Problem_empty
  end.

Definition start_of (self : Mpc) : Mpc :=
  match build_optimization_problem Problem_empty (seed_of self) with
  | Ok (_, start) => start
  | Fail _ => self
  end.

Definition verdict_on := verdict_on Solve EvaluateResidualBlock.
Definition self_on := self_on Solve EvaluateResidualBlock.

(** The optimizer after a call of [solve] and the trace of that call. *)
Definition after_solve (self : Mpc) : Mpc := (solve self).1.2.
Definition trace_of_solve (self : Mpc) : list Event := (solve self).2.

End Concrete.

(** * The localisation node ([pet::KalmanNode], kalman_node.cpp)

    The node's members are a record; what it hands to ROS (transform
    broadcasts, publications, log lines) is appended to a list.  The filter
    itself (kalman_filter.h), the IMU and sonar message types and the yaw
    quaternion of ugl are parameters.  The timer object is kept as the flag
    that says whether it has been started. *)

Module Localisation.

(** A value on the parameter server. *)
Inductive ParamValue :=
| ParamBool (b : bool)
| ParamInt (i : Z)
| ParamDouble (d : Q)
| ParamString (s : string).

(** [nh.param<double>(name, default)]: the stored value when it is a number,
    the default otherwise. *)
Definition param_double (params : gmap string ParamValue) (name : string) (default : Q) : Q :=
  match params !! name with
  | Some (ParamDouble d) => d
  | Some (ParamInt i) => inject_Z i
  | _ => default
  end.

(** [nh.param<std::string>(name, default)] *)
Definition param_string (params : gmap string ParamValue) (name : string)
    (default : string) : string :=
  match params !! name with
  | Some (ParamString s) => s
  | _ => default
  end.

Record Transform := mkTransform { translation : Vector3; rotation_of_tf : Quaternion }.
Record TransformStamped := mkTransformStamped {
  tf_header : Header; child_frame_id : string; transform : Transform }.
Record Vector3Stamped := mkVector3Stamped { v3_header : Header; vector : Vector3 }.

Definition Vector3_default : Vector3 := mkVector3 0 0 0.
Definition TransformStamped_default : TransformStamped :=
  mkTransformStamped Header_default "" (mkTransform Vector3_default Quaternion_default).
Definition Vector3Stamped_default : Vector3Stamped :=
  mkVector3Stamped Header_default Vector3_default.

Section KalmanNode.

Variables Imu DistanceMeasurement KalmanFilter : Type.
(** [KalmanFilter(theta0, pos0, vel0)] and its accessors. *)
Variable KalmanFilter_new : Q -> Vector2d -> Vector2d -> KalmanFilter.
Variable filter_position : KalmanFilter -> Vector2d.
Variable filter_velocity : KalmanFilter -> Vector2d.
Variable filter_heading : KalmanFilter -> Q.
(** [tf2::toMsg(ugl::math::to_quat(yaw, ugl::Vector3::UnitZ()))] *)
Variable to_quat_z : Q -> Quaternion.

(** What the node gives to ROS. *)
Inductive Output :=
| sendTransform (msg : TransformStamped)
| publish_pose_msg (msg : PoseStamped)
| publish_vel_msg (msg : Vector3Stamped)
| ROS_INFO (text : string).

Record KalmanNode := mkKalmanNode {
  m_nh_private : gmap string ParamValue;
  m_base_frame : string;
  m_map_frame : string;
  m_kalman_filter : KalmanFilter;
  m_imu_queue : list Imu;
  m_tf_msg : TransformStamped;
  m_pose_msg : PoseStamped;
  m_vel_msg : Vector3Stamped;
  m_previous_imu_time : Z;
  m_timer_started : bool }.

(** [KalmanNode::initialise_kalman_filter], as a value: the filter made from
    the three parameters. *)
Definition initialise_kalman_filter (params : gmap string ParamValue) : KalmanFilter :=
  let x0 := param_double params "initial/x" 0 in
  let y0 := param_double params "initial/y" 0 in
  let theta0 := param_double params "initial/theta" 0 in
  let pos0 := mkVector2d x0 y0 in
  let vel0 := Vector2d_Zero in
  KalmanFilter_new theta0 pos0 vel0.

(** The members as the constructor leaves them before it waits for the first
    IMU message: frames from the private parameters, the timer created but
    not started, the filter initialised, messages value-initialised. *)
Definition KalmanNode_new (nh_private : gmap string ParamValue) (now : Z) : KalmanNode :=
  mkKalmanNode nh_private
    (param_string nh_private "base_frame" "base_link")
    (param_string nh_private "map_frame" "map")
    (initialise_kalman_filter nh_private)
    []
    TransformStamped_default PoseStamped_default Vector3Stamped_default
    now false.

Definition World : Type := KalmanNode * list Output.

(** [KalmanNode::start] *)
Definition start (now : Z) (w : World) : World :=
  let '(node, out) := w in
  (mkKalmanNode (m_nh_private node) (m_base_frame node) (m_map_frame node)
     (m_kalman_filter node) (m_imu_queue node)
     (m_tf_msg node) (m_pose_msg node) (m_vel_msg node)
     now true,
   out ++ [ROS_INFO "Timer started!"]).

Definition with_tf_msg (msg : TransformStamped) (node : KalmanNode) : KalmanNode :=
  mkKalmanNode (m_nh_private node) (m_base_frame node) (m_map_frame node)
    (m_kalman_filter node) (m_imu_queue node)
    msg (m_pose_msg node) (m_vel_msg node)
    (m_previous_imu_time node) (m_timer_started node).

Definition with_pose_msg (msg : PoseStamped) (node : KalmanNode) : KalmanNode :=
  mkKalmanNode (m_nh_private node) (m_base_frame node) (m_map_frame node)
    (m_kalman_filter node) (m_imu_queue node)
    (m_tf_msg node) msg (m_vel_msg node)
    (m_previous_imu_time node) (m_timer_started node).

Definition with_vel_msg (msg : Vector3Stamped) (node : KalmanNode) : KalmanNode :=
  mkKalmanNode (m_nh_private node) (m_base_frame node) (m_map_frame node)
    (m_kalman_filter node) (m_imu_queue node)
    (m_tf_msg node) (m_pose_msg node) msg
    (m_previous_imu_time node) (m_timer_started node).

(** [KalmanNode::publish_tf] *)
Definition publish_tf (stamp : Z) (w : World) : World :=
  let '(node, out) := w in
  let old := m_tf_msg node in
  let pos := filter_position (m_kalman_filter node) in
  let yaw := filter_heading (m_kalman_filter node) in
  let msg :=
    mkTransformStamped
      (mkHeader (header_seq (tf_header old)) stamp (m_map_frame node))
      (m_base_frame node)
      (mkTransform
         (mkVector3 (v_x pos) (v_y pos) (vz (translation (transform old))))
         (to_quat_z yaw)) in
  (with_tf_msg msg node, out ++ [sendTransform msg]).

(** [KalmanNode::publish_pose].  The yaw quaternion is assigned to
    [m_tf_msg.transform.rotation], as in the source. *)
Definition publish_pose (stamp : Z) (w : World) : World :=
  let '(node, out) := w in
  let old := m_pose_msg node in
  let pos := filter_position (m_kalman_filter node) in
  let msg :=
    mkPoseStamped
      (mkHeader (header_seq (ps_header old)) stamp (m_map_frame node))
      (mkPose
         (mkPoint (v_x pos) (v_y pos) (pz (pose_position (ps_pose old))))
         (pose_orientation (ps_pose old))) in
  let node := with_pose_msg msg node in
  let yaw := filter_heading (m_kalman_filter node) in
  let tf := m_tf_msg node in
  let node :=
    with_tf_msg
      (mkTransformStamped (tf_header tf) (child_frame_id tf)
         (mkTransform (translation (transform tf)) (to_quat_z yaw)))
      node in
  (node, out ++ [publish_pose_msg (m_pose_msg node)]).

(** [KalmanNode::publish_velocity] *)
Definition publish_velocity (stamp : Z) (w : World) : World :=
  let '(node, out) := w in
  let old := m_vel_msg node in
  let vel := filter_velocity (m_kalman_filter node) in
  let msg :=
    mkVector3Stamped
      (mkHeader (header_seq (v3_header old)) stamp (m_map_frame node))
      (mkVector3 (v_x vel) (v_y vel) (vz (vector old))) in
  (with_vel_msg msg node, out ++ [publish_vel_msg msg]).

(** [KalmanNode::timer_cb], for a timer event with real time [current_real]. *)
Definition timer_cb (current_real : Z) (w : World) : World :=
  publish_velocity current_real (publish_pose current_real (publish_tf current_real w)).

(** [KalmanNode::imu_cb] *)
Definition imu_cb (msg : Imu) (w : World) : World :=
  let '(node, out) := w in
  (mkKalmanNode (m_nh_private node) (m_base_frame node) (m_map_frame node)
     (m_kalman_filter node) (m_imu_queue node ++ [msg])
     (m_tf_msg node) (m_pose_msg node) (m_vel_msg node)
     (m_previous_imu_time node) (m_timer_started node),
   out).

(** [KalmanNode::sonar_cb]: an empty body. *)
Definition sonar_cb (msg : DistanceMeasurement) (w : World) : World := w.

(** What [ros::spin] can deliver to the node. *)
Inductive Callback :=
| TimerEvent (current_real : Z)
| ImuMessage (msg : Imu)
| SonarMessage (msg : DistanceMeasurement).

Definition dispatch (w : World) (c : Callback) : World :=
  match c with
  | TimerEvent current_real => timer_cb current_real w
  | ImuMessage msg => imu_cb msg w
  | SonarMessage msg => sonar_cb msg w
  end.

(** [ros::spin] over a sequence of deliveries. *)
Definition spin (callbacks : list Callback) (w : World) : World :=
  foldl dispatch w callbacks.

(** The IMU messages among a sequence of deliveries, in order. *)
Definition imu_messages (callbacks : list Callback) : list Imu :=
  omap (fun c => match c with ImuMessage msg => Some msg | _ => None end) callbacks.

(** The stamps of the timer events among a sequence of deliveries, in order. *)
Definition timer_stamps (callbacks : list Callback) : list Z :=
  omap (fun c => match c with TimerEvent t => Some t | _ => None end) callbacks.

(** The poses published in an output, in order. *)
Definition published_poses (out : list Output) : list PoseStamped :=
  omap (fun o => match o with publish_pose_msg m => Some m | _ => None end) out.

Definition broadcast_transforms (out : list Output) : list TransformStamped :=
  omap (fun o => match o with sendTransform m => Some m | _ => None end) out.

Definition published_velocities (out : list Output) : list Vector3Stamped :=
  omap (fun o => match o with publish_vel_msg m => Some m | _ => None end) out.

(** The three messages a timer event at [stamp] makes the node send, read off
    the node's members. *)
Definition transform_at (node : KalmanNode) (stamp : Z) : TransformStamped :=
  mkTransformStamped
    (mkHeader (header_seq (tf_header (m_tf_msg node))) stamp (m_map_frame node))
    (m_base_frame node)
    (mkTransform
       (mkVector3 (v_x (filter_position (m_kalman_filter node)))
                  (v_y (filter_position (m_kalman_filter node)))
                  (vz (translation (transform (m_tf_msg node)))))
       (to_quat_z (filter_heading (m_kalman_filter node)))).

Definition pose_at (node : KalmanNode) (stamp : Z) : PoseStamped :=
  mkPoseStamped
    (mkHeader (header_seq (ps_header (m_pose_msg node))) stamp (m_map_frame node))
    (mkPose
       (mkPoint (v_x (filter_position (m_kalman_filter node)))
                (v_y (filter_position (m_kalman_filter node)))
                (pz (pose_position (ps_pose (m_pose_msg node)))))
       (pose_orientation (ps_pose (m_pose_msg node)))).

Definition velocity_at (node : KalmanNode) (stamp : Z) : Vector3Stamped :=
  mkVector3Stamped
    (mkHeader (header_seq (v3_header (m_vel_msg node))) stamp (m_map_frame node))
    (mkVector3 (v_x (filter_velocity (m_kalman_filter node)))
               (v_y (filter_velocity (m_kalman_filter node)))
               (vz (vector (m_vel_msg node)))).

(** What no callback changes. *)
Definition fixed_part (node : KalmanNode)
  : gmap string ParamValue * string * string * KalmanFilter * Z * bool :=
  (m_nh_private node, m_base_frame node, m_map_frame node, m_kalman_filter node,
   m_previous_imu_time node, m_timer_started node).

End KalmanNode.

End Localisation.


(** * The firmware entry points (pet_mk_iv_arduino/firmware/src/main.cpp)

    The rosserial node handle, the modules and the timer live in headers that
    are not at hand: their state is one abstract board state and their
    operations are parameters.  Log calls are operations on the board like the
    others and are also recorded, in order.  The two busy-wait loops take
    fuel: [None] means the loop was still waiting when the fuel ran out. *)

Module Firmware.

Inductive ConfigResult := Success | AllocationError | TimerRegistrationError.

Inductive LogEntry :=
| loginfo (text : string)
| logerror (text : string).

Section Setup.

Variable Board : Type.
Variable initNode : Board -> Board.
Variable connected : Board -> bool.
Variable spinOnce : Board -> Board.
Variable negotiateTopics : Board -> Board.
Variable get_last_sync_receive_time : Board -> Z.
Variable requestSyncTime : Board -> Board.
Variable send_log : LogEntry -> Board -> Board.
Variable configure_modules : Board -> ConfigResult * Board.
Variable timer_start : Board -> Board.
Variable timer_spin_once : Board -> Board.

Definition State : Type := Board * list LogEntry.

Definition log (entry : LogEntry) (s : State) : State :=
  (send_log entry s.1, s.2 ++ [entry]).

(** [while (cond(nh)) nh.spinOnce();] *)
Fixpoint spin_while (cond : Board -> bool) (fuel : nat) (b : Board) : option Board :=
  if cond b then
    match fuel with
    | O => None
    | S fuel => spin_while cond fuel (spinOnce b)
    end
  else Some b.

(** [synchronise_with_server] *)
Definition synchronise_with_server (fuel : nat) (b : Board) : option Board :=
  let b := negotiateTopics b in
  let last_sync_time := get_last_sync_receive_time b in
  let b := requestSyncTime b in
  spin_while (fun b => last_sync_time =? get_last_sync_receive_time b) fuel b.

(** The log line [setup] writes for a configuration result. *)
Definition report (result : ConfigResult) : LogEntry :=
  match result with
  | Success => loginfo "Module setup done."
  | AllocationError => logerror "AllocationError during module setup!"
  | TimerRegistrationError => logerror "TimerRegistrationError during module setup!"
  end.

(** [setup] *)
Definition setup (fuel : nat) (s : State) : option State :=
  let s := (initNode s.1, s.2) in
  b ← spin_while (fun b => negb (connected b)) fuel s.1;
  let s := log (loginfo "Arduino starting...") (b, s.2) in
  let '(result, b) := configure_modules s.1 in
  let s := log (report result) (b, s.2) in
  b ← synchronise_with_server fuel s.1;
  let s := (timer_start b, s.2) in
  Some (log (loginfo "Arduino setup done!") s).

(** [loop] *)
Definition loop (s : State) : State :=
  (timer_spin_once (spinOnce s.1), s.2).

(** The board after [n] calls of [spinOnce]. *)
Definition spun (n : nat) (b : Board) : Board := Nat.iter n spinOnce b.

(** [n] is the number of calls of [spinOnce] after which [cond] first fails. *)
Definition first_release (cond : Board -> bool) (n : nat) (b : Board) : Prop :=
  cond (spun n b) = false /\ forall k, (k < n)%nat -> cond (spun k b) = true.

End Setup.

(** A board to run [setup] on: it counts the calls of [spinOnce], is
    connected from the second call on, gets a new sync time every fourth
    call, fails to allocate its modules, and remembers whether the timer was
    started. *)
Record Bench := mkBench { spins : Z; timer_running : bool }.

Definition Bench_spinOnce (b : Bench) : Bench := mkBench (spins b + 1) (timer_running b).
Definition Bench_connected (b : Bench) : bool := 2 <=? spins b.
Definition Bench_sync_time (b : Bench) : Z := spins b / 4.
Definition Bench_same (b : Bench) : Bench := b.
Definition Bench_send_log (entry : LogEntry) (b : Bench) : Bench := b.
Definition Bench_configure (b : Bench) : ConfigResult * Bench := (AllocationError, b).
Definition Bench_timer_start (b : Bench) : Bench := mkBench (spins b) true.

Definition Bench_setup : nat -> State Bench -> option (State Bench) :=
  setup Bench Bench_same Bench_connected Bench_spinOnce Bench_same Bench_sync_time
    Bench_same Bench_send_log Bench_configure Bench_timer_start.

Definition Bench_synchronise : nat -> Bench -> option Bench :=
  synchronise_with_server Bench Bench_spinOnce Bench_same Bench_sync_time Bench_same.

End Firmware.


(** ** Vocabulary for further properties *)

(** What the constructor fixes for the lifetime of an optimizer. *)
Definition configuration (s : Mpc)
  : KinematicModel * Options * ScaledLoss * ScaledLoss :=
  (m_kinematic_model s, m_options s,
   m_reference_loss_function s, m_velocity_loss_function s).

(** Step 0 of the horizon. *)
Definition step_0 (s : Mpc) : option Matrix2d * option Vector2d * option Vector3d :=
  (m_rotations s !! 0%nat, m_positions s !! 0%nat, m_twists s !! 0%nat).

(** The reference trajectory. *)
Definition reference_of (s : Mpc) : list Matrix2d * list Vector2d :=
  (m_reference_rotations s, m_reference_positions s).

(** The blocks of the reference buffers that a problem declares are all set
    constant. *)
Definition reference_blocks_constant (problem : Problem) : Prop :=
  forall b, b ∈ parameter_blocks problem ->
    (block_address b).1 = ReferenceRotations \/ (block_address b).1 = ReferencePositions ->
    block_address b ∈ constant_blocks problem.

(** The step-0 blocks of the horizon are set constant. *)
Definition step_0_constant (problem : Problem) : Prop :=
  forall a, a ∈ initial_constant_blocks -> a ∈ constant_blocks problem.

(** The tails a trace of [solve] can end with after the events of [n] engine
    invocations. *)
Definition trace_tails (n : nat) : list (list Event) :=
  [[]; [ROS_INFO_Feasible (Z.of_nat n)]; [ROS_WARN_MaxIterations];
   [ROS_INFO_Feasible (Z.of_nat n); ROS_WARN_MaxIterations];
   [ROS_ERROR error_text]].

(** * Properties *)

(** ** Loops and integers *)

Lemma int_of_size_small (n : nat) :
  Z.of_nat n <= INT_MAX -> int_of_size n = Z.of_nat n.
Proof.
  intros Hn. unfold int_of_size, INT_MAX in *.
  rewrite Z.mod_small by lia.
  destruct (Z.leb_spec (Z.of_nat n) 2147483647); lia.
Qed.

Lemma int_of_size_le (n : nat) : int_of_size n <= Z.of_nat n.
Proof.
  unfold int_of_size, INT_MAX.
  pose proof (Z.mod_le (Z.of_nat n) 4294967296 ltac:(lia) ltac:(lia)).
  destruct (Z.leb_spec (Z.of_nat n mod 4294967296) 2147483647); lia.
Qed.

Lemma at_int_of_nat {A : Type} (v : list A) (k : nat) :
  at_int v (Z.of_nat k) = v !! k.
Proof.
  unfold at_int. destruct (Z.ltb_spec (Z.of_nat k) 0); [lia|].
  by rewrite Nat2Z.id.
Qed.

Lemma data_at_of_nat {A : Type} (b : Buffer) (v : list A) (k : nat) :
  (k < length v)%nat -> data_at b v (Z.of_nat k) = Some (b, k).
Proof.
  intros Hk. unfold data_at. rewrite at_int_of_nat.
  destruct (lookup_lt_is_Some_2 v k Hk) as [a ->]. simpl. by rewrite Nat2Z.id.
Qed.

Lemma for_range_unfold {S : Type} (lo hi : Z) (body : Z -> S -> option S) (s : S) :
  for_range lo hi body s = for_int (Z.to_nat (hi - lo)) lo body s.
Proof. reflexivity. Qed.

(** A body that never faults runs to the end. *)
Lemma for_int_total {S : Type} (f : S -> S) (n : nat) (i : Z) (s : S) :
  for_int n i (fun _ st => Some (f st)) s = Some (Nat.iter n f s).
Proof.
  revert i s. induction n as [|n IH]; intros i s; simpl; [done|].
  rewrite IH. f_equal. clear. induction n as [|n IH]; simpl; congruence.
Qed.

Section MpcProperties.

Variable propagate : Pose2D -> Vector3d -> Q -> Pose2D.
Variable from_quaternion : Quaternion -> Matrix2d.
Variable to_quaternion : Matrix2d -> Quaternion.
Variable ceres_Solve : Problem -> LossFunctions -> Memory -> Memory.
Variable EvaluateResidualBlock : Problem -> Memory -> ResidualBlockId -> option Q.
Variable pose_minus : Pose2D -> Pose2D -> Vector3d.

Local Abbreviation set_reference_path := (set_reference_path from_quaternion).
Local Abbreviation set_initial_pose := (set_initial_pose from_quaternion).
Local Abbreviation generate_initial_values := (generate_initial_values propagate).
Local Abbreviation is_feasible := (is_feasible EvaluateResidualBlock).
Local Abbreviation penalty_step := (penalty_step ceres_Solve EvaluateResidualBlock).
Local Abbreviation penalty_loop := (penalty_loop ceres_Solve EvaluateResidualBlock).
Local Abbreviation solve := (solve propagate ceres_Solve EvaluateResidualBlock).
Local Abbreviation get_optimal_path := (get_optimal_path to_quaternion).
Local Abbreviation advance := (advance ceres_Solve EvaluateResidualBlock).
Local Abbreviation after_passes := (after_passes ceres_Solve EvaluateResidualBlock).
Local Abbreviation verdict_on := (verdict_on ceres_Solve EvaluateResidualBlock).
Local Abbreviation self_on := (self_on ceres_Solve EvaluateResidualBlock).
Local Abbreviation reachable :=
  (reachable propagate from_quaternion ceres_Solve EvaluateResidualBlock).
Local Abbreviation rotation_of :=
  (fun p : PoseStamped => from_quaternion (pose_orientation (ps_pose p))).

(** ** [set_reference_path] *)

Lemma reference_loop (path : list PoseStamped) (n k : nat) (self : Mpc) :
  (k + n <= length path)%nat ->
  for_int n (Z.of_nat k)
    (fun i self =>
       stamped ← at_int path i;
       let pose := ps_pose stamped in
       let self :=
         set_reference_positions
           (m_reference_positions self
              ++ [mkVector2d (px (pose_position pose)) (py (pose_position pose))])
           self in
       Some (set_reference_rotations
               (m_reference_rotations self ++ [from_quaternion (pose_orientation pose)])
               self))
    self
  = Some (set_reference_rotations
            (m_reference_rotations self ++ (rotation_of <$> take n (drop k path)))
            (set_reference_positions
               (m_reference_positions self ++ (point_of <$> take n (drop k path)))
               self)).
Proof.
  revert k self. induction n as [|n IH]; intros k self Hk.
  - destruct self; simpl. unfold set_reference_rotations, set_reference_positions; simpl.
    by rewrite !app_nil_r.
  - cbn [for_int]. rewrite at_int_of_nat.
    destruct (lookup_lt_is_Some_2 path k ltac:(lia)) as [stamped Hs].
    rewrite Hs. cbn [mbind option_bind].
    replace (Z.of_nat k + 1) with (Z.of_nat (S k)) by lia.
    rewrite IH by lia.
    rewrite (drop_S _ _ _ Hs). cbn [take fmap list_fmap].
    destruct self; unfold set_reference_rotations, set_reference_positions, point_of; simpl.
    by rewrite <- !app_assoc.
Qed.

(** The loop of [set_reference_path] never reads past the end of the path:
    the state it leaves, whatever the path and the options. *)
Lemma set_reference_path_unfold (path : Path) (self : Mpc) :
  poses path <> [] ->
  let N := Z.min (int_of_size (length (poses path))) (max_num_poses (m_options self)) in
  let cleared :=
    set_reference_rotations [] (set_reference_positions [] (set_problem_size N self)) in
  set_reference_path path self =
    if negb (reserve_ok N) then (Fail (Thrown "std::length_error"), cleared)
    else
      (Ok tt,
       set_reference_path_set true
         (set_reference_rotations (rotation_of <$> take (Z.to_nat N) (poses path))
            (set_reference_positions (point_of <$> take (Z.to_nat N) (poses path))
               cleared))).
Proof.
  intros Hne N cleared. unfold Control.set_reference_path.
  assert (negb (0 <? length (poses path))%nat = false) as ->.
  { destruct (poses path); [done|reflexivity]. }
  cbn [m_problem_size set_reference_rotations set_reference_positions
       set_problem_size]. fold N.
  destruct (negb (reserve_ok N)) eqn:Hres; [reflexivity|].
  rewrite for_range_unfold, Z.sub_0_r.
  change 0 with (Z.of_nat 0).
  pose proof (int_of_size_le (length (poses path))).
  rewrite reference_loop by (simpl; lia).
  reflexivity.
Qed.

(** C4. [set_reference_path] fails its assertion on an empty path and leaves
    the optimizer as it was; on a non-empty path of length L it sets the
    problem size to min(L, max_num_poses) and stores the conversions of
    exactly the first problem-size poses, whatever reference data was stored
    before; with a non-negative [max_num_poses] it returns normally and marks
    the reference path as set. *)
Theorem set_reference_path_spec (path : Path) (self : Mpc) :
  (poses path = [] ->
   set_reference_path path self
   = (Fail (AssertionFailed "reference_path.poses.size() > 0"), self))
  /\
  (poses path <> [] ->
   Z.of_nat (length (poses path)) <= INT_MAX ->
   let N := Z.min (Z.of_nat (length (poses path))) (max_num_poses (m_options self)) in
   let self' := (set_reference_path path self).2 in
   m_problem_size self' = N
   /\ m_reference_positions self' = point_of <$> take (Z.to_nat N) (poses path)
   /\ m_reference_rotations self' = rotation_of <$> take (Z.to_nat N) (poses path)
   /\ (0 <= max_num_poses (m_options self) ->
       (set_reference_path path self).1 = Ok tt
       /\ m_reference_path_set self' = true)).
Proof.
  split.
  - intros Hp. unfold Control.set_reference_path. by rewrite Hp.
  - intros Hp Hlen N self'. subst self'.
    rewrite (set_reference_path_unfold path self Hp).
    rewrite (int_of_size_small _ Hlen). fold N.
    unfold reserve_ok.
    destruct (Z.leb_spec 0 N) as [HN|HN]; simpl.
    + repeat split; auto.
    + replace (Z.to_nat N) with 0%nat by lia. rewrite take_0.
      split; [done|]. split; [done|]. split; [done|].
      intros Hmax. exfalso.
      assert (0 < Z.of_nat (length (poses path))).
      { destruct (poses path); [done|simpl; lia]. }
      lia.
Qed.

(** ** [solve] without a reference path *)

Lemma solve_unset (self : Mpc) :
  m_reference_path_set self = false ->
  solve self = (Fail (Thrown error_text), self, [ROS_ERROR error_text]).
Proof.
  intros Hset. unfold Control.solve. by rewrite Hset.
Qed.

(** C5. Called while no reference path is set, [solve] logs the error, throws
    it, and hands back the optimizer exactly as it received it: no buffer,
    no problem size and no residual handle has changed. *)
Theorem solve_requires_reference_path (self : Mpc) :
  m_reference_path_set self = false ->
  solve self = (Fail (Thrown error_text), self, [ROS_ERROR error_text]).
Proof.
  intros Hset. unfold Control.solve. by rewrite Hset.
Qed.

(** ** The initial guess *)

Lemma generate_step_append (twist : Vector3d) (dt : Q) (prev : Pose2D) (self : Mpc) :
  generate_step propagate twist dt (prev, self)
  = (propagate prev twist dt,
     append_horizon [propagate prev twist dt] [twist] self).
Proof. by destruct self. Qed.

Lemma append_horizon_nil (self : Mpc) : append_horizon [] [] self = self.
Proof.
  destruct self. cbv [append_horizon set_twists set_rotations set_positions
    m_kinematic_model m_options m_rotations m_positions m_reference_rotations
    m_reference_positions m_twists m_reference_path_set m_problem_size
    m_reference_loss_function m_velocity_loss_function
    m_constraint_penalty_coefficient_handle m_kinematic_constraint_residuals].
  cbn [fmap list_fmap]. by rewrite !app_nil_r.
Qed.

Lemma append_horizon_app (ps1 ps2 : list Pose2D) (ts1 ts2 : list Vector3d) (self : Mpc) :
  append_horizon ps2 ts2 (append_horizon ps1 ts1 self)
  = append_horizon (ps1 ++ ps2) (ts1 ++ ts2) self.
Proof.
  destruct self. cbv [append_horizon set_twists set_rotations set_positions
    m_kinematic_model m_options m_rotations m_positions m_reference_rotations
    m_reference_positions m_twists m_reference_path_set m_problem_size
    m_reference_loss_function m_velocity_loss_function
    m_constraint_penalty_coefficient_handle m_kinematic_constraint_residuals].
  by rewrite !fmap_app, !app_assoc.
Qed.

Lemma generate_loop (twist : Vector3d) (dt : Q) (n : nat) (i : Z)
    (prev : Pose2D) (self : Mpc) :
  exists final,
    for_int n i (fun _ st => Some (generate_step propagate twist dt st)) (prev, self)
    = Some (final,
            append_horizon (rollout propagate twist dt n prev) (replicate n twist) self).
Proof.
  revert i prev self. induction n as [|n IH]; intros i prev self.
  - exists prev. cbn [for_int rollout replicate]. by rewrite append_horizon_nil.
  - cbn [for_int rollout replicate]. rewrite generate_step_append.
    destruct (IH (i + 1) (propagate prev twist dt)
                (append_horizon [propagate prev twist dt] [twist] self))
      as [final Hfinal].
    exists final. rewrite Hfinal, append_horizon_app. reflexivity.
Qed.

Lemma generate_initial_values_unfold (self : Mpc) twist rotation0 position0 :
  m_twists self !! 0%nat = Some twist ->
  m_rotations self !! 0%nat = Some rotation0 ->
  m_positions self !! 0%nat = Some position0 ->
  generate_initial_values self
  = Ok (append_horizon
          (rollout propagate twist (time_step (m_options self))
             (Z.to_nat (m_problem_size self - 1)) (mkPose2D rotation0 position0))
          (replicate (Z.to_nat (m_problem_size self - 1)) twist)
          self).
Proof.
  intros Ht Hr Hp. unfold Control.generate_initial_values.
  rewrite Ht, Hr, Hp, for_range_unfold.
  destruct (generate_loop twist (time_step (m_options self))
              (Z.to_nat (m_problem_size self - 1)) 1
              (mkPose2D rotation0 position0) self) as [final ->].
  reflexivity.
Qed.

Lemma length_rollout twist dt n pose :
  length (rollout propagate twist dt n pose) = n.
Proof. revert pose. induction n; intros; simpl; auto. Qed.

(** Consecutive poses of a roll-out are related by the kinematic model. *)
Lemma rollout_chain twist dt n pose i :
  (i < n)%nat ->
  exists prev,
    (pose :: rollout propagate twist dt n pose) !! i = Some prev
    /\ (pose :: rollout propagate twist dt n pose) !! S i
       = Some (propagate prev twist dt).
Proof.
  revert pose i. induction n as [|n IH]; intros pose i Hi; [lia|].
  destruct i as [|i].
  - exists pose. by simpl.
  - destruct (IH (propagate pose twist dt) i ltac:(lia)) as (prev & H1 & H2).
    exists prev. split; simpl; [exact H1|exact H2].
Qed.

Lemma pose_at_zip (self : Mpc) (trajectory : list Pose2D) (i : nat) :
  m_rotations self = rotation <$> trajectory ->
  m_positions self = position <$> trajectory ->
  pose_at self i = trajectory !! i.
Proof.
  intros Hr Hp. unfold pose_at. rewrite Hr, Hp, !list_lookup_fmap.
  destruct (trajectory !! i) as [[r p]|]; reflexivity.
Qed.

(** X19. Run on the state the two setters leave (one entry in each horizon
    buffer), for every initial pose, initial twist and problem size N >= 1,
    the initial-guess generator returns a horizon of N poses and N twists in which
    every twist is the initial twist, pose 0 is the initial pose, and every
    later pose is the kinematic model applied to its predecessor under the
    initial twist: the poses after the first are the N-1 successive
    propagations.  Hence, for a pose difference that vanishes on equal poses,
    every kinematic-consistency residual of the seed is zero. *)
Theorem initial_guess_is_kinematically_consistent
    (pose : PoseStamped) (twist : TwistStamped) (self : Mpc) :
  1 <= m_problem_size self ->
  (forall p, Vector3d_isZero (pose_minus p p)) ->
  let N := Z.to_nat (m_problem_size self) in
  let twist_0 := twist_of_msg twist in
  let pose_0 := pose_of_msg from_quaternion pose in
  let dt := time_step (m_options self) in
  exists seed,
    generate_initial_values (set_initial_twist twist (set_initial_pose pose self))
    = Ok seed
    /\ length (m_rotations seed) = N
    /\ length (m_positions seed) = N
    /\ length (m_twists seed) = N
    /\ (forall i, (i < N)%nat -> m_twists seed !! i = Some twist_0)
    /\ pose_at seed 0 = Some pose_0
    /\ (forall i, (i < N)%nat ->
          pose_at seed i
          = (pose_0 :: rollout propagate twist_0 dt (N - 1) pose_0) !! i)
    /\ (forall i, (1 <= i < N)%nat ->
          exists prev,
            pose_at seed (i - 1) = Some prev
            /\ pose_at seed i = Some (propagate prev twist_0 dt))
    /\ (forall i, (1 <= i < N)%nat ->
          exists residual,
            kinematic_residual propagate pose_minus seed i = Some residual
            /\ Vector3d_isZero residual).
Proof.
  intros HN Hdiag N twist_0 pose_0 dt.
  set (start := set_initial_twist twist (set_initial_pose pose self)).
  assert (Ht : m_twists start = [twist_0]) by reflexivity.
  assert (Hr : m_rotations start = [rotation pose_0]) by reflexivity.
  assert (Hp : m_positions start = [position pose_0]) by reflexivity.
  assert (Hsize : Z.to_nat (m_problem_size start - 1) = (N - 1)%nat).
  { change (m_problem_size start) with (m_problem_size self). subst N. lia. }
  assert (Hdt : time_step (m_options start) = dt) by reflexivity.
  clearbody start.
  eexists. split.
  { apply (generate_initial_values_unfold start twist_0 (rotation pose_0) (position pose_0));
      [by rewrite Ht | by rewrite Hr | by rewrite Hp]. }
  rewrite Hsize, Hdt.
  change (mkPose2D (rotation pose_0) (position pose_0)) with pose_0.
  set (tail := rollout propagate twist_0 dt (N - 1) pose_0).
  set (seed := append_horizon tail (replicate (N - 1) twist_0) start).
  assert (Hrs : m_rotations seed = rotation <$> pose_0 :: tail).
  { unfold seed, append_horizon. simpl. by rewrite Hr. }
  assert (Hps : m_positions seed = position <$> pose_0 :: tail).
  { unfold seed, append_horizon. simpl. by rewrite Hp. }
  assert (Hts : m_twists seed = replicate (S (N - 1)) twist_0).
  { unfold seed, append_horizon. simpl. by rewrite Ht. }
  assert (Hlen : length tail = (N - 1)%nat) by apply length_rollout.
  assert (HN' : S (N - 1) = N) by (subst N; lia).
  assert (Hpose : forall i, pose_at seed i = (pose_0 :: tail) !! i).
  { intros i. by apply pose_at_zip. }
  assert (Hchain : forall i, (1 <= i < N)%nat ->
            exists prev, pose_at seed (i - 1) = Some prev
                         /\ pose_at seed i = Some (propagate prev twist_0 dt)).
  { intros i Hi.
    destruct (rollout_chain twist_0 dt (N - 1) pose_0 (i - 1) ltac:(lia))
      as (prev & H1 & H2).
    replace (S (i - 1)) with i in H2 by lia.
    exists prev. by rewrite !Hpose. }
  repeat split.
  - rewrite Hrs, length_fmap. simpl. lia.
  - rewrite Hps, length_fmap. simpl. lia.
  - rewrite Hts, length_replicate. lia.
  - intros i Hi. rewrite Hts. apply lookup_replicate_2. lia.
  - by rewrite Hpose.
  - intros i _. apply Hpose.
  - exact Hchain.
  - intros i Hi. destruct (Hchain i Hi) as (prev & H1 & H2).
    unfold kinematic_residual. rewrite H1, H2. cbn [mbind option_bind].
    rewrite Hts, lookup_replicate_2 by lia. cbn [mbind option_bind].
    change (time_step (m_options seed)) with (time_step (m_options start)).
    rewrite Hdt. eexists. split; [reflexivity|apply Hdiag].
Qed.

(** ** The optimization problem *)

Lemma build_loop (n k : nat) (problem : Problem) (self : Mpc) :
  (1 <= k)%nat ->
  (0 < n -> k + n <= length (m_rotations self))%nat ->
  (0 < n -> k + n <= length (m_positions self))%nat ->
  (0 < n -> k + n <= length (m_reference_rotations self))%nat ->
  (0 < n -> k + n <= length (m_reference_positions self))%nat ->
  (0 < n -> k + n <= length (m_twists self))%nat ->
  for_int n (Z.of_nat k) build_step (problem, self)
  = Some
      (mkProblem
         (parameter_blocks problem ++ flat_map step_parameter_blocks (seq k n))
         (constant_blocks problem ++ flat_map step_constant_blocks (seq k n))
         (residual_blocks problem
            ++ flat_map (step_residual_blocks (time_step (m_options self))) (seq k n)),
       set_kinematic_constraint_residuals
         (m_kinematic_constraint_residuals self
            ++ ((fun m => length (residual_blocks problem) + 3 * m + 2)%nat <$> seq 0 n))
         self).
Proof.
  revert k problem self.
  induction n as [|n IH]; intros k problem self Hk Hr Hp Hrr Hrp Ht.
  - destruct problem, self. cbn. unfold set_kinematic_constraint_residuals. cbn.
    by rewrite !app_nil_r.
  - cbn [for_int]. unfold build_step at 1.
    replace (Z.of_nat k - 1) with (Z.of_nat (k - 1)) by lia.
    rewrite !data_at_of_nat by lia.
    cbn [mbind option_bind AddResidualBlock AddParameterBlock SetParameterBlockConstant
         parameter_blocks constant_blocks residual_blocks].
    replace (Z.of_nat k + 1) with (Z.of_nat (S k)) by lia.
    rewrite IH by (cbn; lia).
    cbn [parameter_blocks constant_blocks residual_blocks
         m_kinematic_constraint_residuals set_kinematic_constraint_residuals
         m_options seq flat_map].
    f_equal. f_equal.
    + f_equal; rewrite <- ?app_assoc; reflexivity.
    + destruct self; unfold set_kinematic_constraint_residuals; cbn.
      f_equal. rewrite <- app_assoc. f_equal.
      rewrite <- fmap_S_seq, <- list_fmap_compose. cbn [app]. f_equal.
      * rewrite !length_app. cbn. lia.
      * apply list_fmap_ext. intros i m _. cbn. rewrite !length_app. cbn. lia.
Qed.

Lemma build_optimization_problem_unfold (self : Mpc) :
  build_in_bounds self ->
  let N := Z.to_nat (m_problem_size self) in
  build_optimization_problem Problem_empty self
  = Ok (expected_problem (time_step (m_options self)) N,
        set_kinematic_constraint_residuals
          ((fun m => 3 * m + 2)%nat <$> seq 0 (N - 1)) self).
Proof.
  intros (Hr & Hp & Ht & Hrr & Hrp) N. fold N in Hr, Hp, Ht, Hrr, Hrp.
  unfold build_optimization_problem.
  change 0 with (Z.of_nat 0). rewrite !data_at_of_nat by lia.
  cbn [mbind option_bind]. rewrite for_range_unfold.
  replace (Z.to_nat (m_problem_size (set_kinematic_constraint_residuals [] self) - 1))
    with (N - 1)%nat by (cbn; lia).
  change 1 with (Z.of_nat 1).
  rewrite build_loop by (cbn; lia).
  reflexivity.
Qed.








(** ** The feasibility test *)

Lemma Qgtb_false (a b : Q) : Qgtb a b = false <-> (a <= b)%Q.
Proof.
  unfold Qgtb. rewrite negb_false_iff. apply Qle_bool_iff.
Qed.

Lemma is_feasible_true_iff (problem : Problem) (self : Mpc) :
  is_feasible problem self = Ok true
  <-> all_costs_within EvaluateResidualBlock problem self.
Proof.
  unfold Control.is_feasible, all_costs_within.
  induction (m_kinematic_constraint_residuals self) as [|id ids IH]; cbn.
  - split; [constructor|done].
  - destruct (EvaluateResidualBlock problem (memory_of self) id) as [cost|] eqn:Hc.
    + destruct (Qgtb cost (max_constraint_cost (m_options self))) eqn:Hgt.
      * split; [discriminate|].
        intros H. apply Forall_cons in H as [(c & Hc' & Hle) _].
        rewrite Hc in Hc'. injection Hc' as <-.
        apply Qgtb_false in Hle. congruence.
      * rewrite IH. split.
        -- intros H. constructor; [|exact H].
           exists cost. split; [exact Hc|by apply Qgtb_false].
        -- intros H. by apply Forall_cons in H as [_ H].
    + split; [discriminate|].
      intros H. apply Forall_cons in H as [(c & Hc' & _) _]. congruence.
Qed.

(** ** The penalty loop *)

Lemma grown_shift (c f : float) (k : nat) : grown (PrimFloat.mul c f) f k = grown c f (S k).
Proof. induction k as [|k IH]; cbn; [done|]. rewrite IH. reflexivity. Qed.

Lemma loop_events_S (c f : float) (n : nat) :
  loop_events c f (S n)
  = [CeresSolve (Some (mkScaledLoss c)); ROS_INFO_BriefReport] ++ loop_events (PrimFloat.mul c f) f n.
Proof.
  unfold loop_events. cbn [seq flat_map grown]. f_equal.
  rewrite <- fmap_S_seq. clear.
  induction (seq 0 n) as [|j l IH]; cbn [fmap list_fmap flat_map]; [done|].
  rewrite IH, grown_shift. reflexivity.
Qed.

Lemma solver_invocations_app (t1 t2 : list Event) :
  solver_invocations (t1 ++ t2) = (solver_invocations t1 + solver_invocations t2)%nat.
Proof. unfold solver_invocations. by rewrite filter_app, length_app. Qed.

Lemma penalty_coefficients_app (t1 t2 : list Event) :
  penalty_coefficients (t1 ++ t2) = penalty_coefficients t1 ++ penalty_coefficients t2.
Proof. unfold penalty_coefficients. apply omap_app. Qed.

Lemma warned_app (t1 t2 : list Event) : warned (t1 ++ t2) = warned t1 || warned t2.
Proof. unfold warned. apply existsb_app. Qed.

Lemma solver_invocations_loop_events (c f : float) (n : nat) :
  solver_invocations (loop_events c f n) = n.
Proof.
  revert c. induction n as [|n IH]; intros c; [done|].
  rewrite loop_events_S, solver_invocations_app, IH. reflexivity.
Qed.

Lemma penalty_coefficients_loop_events (c f : float) (n : nat) :
  penalty_coefficients (loop_events c f n) = grown c f <$> seq 0 n.
Proof.
  revert c. induction n as [|n IH]; intros c; [done|].
  rewrite loop_events_S, penalty_coefficients_app, IH.
  cbn [seq fmap list_fmap]. rewrite <- fmap_S_seq, <- list_fmap_compose.
  cbn. f_equal. apply list_fmap_ext. intros i j _. apply grown_shift.
Qed.

Lemma warned_loop_events (c f : float) (n : nat) : warned (loop_events c f n) = false.
Proof.
  revert c. induction n as [|n IH]; intros c; [done|].
  rewrite loop_events_S, warned_app, IH. reflexivity.
Qed.

Lemma for_int_invariant {S : Type} (P : S -> Prop) (body : Z -> S -> option S) :
  (forall i s s', P s -> body i s = Some s' -> P s') ->
  forall n i s s', P s -> for_int n i body s = Some s' -> P s'.
Proof.
  intros Hbody n. induction n as [|n IH]; intros i s s' Hs Hrun; cbn in Hrun.
  - by injection Hrun as <-.
  - destruct (body i s) as [s1|] eqn:Hb; [|discriminate].
    eapply IH; [|exact Hrun]. eapply Hbody; eauto.
Qed.

(** [advance] is the state the loop continues with after a pass that was not
    feasible. *)
Lemma advance_shape (problem : Problem) (st : LoopState) :
  iteration (advance problem st) = iteration st + 1
  /\ penalty_coefficient (advance problem st)
     = PrimFloat.mul (penalty_coefficient st) (penalty_increase_factor (m_options (loop_self st)))
  /\ loop_trace (advance problem st)
     = loop_trace st ++ [CeresSolve (Some (mkScaledLoss (penalty_coefficient st))); ROS_INFO_BriefReport]
  /\ m_options (loop_self (advance problem st)) = m_options (loop_self st).
Proof. repeat split. Qed.

Lemma after_passes_shape (problem : Problem) (k : nat) (st : LoopState) :
  let f := penalty_increase_factor (m_options (loop_self st)) in
  iteration (after_passes problem k st) = iteration st + Z.of_nat k
  /\ penalty_coefficient (after_passes problem k st) = grown (penalty_coefficient st) f k
  /\ loop_trace (after_passes problem k st)
     = loop_trace st ++ loop_events (penalty_coefficient st) f k
  /\ m_options (loop_self (after_passes problem k st)) = m_options (loop_self st).
Proof.
  revert st. induction k as [|k IH]; intros st f.
  - cbn. rewrite app_nil_r. repeat split. lia.
  - cbn [Control.after_passes].
    destruct (IH (advance problem st)) as (Hi & Hc & Ht & Ho).
    destruct (advance_shape problem st) as (Hi' & Hc' & Ht' & Ho').
    rewrite Hi, Hc, Ht, Ho, Hi', Hc', Ht', Ho'. fold f.
    rewrite grown_shift, loop_events_S, <- app_assoc.
    repeat split. lia.
Qed.

Lemma penalty_loop_done (problem : Problem) (fuel : nat) (st : LoopState) :
  max_penalty_iterations (m_options (loop_self st)) <= iteration st ->
  penalty_loop fuel problem st = (None, st).
Proof.
  intros Hmax. destruct fuel; cbn; [done|].
  destruct (Z.ltb_spec (iteration st) (max_penalty_iterations (m_options (loop_self st))));
    [lia|done].
Qed.

Lemma penalty_loop_infeasible_pass (problem : Problem) (fuel : nat) (st : LoopState) :
  iteration st < max_penalty_iterations (m_options (loop_self st)) ->
  verdict_on problem st 1 = Ok false ->
  penalty_loop (S fuel) problem st = penalty_loop fuel problem (advance problem st).
Proof.
  intros Hlt Hv. cbn [Control.penalty_loop].
  destruct (Z.ltb_spec (iteration st) (max_penalty_iterations (m_options (loop_self st))));
    [|lia].
  unfold Control.verdict_on in Hv. cbn [Nat.pred Control.after_passes] in Hv.
  unfold Control.advance.
  destruct (Control.penalty_step ceres_Solve EvaluateResidualBlock problem st)
    as [st1 v] eqn:Hstep.
  cbn in Hv. subst v. reflexivity.
Qed.

Lemma verdict_on_advance (problem : Problem) (st : LoopState) (j : nat) :
  verdict_on problem (advance problem st) (S j) = verdict_on problem st (S (S j)).
Proof. unfold Control.verdict_on. cbn [Nat.pred Control.after_passes]. reflexivity. Qed.

(** Passes that are not feasible follow one another until the budget is used up. *)
Lemma penalty_loop_never_feasible (problem : Problem) (m fuel : nat) (st : LoopState) :
  (m <= fuel)%nat ->
  iteration st + Z.of_nat m = max_penalty_iterations (m_options (loop_self st)) ->
  (forall j, (j < m)%nat -> verdict_on problem st (S j) = Ok false) ->
  penalty_loop fuel problem st = (None, after_passes problem m st).
Proof.
  revert fuel st. induction m as [|m IH]; intros fuel st Hfuel Hmax Hv.
  - cbn [Control.after_passes]. apply penalty_loop_done. lia.
  - destruct fuel as [|fuel]; [lia|].
    rewrite penalty_loop_infeasible_pass by (try lia; apply Hv; lia).
    cbn [Control.after_passes].
    destruct (advance_shape problem st) as (Hi & _ & _ & Ho).
    apply IH; [lia|rewrite Hi, Ho; lia|].
    intros j Hj. rewrite verdict_on_advance. apply Hv. lia.
Qed.

(** The loop stops at the first feasible pass. *)
Lemma penalty_loop_first_feasible (problem : Problem) (m fuel : nat) (st : LoopState) :
  (m < fuel)%nat ->
  iteration st + Z.of_nat m < max_penalty_iterations (m_options (loop_self st)) ->
  (forall j, (j < m)%nat -> verdict_on problem st (S j) = Ok false) ->
  verdict_on problem st (S m) = Ok true ->
  penalty_loop fuel problem st
  = (None,
     let st' := (penalty_step problem (after_passes problem m st)).1 in
     mkLoopState (iteration st') (penalty_coefficient st') (loop_self st')
       (loop_trace st' ++ [ROS_INFO_Feasible (iteration st')])).
Proof.
  revert fuel st. induction m as [|m IH]; intros fuel st Hfuel Hmax Hv Hk.
  - destruct fuel as [|fuel]; [lia|]. cbn [Control.penalty_loop Control.after_passes].
    destruct (Z.ltb_spec (iteration st) (max_penalty_iterations (m_options (loop_self st))));
      [|lia].
    unfold Control.verdict_on in Hk. cbn [Nat.pred Control.after_passes] in Hk.
    destruct (Control.penalty_step ceres_Solve EvaluateResidualBlock problem st)
      as [st1 v] eqn:Hstep.
    cbn in Hk. subst v. reflexivity.
  - destruct fuel as [|fuel]; [lia|].
    rewrite penalty_loop_infeasible_pass by (try lia; apply Hv; lia).
    cbn [Control.after_passes].
    destruct (advance_shape problem st) as (Hi & _ & _ & Ho).
    apply IH; [lia|rewrite Hi, Ho; lia| |by rewrite verdict_on_advance].
    intros j Hj. rewrite verdict_on_advance. apply Hv. lia.
Qed.

(** ** [solve], step by step *)

Lemma generate_initial_values_inv (self seed : Mpc) :
  generate_initial_values self = Ok seed ->
  exists twist rotation0 position0,
    m_twists self !! 0%nat = Some twist
    /\ m_rotations self !! 0%nat = Some rotation0
    /\ m_positions self !! 0%nat = Some position0
    /\ seed = append_horizon
                (rollout propagate twist (time_step (m_options self))
                   (Z.to_nat (m_problem_size self - 1)) (mkPose2D rotation0 position0))
                (replicate (Z.to_nat (m_problem_size self - 1)) twist)
                self.
Proof.
  intros Hgen.
  destruct (m_twists self !! 0%nat) as [twist|] eqn:Ht;
    [|unfold Control.generate_initial_values in Hgen; by rewrite Ht in Hgen].
  destruct (m_rotations self !! 0%nat) as [rotation0|] eqn:Hr;
    [|unfold Control.generate_initial_values in Hgen; by rewrite Ht, Hr in Hgen].
  destruct (m_positions self !! 0%nat) as [position0|] eqn:Hp;
    [|unfold Control.generate_initial_values in Hgen; by rewrite Ht, Hr, Hp in Hgen].
  rewrite (generate_initial_values_unfold self _ _ _ Ht Hr Hp) in Hgen.
  injection Hgen as <-. by exists twist, rotation0, position0.
Qed.

Lemma build_step_inv (seed : Mpc) (i : Z) (st st' : Problem * Mpc) :
  (exists ids, st.2 = set_kinematic_constraint_residuals ids seed) ->
  build_step i st = Some st' ->
  exists ids, st'.2 = set_kinematic_constraint_residuals ids seed.
Proof.
  destruct st as [problem self]. intros [ids Hids] Hstep. cbn in Hids. subst self.
  unfold build_step in Hstep.
  repeat match type of Hstep with
         | context [data_at ?b ?v ?j] => destruct (data_at b v j); cbn in Hstep
         end; try discriminate.
  injection Hstep as <-. cbn. eexists. reflexivity.
Qed.

Lemma build_optimization_problem_inv (problem0 problem : Problem) (seed start : Mpc) :
  build_optimization_problem problem0 seed = Ok (problem, start) ->
  exists ids, start = set_kinematic_constraint_residuals ids seed.
Proof.
  unfold build_optimization_problem. intros Hbuild.
  repeat match type of Hbuild with
         | context [data_at ?b ?v ?j] =>
             destruct (data_at b v j); cbn [mbind option_bind] in Hbuild
         end; try discriminate.
  match type of Hbuild with
  | context [for_range ?lo ?hi ?body ?s] =>
      destruct (for_range lo hi body s) as [[p s']|] eqn:Hloop
  end; [|discriminate].
  injection Hbuild as -> ->.
  apply (for_int_invariant
           (fun st => exists ids, st.2 = set_kinematic_constraint_residuals ids seed)
           build_step (build_step_inv seed) _ _ _ _) in Hloop; [exact Hloop|].
  by exists [].
Qed.

Lemma solve_unfold (self seed start : Mpc) (problem : Problem) :
  m_reference_path_set self = true ->
  generate_initial_values self = Ok seed ->
  build_optimization_problem Problem_empty seed = Ok (problem, start) ->
  m_options start = m_options self
  /\ memory_of start = memory_of seed
  /\ solve self
     = let '(fault, st) :=
         penalty_loop (Z.to_nat (max_penalty_iterations (m_options self)))
           problem (mkLoopState 0 1%float start []) in
       match fault with
       | Some f => (Fail f, loop_self st, loop_trace st)
       | None =>
           if max_penalty_iterations (m_options (loop_self st)) <=? iteration st then
             (Ok tt, loop_self st, loop_trace st ++ [ROS_WARN_MaxIterations])
           else (Ok tt, loop_self st, loop_trace st)
       end.
Proof.
  intros Hset Hgen Hbuild.
  destruct (generate_initial_values_inv _ _ Hgen) as (tw & r0 & p0 & _ & _ & _ & Hseed).
  destruct (build_optimization_problem_inv _ _ _ _ Hbuild) as [ids Hstart].
  assert (Ho : m_options start = m_options self) by (subst start seed; reflexivity).
  split; [exact Ho|]. split; [by subst start|].
  unfold Control.solve. rewrite Hset, Hgen, Hbuild. cbn [negb]. by rewrite Ho.
Qed.

Lemma loop_events_snoc (c f : float) (n : nat) :
  loop_events c f (S n)
  = loop_events c f n ++ [CeresSolve (Some (mkScaledLoss (grown c f n))); ROS_INFO_BriefReport].
Proof.
  unfold loop_events. rewrite seq_S, flat_map_app. cbn. reflexivity.
Qed.

Lemma penalty_step_shape (problem : Problem) (st : LoopState) :
  iteration (penalty_step problem st).1 = iteration st + 1
  /\ penalty_coefficient (penalty_step problem st).1 = penalty_coefficient st
  /\ loop_trace (penalty_step problem st).1
     = loop_trace st ++ [CeresSolve (Some (mkScaledLoss (penalty_coefficient st))); ROS_INFO_BriefReport]
  /\ m_options (loop_self (penalty_step problem st).1) = m_options (loop_self st).
Proof. repeat split. Qed.

(** The run of [solve] in which iteration [k] is the first feasible one. *)
Lemma solve_first_feasible (self seed start : Mpc) (problem : Problem) (k : nat) :
  m_reference_path_set self = true ->
  generate_initial_values self = Ok seed ->
  build_optimization_problem Problem_empty seed = Ok (problem, start) ->
  let max := max_penalty_iterations (m_options self) in
  let f := penalty_increase_factor (m_options self) in
  let st0 := mkLoopState 0 1%float start [] in
  (1 <= k)%nat -> Z.of_nat k <= max ->
  (forall j, (1 <= j < k)%nat -> verdict_on problem st0 j = Ok false) ->
  verdict_on problem st0 k = Ok true ->
  solve self
  = (Ok tt, self_on problem st0 k,
     loop_events 1%float f k ++ [ROS_INFO_Feasible (Z.of_nat k)]
       ++ (if max <=? Z.of_nat k then [ROS_WARN_MaxIterations] else [])).
Proof.
  intros Hset Hgen Hbuild max f st0 Hk Hmax Hbefore Hfeasible.
  destruct (solve_unfold _ _ _ _ Hset Hgen Hbuild) as (Ho & _ & ->).
  destruct k as [|m]; [lia|].
  rewrite (penalty_loop_first_feasible problem m _ st0);
    [|lia|cbn; rewrite Ho; fold max; lia|intros j Hj; apply Hbefore; lia|exact Hfeasible].
  destruct (after_passes_shape problem m st0) as (Hi & Hc & Ht & Hop).
  destruct (penalty_step_shape problem (after_passes problem m st0)) as (Hi' & Hc' & Ht' & Hop').
  cbn [iteration penalty_coefficient loop_self loop_trace].
  rewrite Hop', Hop, Hi', Hi, Ht', Ht, Hc. cbn [loop_self loop_trace iteration penalty_coefficient st0].
  rewrite Ho. fold max f.
  replace (0 + Z.of_nat m + 1) with (Z.of_nat (S m)) by lia.
  rewrite loop_events_snoc. cbn [app].
  unfold Control.self_on. cbn [Nat.pred].
  destruct (max <=? Z.of_nat (S m)); rewrite <- ?app_assoc; reflexivity.
Qed.

(** The run of [solve] in which no iteration is feasible. *)
Lemma solve_never_feasible (self seed start : Mpc) (problem : Problem) :
  m_reference_path_set self = true ->
  generate_initial_values self = Ok seed ->
  build_optimization_problem Problem_empty seed = Ok (problem, start) ->
  let max := max_penalty_iterations (m_options self) in
  let f := penalty_increase_factor (m_options self) in
  let st0 := mkLoopState 0 1%float start [] in
  (forall j, (1 <= j)%nat -> Z.of_nat j <= max -> verdict_on problem st0 j = Ok false) ->
  solve self
  = (Ok tt, loop_self (after_passes problem (Z.to_nat max) st0),
     loop_events 1%float f (Z.to_nat max) ++ [ROS_WARN_MaxIterations]).
Proof.
  intros Hset Hgen Hbuild max f st0 Hnever.
  destruct (solve_unfold _ _ _ _ Hset Hgen Hbuild) as (Ho & _ & ->). fold max.
  destruct (Z.le_gt_cases max 0) as [Hmax|Hmax].
  - rewrite penalty_loop_done by (cbn; rewrite Ho; fold max; lia).
    cbn [loop_self loop_trace iteration st0]. rewrite Ho. fold max.
    destruct (Z.leb_spec max 0); [|lia].
    replace (Z.to_nat max) with 0%nat by lia. reflexivity.
  - rewrite (penalty_loop_never_feasible problem (Z.to_nat max) _ st0);
      [|lia|cbn; rewrite Ho; fold max; lia|intros j Hj; apply Hnever; lia].
    destruct (after_passes_shape problem (Z.to_nat max) st0) as (Hi & Hc & Ht & Hop).
    rewrite Hop, Hi, Ht. cbn [loop_self loop_trace iteration penalty_coefficient st0].
    rewrite Ho. fold max f.
    destruct (Z.leb_spec max (0 + Z.of_nat (Z.to_nat max))); [|lia].
    reflexivity.
Qed.

(** What any run of the loop leaves in the trace: the events of [n] passes,
    followed by the feasibility message if the last pass was feasible. *)
Lemma penalty_loop_trace (problem : Problem) (fuel : nat) (st st' : LoopState)
    (fault : option Fault) :
  penalty_loop fuel problem st = (fault, st') ->
  let f := penalty_increase_factor (m_options (loop_self st)) in
  exists n tail,
    loop_trace st' = loop_trace st ++ loop_events (penalty_coefficient st) f n ++ tail
    /\ (tail = [] \/ tail = [ROS_INFO_Feasible (iteration st')])
    /\ iteration st' = iteration st + Z.of_nat n
    /\ m_options (loop_self st') = m_options (loop_self st)
    /\ (n <= fuel)%nat.
Proof.
  revert st. induction fuel as [|fuel IH]; intros st Hrun f.
  - cbn in Hrun. injection Hrun as <- <-. exists 0%nat, [].
    cbn. rewrite app_nil_r. repeat split; auto. lia.
  - cbn [Control.penalty_loop] in Hrun.
    destruct (iteration st <? max_penalty_iterations (m_options (loop_self st))).
    2:{ injection Hrun as <- <-. exists 0%nat, [].
        cbn. rewrite app_nil_r. repeat split; auto; lia. }
    destruct (penalty_step_shape problem st) as (Hi & Hc & Ht & Ho).
    destruct (advance_shape problem st) as (Hi' & Hc' & Ht' & Ho').
    unfold Control.advance in *.
    destruct (Control.penalty_step ceres_Solve EvaluateResidualBlock problem st)
      as [st1 v] eqn:Hstep.
    cbn [fst] in *.
    destruct v as [[|]|fl].
    + injection Hrun as <- <-. exists 1%nat, [ROS_INFO_Feasible (iteration st1)].
      cbn [iteration loop_trace loop_self]. rewrite Ht, Hi.
      unfold loop_events. cbn. rewrite <- app_assoc.
      repeat split; auto; lia.
    + apply IH in Hrun as (n & tail & Htr & Htail & Hit & Hopt & Hn).
      cbn [iteration penalty_coefficient loop_self loop_trace] in *.
      exists (S n), tail.
      split.
      { rewrite Htr, Ht, Ho, Hc, loop_events_S, <- !app_assoc. reflexivity. }
      split; [exact Htail|]. split; [lia|]. split; [congruence|lia].
    + injection Hrun as <- <-. exists 1%nat, [].
      rewrite Ht, Hi. unfold loop_events. cbn.
      repeat split; auto; lia.
Qed.

(** What any call of [solve] leaves in the trace. *)
Lemma solve_trace (self self' : Mpc) (r : Result unit) (trace : list Event) :
  solve self = (r, self', trace) ->
  let max := max_penalty_iterations (m_options self) in
  let f := penalty_increase_factor (m_options self) in
  exists n,
    penalty_coefficients trace = grown 1%float f <$> seq 0 n
    /\ solver_invocations trace = n
    /\ (n <= Z.to_nat max)%nat
    /\ (r = Ok tt -> (warned trace = true <-> max <= Z.of_nat n)).
Proof.
  intros Hsolve max f.
  destruct (m_reference_path_set self) eqn:Hset.
  2:{ rewrite solve_unset in Hsolve by exact Hset.
      injection Hsolve as <- <- <-. exists 0%nat. repeat split; try done; lia. }
  destruct (generate_initial_values self) as [seed|fl] eqn:Hgen.
  2:{ unfold Control.solve in Hsolve. rewrite Hset, Hgen in Hsolve.
      injection Hsolve as <- <- <-. exists 0%nat. repeat split; try done; lia. }
  destruct (build_optimization_problem Problem_empty seed) as [[problem start]|fl] eqn:Hbuild.
  2:{ unfold Control.solve in Hsolve. rewrite Hset, Hgen, Hbuild in Hsolve.
      injection Hsolve as <- <- <-. exists 0%nat. repeat split; try done; lia. }
  destruct (solve_unfold _ _ _ _ Hset Hgen Hbuild) as (Ho & _ & Heq).
  rewrite Heq in Hsolve. clear Heq. fold max in Hsolve.
  destruct (penalty_loop (Z.to_nat max) problem (mkLoopState 0 1%float start []))
    as [fault st'] eqn:Hloop.
  apply penalty_loop_trace in Hloop as (n & tail & Htr & Htail & Hit & Hopt & Hn).
  cbn [iteration penalty_coefficient loop_self loop_trace app] in *.
  rewrite Ho in Htr, Hopt. fold f in Htr. rewrite Hopt in Hsolve. fold max in Hsolve.
  assert (Hq : penalty_coefficients tail = [] /\ solver_invocations tail = 0%nat
               /\ warned tail = false).
  { destruct Htail as [-> | ->]; done. }
  destruct Hq as (Hq1 & Hq2 & Hq3).
  exists n. destruct fault as [fl|].
  - injection Hsolve as <- <- <-. rewrite Htr.
    rewrite penalty_coefficients_app, solver_invocations_app, Hq1, Hq2, app_nil_r,
      penalty_coefficients_loop_events, solver_invocations_loop_events.
    repeat split; try done; lia.
  - rewrite Hit in Hsolve.
    assert (Hw1 : penalty_coefficients [ROS_WARN_MaxIterations] = []) by reflexivity.
    assert (Hw2 : solver_invocations [ROS_WARN_MaxIterations] = 0%nat) by reflexivity.
    assert (Hw3 : warned [ROS_WARN_MaxIterations] = true) by reflexivity.
    destruct (Z.leb_spec max (0 + Z.of_nat n)) as [Hle|Hgt];
      injection Hsolve as <- <- <-; rewrite Htr;
      rewrite ?penalty_coefficients_app, ?solver_invocations_app, ?warned_app,
        ?Hw1, ?Hw2, ?Hw3, Hq1, Hq2, Hq3, ?app_nil_r,
        penalty_coefficients_loop_events, solver_invocations_loop_events,
        warned_loop_events.
    + repeat split; try done; lia.
    + repeat split; try done; try lia.
Qed.

Lemma after_passes_S (problem : Problem) (m : nat) (st : LoopState) :
  after_passes problem (S m) st = advance problem (after_passes problem m st).
Proof.
  revert st. induction m as [|m IH]; intros st; [reflexivity|].
  change (after_passes problem (S (S m)) st)
    with (after_passes problem (S m) (advance problem st)).
  rewrite IH. reflexivity.
Qed.

(** With the whole budget used, the optimizer is as the engine left it on the
    last iteration. *)
Lemma after_passes_self_on (problem : Problem) (k : nat) (st : LoopState) :
  (1 <= k)%nat ->
  loop_self (after_passes problem k st) = self_on problem st k.
Proof.
  intros Hk. destruct k as [|m]; [lia|].
  rewrite after_passes_S. reflexivity.
Qed.

(** ** The penalty coefficient *)

(** *** Binary64 products of numbers that are at least 1 *)

Lemma digits2_pos_bounds (p : positive) :
  2 ^ (Z.pos (digits2_pos p) - 1) <= Z.pos p < 2 ^ Z.pos (digits2_pos p).
Proof.
  induction p as [p IH|p IH|]; cbn [digits2_pos]; [| |cbn; lia].
  all: rewrite Pos2Z.inj_succ;
    replace (Z.succ (Z.pos (digits2_pos p)) - 1) with (Z.succ (Z.pos (digits2_pos p) - 1))
      by lia;
    rewrite !Z.pow_succ_r by lia; lia.
Qed.

Lemma digits2_pos_unique (p : positive) (d : Z) :
  2 ^ (d - 1) <= Z.pos p < 2 ^ d -> 0 < d -> Z.pos (digits2_pos p) = d.
Proof.
  intros [Hlo Hhi] Hd. pose proof (digits2_pos_bounds p) as [Hlo' Hhi'].
  destruct (Z.lt_trichotomy (Z.pos (digits2_pos p)) d) as [Hlt|[Heq|Hgt]]; [|exact Heq|].
  - assert (2 ^ Z.pos (digits2_pos p) <= 2 ^ (d - 1)) by (apply Z.pow_le_mono_r; lia). lia.
  - assert (2 ^ d <= 2 ^ (Z.pos (digits2_pos p) - 1)) by (apply Z.pow_le_mono_r; lia). lia.
Qed.

Lemma shr_1_div (r : shr_record) :
  0 <= shr_m r -> 0 <= shr_m (shr_1 r) /\ shr_m (shr_1 r) = shr_m r / 2.
Proof.
  destruct r as [m r s]. cbn [shr_m]. intros Hm.
  destruct m as [|[p|p|]|p]; cbn [shr_1 shr_m]; try lia.
  all: split; [lia|]; try reflexivity.
  - rewrite (Pos2Z.inj_xI p). apply (Z.div_unique _ _ _ 1); lia.
  - rewrite (Pos2Z.inj_xO p). apply (Z.div_unique _ _ _ 0); lia.
Qed.

Lemma iter_shr_1_div (p : positive) (r : shr_record) :
  0 <= shr_m r ->
  0 <= shr_m (SpecFloat.iter_pos shr_1 p r)
  /\ shr_m (SpecFloat.iter_pos shr_1 p r) = shr_m r / 2 ^ Z.pos p.
Proof.
  revert r. induction p as [p IH|p IH|]; intros r Hr; cbn [SpecFloat.iter_pos].
  - destruct (shr_1_div r Hr) as [H1 E1].
    destruct (IH _ H1) as [H2 E2]. destruct (IH _ H2) as [H3 E3].
    split; [exact H3|]. rewrite E3, E2, E1.
    assert (0 < 2 ^ Z.pos p) by (apply Z.pow_pos_nonneg; lia).
    rewrite !Z.div_div by lia. f_equal.
    replace (Z.pos p~1) with (1 + Z.pos p + Z.pos p) by lia.
    rewrite !Z.pow_add_r by lia. change (2 ^ 1) with 2. lia.
  - destruct (IH _ Hr) as [H2 E2]. destruct (IH _ H2) as [H3 E3].
    split; [exact H3|]. rewrite E3, E2.
    assert (0 < 2 ^ Z.pos p) by (apply Z.pow_pos_nonneg; lia).
    rewrite !Z.div_div by lia. f_equal.
    replace (Z.pos p~0) with (Z.pos p + Z.pos p) by lia.
    rewrite !Z.pow_add_r by lia. lia.
  - apply shr_1_div. exact Hr.
Qed.

Lemma round_nearest_even_bounds (m : Z) (l : location) :
  m <= round_nearest_even m l <= m + 1.
Proof.
  destruct l as [|[]]; cbn [round_nearest_even]; try lia.
  destruct (Z.even m); lia.
Qed.

(** Rounding a positive significand of 53 + n bits to 53 bits: the result is
    an infinity, or has the exponent raised by n and a significand no smaller
    than the truncated one, or (after a carry) the exponent raised by n + 1. *)
Lemma binary_round_aux_shift (m n : positive) (e : Z) :
  2 ^ (52 + Z.pos n) <= Z.pos m < 2 ^ (53 + Z.pos n) ->
  -1074 <= e + Z.pos n ->
  let z := binary_round_aux prec emax false (Z.pos m) e loc_Exact in
  z = S754_infinity false
  \/ exists m' e',
       z = S754_finite false m' e'
       /\ 2 ^ 52 <= Z.pos m' < 2 ^ 53
       /\ ((e' = e + Z.pos n /\ Z.pos m / 2 ^ Z.pos n <= Z.pos m')
           \/ e' = e + Z.pos n + 1).
Proof.
  intros Hm He z.
  assert (Hpow : 0 < 2 ^ Z.pos n) by (apply Z.pow_pos_nonneg; lia).
  assert (Hq : 2 ^ 52 <= Z.pos m / 2 ^ Z.pos n < 2 ^ 53).
  { rewrite !Z.pow_add_r in Hm by lia. split.
    - apply Z.div_le_lower_bound; lia.
    - apply Z.div_lt_upper_bound; lia. }
  set (r0 := shr_record_of_loc (Z.pos m) loc_Exact).
  destruct (iter_shr_1_div n r0 ltac:(cbn; lia)) as [_ Er1].
  change (shr_m r0) with (Z.pos m) in Er1.
  set (r1 := SpecFloat.iter_pos shr_1 n r0) in *.
  assert (E1 : shr_fexp prec emax (Z.pos m) e loc_Exact = (r1, e + Z.pos n)).
  { unfold shr_fexp. cbn [Zdigits2].
    assert (Hdigits : Z.pos (digits2_pos m) = 53 + Z.pos n).
    { apply digits2_pos_unique; [|lia].
      replace (53 + Z.pos n - 1) with (52 + Z.pos n) by lia. exact Hm. }
    rewrite Hdigits.
    replace (fexp prec emax (53 + Z.pos n + e) - e) with (Z.pos n)
      by (unfold fexp, SpecFloat.emin, prec, emax; lia).
    reflexivity. }
  pose proof (round_nearest_even_bounds (shr_m r1) (loc_of_shr_record r1)) as Hround.
  subst z. unfold binary_round_aux. rewrite E1.
  destruct (round_nearest_even (shr_m r1) (loc_of_shr_record r1)) as [|m2|m2];
    rewrite Er1 in Hround; [lia| |lia].
  destruct (Z.eq_dec (Z.pos m2) (2 ^ 53)) as [Hcarry|Hcarry].
  - assert (m2 = 9007199254740992%positive) as -> by (change (2 ^ 53) with 9007199254740992 in Hcarry; lia).
    unfold shr_fexp. cbn [Zdigits2].
    change (Z.pos (digits2_pos 9007199254740992)) with 54.
    replace (fexp prec emax (54 + (e + Z.pos n)) - (e + Z.pos n)) with 1
      by (unfold fexp, SpecFloat.emin, prec, emax; lia).
    cbn [shr SpecFloat.iter_pos shr_record_of_loc shr_1 shr_m].
    destruct (e + Z.pos n + 1 <=? emax - prec); [right|by left].
    eexists _, _. split; [reflexivity|]. split; [|by right].
    change (2 ^ 52) with 4503599627370496. change (2 ^ 53) with 9007199254740992. lia.
  - unfold shr_fexp. cbn [Zdigits2].
    assert (Hdigits : Z.pos (digits2_pos m2) = 53).
    { apply digits2_pos_unique; [|lia]. change (53 - 1) with 52. lia. }
    rewrite Hdigits.
    replace (fexp prec emax (53 + (e + Z.pos n)) - (e + Z.pos n)) with 0
      by (unfold fexp, SpecFloat.emin, prec, emax; lia).
    cbn [shr shr_record_of_loc shr_m].
    destruct (e + Z.pos n <=? emax - prec); [right|by left].
    exists m2, (e + Z.pos n). split; [reflexivity|]. split; [lia|]. left. split; [reflexivity|lia].
Qed.

(** The rounded product of two positive normal numbers with significands
    [mx], [my] and exponents [ex], [ey]. *)
Lemma binary_round_aux_normal (mx my : positive) (ex ey : Z) :
  2 ^ 52 <= Z.pos mx < 2 ^ 53 -> 2 ^ 52 <= Z.pos my < 2 ^ 53 ->
  -52 <= ex -> -52 <= ey ->
  let z := binary_round_aux prec emax false (Z.pos (mx * my)) (ex + ey) loc_Exact in
  z = S754_infinity false
  \/ exists m e, z = S754_finite false m e
       /\ 2 ^ 52 <= Z.pos m < 2 ^ 53
       /\ ex <= e
       /\ (e = ex -> Z.pos mx <= Z.pos m).
Proof.
  intros Hx Hy Hex Hey z.
  assert (Hm : 2 ^ 104 <= Z.pos (mx * my) < 2 ^ 106).
  { rewrite Pos2Z.inj_mul.
    change (2 ^ 104) with (2 ^ 52 * 2 ^ 52). change (2 ^ 106) with (2 ^ 53 * 2 ^ 53).
    split; [apply Z.mul_le_mono_nonneg; lia|apply Z.mul_lt_mono_nonneg; lia]. }
  assert (Hd : Z.pos (digits2_pos (mx * my)) = 105 \/ Z.pos (digits2_pos (mx * my)) = 106).
  { pose proof (digits2_pos_bounds (mx * my)) as [Hlo Hhi].
    set (d := Z.pos (digits2_pos (mx * my))) in *.
    assert (104 < d).
    { destruct (Z.le_gt_cases d 104) as [Hle|]; [|lia].
      assert (2 ^ d <= 2 ^ 104) by (apply Z.pow_le_mono_r; lia). lia. }
    assert (d - 1 < 106).
    { destruct (Z.le_gt_cases 106 (d - 1)) as [Hle|]; [|lia].
      assert (2 ^ 106 <= 2 ^ (d - 1)) by (apply Z.pow_le_mono_r; lia). lia. }
    lia. }
  assert (Hmul : Z.pos mx * 2 ^ 52 <= Z.pos (mx * my)).
  { rewrite Pos2Z.inj_mul. apply Z.mul_le_mono_nonneg_l; lia. }
  pose proof (digits2_pos_bounds (mx * my)) as Hdb.
  destruct Hd as [Hd|Hd]; rewrite Hd in Hdb.
  - change (105 - 1) with 104 in Hdb.
    destruct (binary_round_aux_shift (mx * my) 52 (ex + ey)) as [Hz|(m & e & Hz & Hb & He)];
      [change (52 + 52) with 104; change (53 + 52) with 105; lia|lia|by left|].
    right. exists m, e. split; [exact Hz|]. split; [exact Hb|].
    assert (Hdiv : Z.pos mx <= Z.pos (mx * my) / 2 ^ 52).
    { apply Z.div_le_lower_bound; lia. }
    destruct He as [[-> Hq]| ->]; split; try lia. 
  - change (106 - 1) with 105 in Hdb.
    destruct (binary_round_aux_shift (mx * my) 53 (ex + ey)) as [Hz|(m & e & Hz & Hb & He)];
      [change (52 + 53) with 105; change (53 + 53) with 106; lia|lia|by left|].
    right. exists m, e. split; [exact Hz|]. split; [exact Hb|].
    destruct He as [[-> Hq]| ->]; split; lia.
Qed.

Lemma SFleb_finite (mx m : positive) (ex e : Z) :
  ex <= e -> (e = ex -> Z.pos mx <= Z.pos m) ->
  SFleb (S754_finite false mx ex) (S754_finite false m e) = true.
Proof.
  intros He Hm. unfold SFleb, SFcompare.
  destruct (Z.compare_spec ex e) as [Heq|Hlt|Hgt]; [|reflexivity|lia].
  change (Pos.compare_cont Eq mx m) with (Pos.compare mx m).
  destruct (Pos.compare_spec mx m) as [| |Hgt]; [reflexivity|reflexivity|].
  specialize (Hm (eq_sym Heq)). lia.
Qed.

Lemma SFleb_finite_inv (mx m : positive) (ex e : Z) :
  SFleb (S754_finite false mx ex) (S754_finite false m e) = true ->
  ex <= e /\ (e = ex -> Z.pos mx <= Z.pos m).
Proof.
  unfold SFleb, SFcompare.
  destruct (Z.compare_spec ex e) as [Heq|Hlt|Hgt]; [|lia|discriminate].
  change (Pos.compare_cont Eq mx m) with (Pos.compare mx m).
  destruct (Pos.compare_spec mx m) as [| |Hgt]; [lia|lia|discriminate].
Qed.

Lemma SFleb_at_least_one_refl (x : spec_float) : at_least_one x -> SFleb x x = true.
Proof.
  destruct x as [|[]| |[] m e]; cbn [at_least_one]; try tauto; intros _;
    try reflexivity.
  apply SFleb_finite; lia.
Qed.

Lemma SFleb_at_least_one_trans (x y z : spec_float) :
  at_least_one x -> at_least_one y -> at_least_one z ->
  SFleb x y = true -> SFleb y z = true -> SFleb x z = true.
Proof.
  destruct x as [|[]| |[] mx ex]; cbn [at_least_one]; try tauto;
    destruct y as [|[]| |[] my ey]; cbn [at_least_one]; try tauto;
    destruct z as [|[]| |[] mz ez]; cbn [at_least_one]; try tauto;
    intros _ _ _ Hxy Hyz; try reflexivity; try discriminate.
  apply SFleb_finite_inv in Hxy as [H1 H2]. apply SFleb_finite_inv in Hyz as [H3 H4].
  apply SFleb_finite; lia.
Qed.

(** The product of two numbers that are at least 1 is at least 1, and no
    smaller than the first factor: rounding to nearest never takes a product
    below a factor that is itself representable. *)
Lemma SFmul_at_least_one (x y : spec_float) :
  at_least_one x -> at_least_one y ->
  at_least_one (SF64mul x y) /\ SFleb x (SF64mul x y) = true.
Proof.
  destruct x as [|[]| |[] mx ex]; cbn [at_least_one]; try tauto;
    destruct y as [|[]| |[] my ey]; cbn [at_least_one]; try tauto;
    intros Hx Hy; try (split; [exact I|reflexivity]).
  destruct Hx as [Hex Hx]. destruct Hy as [Hey Hy].
  unfold SF64mul, SFmul. cbn [xorb].
  destruct (binary_round_aux_normal mx my ex ey Hx Hy Hex Hey)
    as [->|(m & e & -> & Hm & He & Hle)].
  - split; [exact I|reflexivity].
  - split; [cbn [at_least_one]; lia|by apply SFleb_finite].
Qed.

Lemma at_least_one_of_leb (x : spec_float) :
  valid_binary x = true -> SFleb (Prim2SF 1%float) x = true -> at_least_one x.
Proof.
  change (Prim2SF 1%float) with (S754_finite false 4503599627370496 (-52)).
  destruct x as [|[]| |[] m e]; cbn [valid_binary at_least_one]; try discriminate;
    try tauto.
  intros Hvalid Hle. apply SFleb_finite_inv in Hle as [He Hm].
  apply andb_prop in Hvalid as [Hcanonical _].
  unfold canonical_mantissa in Hcanonical. apply Z.eqb_eq in Hcanonical.
  assert (Hdigits : Z.pos (digits2_pos m) = 53).
  { revert Hcanonical. unfold fexp, SpecFloat.emin, prec, emax. lia. }
  pose proof (digits2_pos_bounds m) as Hb. rewrite Hdigits in Hb.
  change (53 - 1) with 52 in Hb. split; [exact He|exact Hb].
Qed.

Lemma leb_1_at_least_one (x : float) :
  (1 <=? x)%float = true -> at_least_one (Prim2SF x).
Proof.
  rewrite leb_spec. apply at_least_one_of_leb, Prim2SF_valid.
Qed.

Lemma mul_at_least_one (c f : float) :
  at_least_one (Prim2SF c) -> at_least_one (Prim2SF f) ->
  at_least_one (Prim2SF (c * f)) /\ (c <=? c * f)%float = true.
Proof.
  intros Hc Hf. rewrite leb_spec, mul_spec. by apply SFmul_at_least_one.
Qed.

Lemma grown_at_least_one (f : float) (k : nat) :
  (1 <=? f)%float = true -> at_least_one (Prim2SF (grown 1%float f k)).
Proof.
  intros Hf. induction k as [|k IH]; cbn [grown].
  - by apply leb_1_at_least_one.
  - apply mul_at_least_one; [exact IH|by apply leb_1_at_least_one].
Qed.

(** With a growth factor of at least 1 the coefficients never decrease. *)
Lemma grown_nondecreasing (f : float) (j k : nat) :
  (1 <=? f)%float = true -> (j <= k)%nat ->
  (grown 1%float f j <=? grown 1%float f k)%float = true.
Proof.
  intros Hf Hjk.
  pose proof (grown_at_least_one f) as Hone.
  induction Hjk as [|k Hjk IH].
  - rewrite leb_spec. apply SFleb_at_least_one_refl. by apply Hone.
  - destruct (mul_at_least_one (grown 1%float f k) f) as [_ Hstep];
      [by apply Hone|by apply leb_1_at_least_one|].
    rewrite leb_spec in IH, Hstep. rewrite leb_spec.
    apply (SFleb_at_least_one_trans _ (Prim2SF (grown 1%float f k))).
    + by apply Hone.
    + by apply Hone.
    + by apply (Hone (S k)).
    + exact IH.
    + exact Hstep.
Qed.

(** *** The penalty handle *)

Lemma handle_after_app (t1 t2 : list Event) (h : LossFunctionWrapper) :
  handle_after (t1 ++ t2) h = handle_after t2 (handle_after t1 h).
Proof. apply fold_left_app. Qed.

Lemma penalty_coefficients_le_invocations (trace : list Event) :
  (length (penalty_coefficients trace) <= solver_invocations trace)%nat.
Proof.
  induction trace as [|e t IH]; [done|].
  change (e :: t) with ([e] ++ t).
  rewrite penalty_coefficients_app, solver_invocations_app, length_app.
  assert (length (penalty_coefficients [e]) <= solver_invocations [e])%nat
    by (destruct e as [text| |it| |[loss|]]; vm_compute; lia).
  lia.
Qed.

(** When every engine invocation of a trace found a scaled loss in the
    handle, the handle ends up with the last scale. *)
Lemma handle_after_last (trace : list Event) (h : LossFunctionWrapper) (c : float) :
  length (penalty_coefficients trace) = solver_invocations trace ->
  last (penalty_coefficients trace) = Some c ->
  handle_after trace h = Some (mkScaledLoss c).
Proof.
  induction trace as [|e t IH] using rev_ind; [discriminate|].
  rewrite penalty_coefficients_app, solver_invocations_app, length_app, handle_after_app.
  pose proof (penalty_coefficients_le_invocations t) as Hle.
  destruct e as [text| |it| |[[c']|]];
    match goal with
    | |- context [solver_invocations [?e]] =>
        let v := eval vm_compute in (solver_invocations [e]) in
        change (solver_invocations [e]) with v
    end;
    intros Hlen Hlast; cbn in Hlen, Hlast |- *;
    rewrite ?app_nil_r in Hlast; try (apply IH; [lia|exact Hlast]).
  - rewrite last_snoc in Hlast. by injection Hlast as ->.
  - lia.
Qed.

(** Along the loop the handle holds what the last engine invocation in the
    trace was given. *)
Lemma penalty_loop_handle (problem : Problem) (h0 : LossFunctionWrapper) (fuel : nat) :
  forall st fault st',
    m_constraint_penalty_coefficient_handle (loop_self st)
    = handle_after (loop_trace st) h0 ->
    penalty_loop fuel problem st = (fault, st') ->
    m_constraint_penalty_coefficient_handle (loop_self st')
    = handle_after (loop_trace st') h0.
Proof.
  induction fuel as [|fuel IH]; intros st fault st' Hh Hrun.
  - cbn in Hrun. by injection Hrun as <- <-.
  - cbn [Control.penalty_loop] in Hrun.
    destruct (iteration st <? max_penalty_iterations (m_options (loop_self st)));
      [|by injection Hrun as <- <-].
    assert (Hstep : m_constraint_penalty_coefficient_handle
                      (loop_self (penalty_step problem st).1)
                    = handle_after (loop_trace (penalty_step problem st).1) h0).
    { cbn [Control.penalty_step fst loop_self loop_trace].
      rewrite handle_after_app. reflexivity. }
    destruct (Control.penalty_step ceres_Solve EvaluateResidualBlock problem st)
      as [st1 v] eqn:Hs.
    cbn [fst] in Hstep.
    destruct v as [[|]|fl].
    + injection Hrun as <- <-. cbn [loop_self loop_trace].
      rewrite handle_after_app. exact Hstep.
    + apply IH in Hrun; [exact Hrun|exact Hstep].
    + by injection Hrun as <- <-.
Qed.

(** After [solve] the handle holds what the last engine invocation was
    given, or what it held before when the engine was never run. *)
Lemma solve_handle (self self' : Mpc) (r : Result unit) (trace : list Event) :
  solve self = (r, self', trace) ->
  m_constraint_penalty_coefficient_handle self'
  = handle_after trace (m_constraint_penalty_coefficient_handle self).
Proof.
  intros Hsolve.
  destruct (m_reference_path_set self) eqn:Hset.
  2:{ rewrite solve_unset in Hsolve by exact Hset. by injection Hsolve as <- <- <-. }
  destruct (generate_initial_values self) as [seed|fl] eqn:Hgen.
  2:{ unfold Control.solve in Hsolve. rewrite Hset, Hgen in Hsolve.
      by injection Hsolve as <- <- <-. }
  destruct (generate_initial_values_inv _ _ Hgen) as (tw & r0 & p0 & _ & _ & _ & Hseed).
  destruct (build_optimization_problem Problem_empty seed) as [[problem start]|fl] eqn:Hbuild.
  2:{ unfold Control.solve in Hsolve. rewrite Hset, Hgen, Hbuild in Hsolve.
      injection Hsolve as <- <- <-. by subst seed. }
  destruct (build_optimization_problem_inv _ _ _ _ Hbuild) as [ids Hstart].
  destruct (solve_unfold _ _ _ _ Hset Hgen Hbuild) as (_ & _ & Heq).
  rewrite Heq in Hsolve. clear Heq.
  destruct (penalty_loop (Z.to_nat (max_penalty_iterations (m_options self))) problem
              (mkLoopState 0 1%float start [])) as [fault st'] eqn:Hloop.
  apply (penalty_loop_handle problem (m_constraint_penalty_coefficient_handle self))
    in Hloop; [|by subst start seed].
  destruct fault as [fl|]; [by injection Hsolve as <- <- <-|].
  destruct (max_penalty_iterations (m_options (loop_self st')) <=? iteration st');
    injection Hsolve as <- <- <-; [|exact Hloop].
  rewrite handle_after_app. exact Hloop.
Qed.

Lemma build_step_penalty_blocks (i : Z) (st st' : Problem * Mpc) :
  penalty_on_kinematic_blocks st.1 -> build_step i st = Some st' ->
  penalty_on_kinematic_blocks st'.1.
Proof.
  destruct st as [problem self]. cbn [fst]. intros Hinv Hstep.
  unfold build_step in Hstep.
  destruct (data_at Rotations (m_rotations self) i); [|discriminate].
  destruct (data_at Positions (m_positions self) i); [|discriminate].
  destruct (data_at ReferenceRotations (m_reference_rotations self) i); [|discriminate].
  destruct (data_at ReferencePositions (m_reference_positions self) i); [|discriminate].
  destruct (data_at Twists (m_twists self) i); [|discriminate].
  cbn [mbind option_bind] in Hstep.
  destruct (data_at Rotations (m_rotations self) (i - 1)); [|discriminate].
  destruct (data_at Positions (m_positions self) (i - 1)); [|discriminate].
  destruct (data_at Twists (m_twists self) (i - 1)); [|discriminate].
  cbn in Hstep. injection Hstep as <-. cbn [fst residual_blocks].
  intros block Hb.
  repeat (apply elem_of_app in Hb as [Hb | Hb]);
    [by apply Hinv | | | ];
    apply list_elem_of_singleton in Hb; subst block;
    cbn [loss_function cost_function]; (split; [intros H|intros [dt H]]);
    first [discriminate | reflexivity | by eexists].
Qed.

Lemma build_optimization_problem_penalty_blocks (problem : Problem) (seed start : Mpc) :
  build_optimization_problem Problem_empty seed = Ok (problem, start) ->
  penalty_on_kinematic_blocks problem.
Proof.
  unfold build_optimization_problem. intros Hbuild.
  destruct (data_at Rotations (m_rotations seed) 0); [|discriminate].
  destruct (data_at Positions (m_positions seed) 0); [|discriminate].
  destruct (data_at Twists (m_twists seed) 0); [|discriminate].
  cbn [mbind option_bind] in Hbuild.
  match type of Hbuild with
  | context [for_range ?lo ?hi ?body ?s] =>
      destruct (for_range lo hi body s) as [[p s']|] eqn:Hloop
  end; [|discriminate].
  injection Hbuild as -> ->.
  apply (for_int_invariant (fun st => penalty_on_kinematic_blocks st.1)
           build_step build_step_penalty_blocks _ _ _ _) in Hloop; [exact Hloop|].
  intros block Hb. cbn in Hb. by apply elem_of_nil in Hb.
Qed.

(** C2, as the code has it.  At every invocation of the engine the penalty
    handle holds a scaled loss, and the handle is the loss function of the
    kinematic-constraint residual blocks of the problem solve() builds, and
    of no other block.  The scales the engine is run with, in order, start at
    1, and each is the binary64 product of the previous one and
    [penalty_increase_factor], so the scale of invocation k+1 is the k-fold
    product ((1 * f) * f) ... * f, every product rounded to nearest.  The
    sequence is non-decreasing when the factor is at least 1.  After solve()
    the handle holds the scale of the last invocation. *)
Theorem penalty_coefficient_schedule (self self' : Mpc) (r : Result unit)
    (trace : list Event) :
  solve self = (r, self', trace) ->
  let f := penalty_increase_factor (m_options self) in
  let coefficients := penalty_coefficients trace in
  length coefficients = solver_invocations trace
  /\ (forall seed problem start,
        generate_initial_values self = Ok seed ->
        build_optimization_problem Problem_empty seed = Ok (problem, start) ->
        penalty_on_kinematic_blocks problem)
  /\ (forall c, coefficients !! 0%nat = Some c -> c = 1%float)
  /\ (forall k c c', coefficients !! k = Some c -> coefficients !! S k = Some c' ->
        c' = PrimFloat.mul c f)
  /\ (forall k c, coefficients !! k = Some c -> c = penalty_after f k)
  /\ (PrimFloat.leb 1 f = true ->
      forall j k c c', (j <= k)%nat ->
        coefficients !! j = Some c -> coefficients !! k = Some c' ->
        PrimFloat.leb c c' = true)
  /\ m_constraint_penalty_coefficient_handle self'
     = handle_after trace (m_constraint_penalty_coefficient_handle self)
  /\ (forall c, last coefficients = Some c ->
        m_constraint_penalty_coefficient_handle self' = Some (mkScaledLoss c)).
Proof.
  intros Hsolve f coefficients.
  destruct (solve_trace _ _ _ _ Hsolve) as (n & Hc & Hn & _ & _).
  fold f in Hc. fold coefficients in Hc.
  assert (Hlook : forall k c, coefficients !! k = Some c -> c = grown 1%float f k).
  { intros k c. rewrite Hc, list_lookup_fmap.
    destruct (seq 0 n !! k) as [j|] eqn:Hj; [|discriminate].
    apply lookup_seq in Hj as [-> _]. cbn. congruence. }
  split; [by rewrite Hc, length_fmap, length_seq|].
  split.
  { intros seed problem start _ Hbuild.
    by apply (build_optimization_problem_penalty_blocks problem seed start). }
  split; [intros c H0; by rewrite (Hlook _ _ H0)|].
  split.
  { intros k c c' H1 H2. rewrite (Hlook _ _ H1), (Hlook _ _ H2). reflexivity. }
  split; [intros k c H1; by rewrite (Hlook _ _ H1)|].
  split.
  { intros Hf j k c c' Hjk H1 H2. rewrite (Hlook _ _ H1), (Hlook _ _ H2).
    by apply grown_nondecreasing. }
  pose proof (solve_handle _ _ _ _ Hsolve) as Hhandle.
  split; [exact Hhandle|].
  intros c Hlast. rewrite Hhandle.
  apply handle_after_last; [|exact Hlast].
  fold coefficients. by rewrite Hc, length_fmap, length_seq.
Qed.

(** ** The outer loop of [solve] *)

Lemma verdict_on_is_feasible (problem : Problem) (st : LoopState) (k : nat) :
  verdict_on problem st k = is_feasible problem (self_on problem st k).
Proof. reflexivity. Qed.

(** C1. Feasibility means that every recorded kinematic-constraint residual
    block costs at most [max_constraint_cost] ([is_feasible_true_iff]).  If
    the feasibility test answers false on the iterations before k and
    feasibility holds on iteration k <= max_penalty_iterations, [solve]
    returns the optimizer as the engine left it on iteration k, having invoked
    the engine exactly k times.  If the test answers false on every iteration
    up to the limit, the engine is invoked exactly max_penalty_iterations
    times.  If max_penalty_iterations is 0 the engine is not invoked and the
    buffers are those of the initial guess. *)
Theorem penalty_iterations_run (self seed start : Mpc) (problem : Problem) :
  m_reference_path_set self = true ->
  generate_initial_values self = Ok seed ->
  build_optimization_problem Problem_empty seed = Ok (problem, start) ->
  let max := max_penalty_iterations (m_options self) in
  let st0 := mkLoopState 0 1%float start [] in
  (forall k, (1 <= k)%nat -> Z.of_nat k <= max ->
     (forall j, (1 <= j < k)%nat -> verdict_on problem st0 j = Ok false) ->
     all_costs_within EvaluateResidualBlock problem (self_on problem st0 k) ->
     exists trace,
       solve self = (Ok tt, self_on problem st0 k, trace)
       /\ solver_invocations trace = k)
  /\ ((forall j, (1 <= j)%nat -> Z.of_nat j <= max ->
         verdict_on problem st0 j = Ok false) ->
      exists self' trace,
        solve self = (Ok tt, self', trace)
        /\ solver_invocations trace = Z.to_nat max)
  /\ (max = 0 ->
      exists trace,
        solve self = (Ok tt, start, trace)
        /\ solver_invocations trace = 0%nat
        /\ memory_of start = memory_of seed).
Proof.
  intros Hset Hgen Hbuild max st0.
  assert (Hwarn : solver_invocations [ROS_WARN_MaxIterations] = 0%nat) by reflexivity.
  split; [|split].
  - intros k Hk Hmax Hbefore Hfeasible.
    apply is_feasible_true_iff in Hfeasible. rewrite <- verdict_on_is_feasible in Hfeasible.
    eexists. split.
    + apply (solve_first_feasible self seed start problem k); assumption.
    + rewrite !solver_invocations_app, solver_invocations_loop_events.
      change (solver_invocations [ROS_INFO_Feasible (Z.of_nat k)]) with 0%nat.
      destruct (_ <=? _); [rewrite Hwarn|change (solver_invocations []) with 0%nat]; lia.
  - intros Hnever. eexists _, _. split.
    + apply (solve_never_feasible self seed start problem); assumption.
    + rewrite solver_invocations_app, solver_invocations_loop_events, Hwarn. lia.
  - intros H0. fold max in H0.
    pose proof (solve_never_feasible self seed start problem Hset Hgen Hbuild) as Hrun.
    cbn zeta in Hrun. fold max st0 in Hrun. rewrite H0 in Hrun.
    eexists. split; [apply Hrun; intros; lia|].
    split; [reflexivity|].
    by destruct (solve_unfold _ _ _ _ Hset Hgen Hbuild) as (_ & Hm & _).
Qed.

(** C6, as the code has it.  [solve] raises the iteration-limit warning
    exactly when the engine has been invoked max_penalty_iterations times by
    the time the loop ends.  So the warning is raised when no iteration up to
    the limit is feasible, and the optimizer is then returned as the engine
    left it on the last iteration; when iteration k is the first feasible one
    the warning is raised if and only if k is the last iteration the budget
    allows.  In each case [solve] returns normally. *)
Theorem iteration_limit_warning (self seed start : Mpc) (problem : Problem) :
  m_reference_path_set self = true ->
  generate_initial_values self = Ok seed ->
  build_optimization_problem Problem_empty seed = Ok (problem, start) ->
  let max := max_penalty_iterations (m_options self) in
  let st0 := mkLoopState 0 1%float start [] in
  (forall self' trace,
     solve self = (Ok tt, self', trace) ->
     (warned trace = true <-> max <= Z.of_nat (solver_invocations trace)))
  /\ ((forall j, (1 <= j)%nat -> Z.of_nat j <= max ->
         verdict_on problem st0 j = Ok false) ->
      exists self' trace,
        solve self = (Ok tt, self', trace)
        /\ warned trace = true
        /\ (1 <= max -> self' = self_on problem st0 (Z.to_nat max)))
  /\ (forall k, (1 <= k)%nat -> Z.of_nat k <= max ->
        (forall j, (1 <= j < k)%nat -> verdict_on problem st0 j = Ok false) ->
        verdict_on problem st0 k = Ok true ->
        exists trace,
          solve self = (Ok tt, self_on problem st0 k, trace)
          /\ (warned trace = true <-> Z.of_nat k = max)).
Proof.
  intros Hset Hgen Hbuild max st0.
  assert (Hwarn : warned [ROS_WARN_MaxIterations] = true) by reflexivity.
  split; [|split].
  - intros self' trace Hsolve.
    destruct (solve_trace _ _ _ _ Hsolve) as (n & _ & Hn & _ & Hw).
    rewrite Hn. by apply Hw.
  - intros Hnever. eexists _, _. split; [|split].
    + apply (solve_never_feasible self seed start problem); assumption.
    + by rewrite warned_app, warned_loop_events, Hwarn.
    + intros Hmax. apply after_passes_self_on. fold max. lia.
  - intros k Hk Hmax Hbefore Hfeasible. eexists. split.
    + apply (solve_first_feasible self seed start problem k); assumption.
    + rewrite !warned_app, warned_loop_events. fold max.
      destruct (Z.leb_spec max (Z.of_nat k)); cbn; split; intros; try lia; done.
Qed.

(** ** The engine's contract

    From here on the engine is assumed to write only where the problem lets
    it: see [respects]. *)

Hypothesis Solve_respects :
  forall problem losses m, respects problem m (ceres_Solve problem losses m).

Lemma penalty_loop_preserves (P : Mpc -> Prop) (problem : Problem) :
  (forall st, P (loop_self st) -> P (loop_self (penalty_step problem st).1)) ->
  forall fuel st fault st',
    P (loop_self st) -> penalty_loop fuel problem st = (fault, st') -> P (loop_self st').
Proof.
  intros Hstep fuel. induction fuel as [|fuel IH]; intros st fault st' HP Hrun.
  - cbn in Hrun. by injection Hrun as <- <-.
  - cbn [Control.penalty_loop] in Hrun.
    destruct (iteration st <? max_penalty_iterations (m_options (loop_self st)));
      [|by injection Hrun as <- <-].
    specialize (Hstep st HP).
    destruct (Control.penalty_step ceres_Solve EvaluateResidualBlock problem st)
      as [st1 v] eqn:Hs.
    cbn [fst] in Hstep.
    destruct v as [[|]|fl].
    + by injection Hrun as <- <-.
    + apply IH in Hrun; [exact Hrun|exact Hstep].
    + by injection Hrun as <- <-.
Qed.

(** A pass of the loop keeps the sizes of the buffers, the problem size and
    the options. *)
Lemma penalty_step_sizes (problem : Problem) (st : LoopState) :
  buffer_sizes (loop_self (penalty_step problem st).1) = buffer_sizes (loop_self st)
  /\ m_problem_size (loop_self (penalty_step problem st).1) = m_problem_size (loop_self st).
Proof.
  split; [|reflexivity].
  unfold Control.penalty_step. cbn [fst loop_self].
  set (s1 := set_constraint_penalty_coefficient_handle _ _).
  pose proof (Solve_respects problem (losses_of s1) (memory_of s1))
    as [H1 H2 H3 H4 H5 _ _].
  remember (ceres_Solve problem (losses_of s1) (memory_of s1)) as m' eqn:Hm'.
  clear Hm'. unfold buffer_sizes. cbn in *. by rewrite H1, H2, H3, H4, H5.
Qed.

Lemma generate_initial_values_sizes (self seed : Mpc) :
  generate_initial_values self = Ok seed ->
  let n := Z.to_nat (m_problem_size self - 1) in
  m_problem_size seed = m_problem_size self
  /\ m_options seed = m_options self
  /\ (1 <= length (m_rotations self))%nat
  /\ (1 <= length (m_positions self))%nat
  /\ (1 <= length (m_twists self))%nat
  /\ buffer_sizes seed
     = [(length (m_rotations self) + n)%nat; (length (m_positions self) + n)%nat;
        (length (m_twists self) + n)%nat;
        length (m_reference_rotations self); length (m_reference_positions self)].
Proof.
  intros Hgen n.
  destruct (generate_initial_values_inv _ _ Hgen) as (tw & r0 & p0 & Ht & Hr & Hp & ->).
  apply lookup_lt_Some in Ht, Hr, Hp.
  repeat split; try lia.
  unfold buffer_sizes, append_horizon. cbn.
  by rewrite !length_app, !length_fmap, length_rollout, length_replicate.
Qed.

(** [solve] never changes the problem size; it either leaves the buffer
    sizes alone (when it fails before the initial guess) or leaves them as
    the initial guess made them. *)
Lemma solve_sizes (self self' : Mpc) (r : Result unit) (trace : list Event) :
  solve self = (r, self', trace) ->
  m_problem_size self' = m_problem_size self
  /\ (((m_reference_path_set self = false
         \/ exists fl, generate_initial_values self = Fail fl)
        /\ r <> Ok tt /\ buffer_sizes self' = buffer_sizes self)
      \/ (exists seed, generate_initial_values self = Ok seed
                       /\ buffer_sizes self' = buffer_sizes seed)).
Proof.
  intros Hsolve.
  destruct (m_reference_path_set self) eqn:Hset.
  2:{ rewrite solve_unset in Hsolve by exact Hset.
      injection Hsolve as <- <- <-. split; [done|]. left. split; [by left|by split]. }
  destruct (generate_initial_values self) as [seed|fl] eqn:Hgen.
  2:{ unfold Control.solve in Hsolve. rewrite Hset, Hgen in Hsolve.
      injection Hsolve as <- <- <-. split; [done|]. left.
      split; [right; by exists fl|by split]. }
  destruct (generate_initial_values_sizes _ _ Hgen) as (HN & _).
  destruct (build_optimization_problem Problem_empty seed) as [[problem start]|fl] eqn:Hbuild.
  2:{ unfold Control.solve in Hsolve. rewrite Hset, Hgen, Hbuild in Hsolve.
      injection Hsolve as <- <- <-. split; [done|]. right. by exists seed. }
  destruct (solve_unfold _ _ _ _ Hset Hgen Hbuild) as (_ & _ & Heq).
  rewrite Heq in Hsolve. clear Heq.
  destruct (build_optimization_problem_inv _ _ _ _ Hbuild) as [ids Hstart].
  destruct (penalty_loop _ problem (mkLoopState 0 1%float start [])) as [fault st'] eqn:Hloop.
  apply (penalty_loop_preserves
           (fun s => buffer_sizes s = buffer_sizes seed
                     /\ m_problem_size s = m_problem_size self) problem) in Hloop.
  - destruct Hloop as [Hsz HN'].
    assert (loop_self st' = self') as <-.
    { destruct fault; [by injection Hsolve|].
      destruct (_ <=? _); by injection Hsolve. }
    split; [exact HN'|]. right. by exists seed.
  - intros st [Hsz HN']. destruct (penalty_step_sizes problem st) as [-> ->]. by split.
  - cbn. subst start. by split.
Qed.

Lemma reachable_buffers_wf (self : Mpc) : reachable self -> buffers_wf self.
Proof.
  induction 1 as [km options | path self r self' _ IH Hset | pose self _ IH
                  | twist self _ IH | self r self' trace _ IH Hsolve].
  - unfold buffers_wf. cbn. lia.
  - destruct (poses path) as [|p0 ps] eqn:Hp.
    + unfold Control.set_reference_path in Hset. rewrite Hp in Hset.
      cbn in Hset. by injection Hset as <- <-.
    + rewrite set_reference_path_unfold in Hset by (rewrite Hp; done).
      pose proof (int_of_size_le (length (poses path))) as Hle.
      destruct IH as (H1 & H2 & H3 & _ & _).
      destruct (negb (reserve_ok _)) eqn:Hres; injection Hset as <- <-;
        unfold buffers_wf; cbn.
      * unfold reserve_ok in Hres. apply negb_true_iff, Z.leb_gt in Hres.
        repeat split; try lia.
      * rewrite !length_fmap, !length_take. repeat split; lia.
  - destruct IH as (H1 & H2 & H3 & H4 & H5). unfold buffers_wf. cbn. repeat split; lia.
  - destruct IH as (H1 & H2 & H3 & H4 & H5). unfold buffers_wf. cbn. repeat split; lia.
  - destruct IH as (H1 & H2 & H3 & H4 & H5).
    destruct (solve_sizes _ _ _ _ Hsolve) as (HN & [(_ & _ & Hsz) | (seed & Hgen & Hsz)]).
    + unfold buffer_sizes in Hsz. unfold buffers_wf. rewrite HN.
      injection Hsz as -> -> -> -> ->. repeat split; lia.
    + destruct (generate_initial_values_sizes _ _ Hgen) as (_ & _ & _ & _ & _ & Hseed).
      rewrite Hseed in Hsz. unfold buffer_sizes in Hsz. unfold buffers_wf. rewrite HN.
      injection Hsz as -> -> -> -> ->. repeat split; lia.
Qed.

(** ** The sizes of the horizon buffers *)

(** X20. The constructor, [set_initial_pose] (rotations and positions) and
    [set_initial_twist] (twists) leave exactly the step-0 entry in the
    horizon buffers they write.  A [solve] that starts from a reachable state with a reference path of problem size
    N >= 1 and with exactly the step-0 entry in each horizon buffer leaves
    each horizon buffer, and each reference buffer, with exactly N entries. *)
Theorem solve_fills_horizon :
  (forall km options, buffer_sizes (Mpc_new km options) = [1; 1; 1; 0; 0]%nat)
  /\ (forall pose twist s,
        length (m_rotations (set_initial_twist twist (set_initial_pose pose s))) = 1%nat
        /\ length (m_positions (set_initial_twist twist (set_initial_pose pose s))) = 1%nat
        /\ length (m_twists (set_initial_twist twist (set_initial_pose pose s))) = 1%nat)
  /\ (forall self self' r trace,
        reachable self ->
        m_reference_path_set self = true ->
        1 <= m_problem_size self ->
        length (m_rotations self) = 1%nat ->
        length (m_positions self) = 1%nat ->
        length (m_twists self) = 1%nat ->
        solve self = (r, self', trace) ->
        let N := Z.to_nat (m_problem_size self') in
        buffer_sizes self' = [N; N; N; N; N]).
Proof.
  split; [reflexivity|]. split; [by repeat split|].
  intros self self' r trace Hreach Hset HN Hr Hp Ht Hsolve N.
  destruct (reachable_buffers_wf _ Hreach) as (_ & _ & _ & Hrr & Hrp).
  destruct (solve_sizes _ _ _ _ Hsolve) as (HN' & Hcases). subst N. rewrite HN'.
  destruct Hcases as [([Hflag | [fl Hfail]] & _) | (seed & Hgen & ->)].
  - congruence.
  - destruct (m_twists self) as [|tw ?] eqn:Etw; [done|].
    destruct (m_rotations self) as [|r0 ?] eqn:Er; [done|].
    destruct (m_positions self) as [|p0 ?] eqn:Ep; [done|].
    rewrite (generate_initial_values_unfold self tw r0 p0) in Hfail;
      [discriminate|by rewrite Etw|by rewrite Er|by rewrite Ep].
  - destruct (generate_initial_values_sizes _ _ Hgen) as (_ & _ & _ & _ & _ & ->).
    rewrite Hr, Hp, Ht, Hrr, Hrp.
    replace (1 + Z.to_nat (m_problem_size self - 1))%nat
      with (Z.to_nat (m_problem_size self)) by lia.
    reflexivity.
Qed.

(** ** [get_optimal_path] *)

Lemma get_optimal_path_loop (self : Mpc) (n k : nat) (path : Path) :
  (k + n <= length (m_rotations self))%nat ->
  (k + n <= length (m_positions self))%nat ->
  for_int n (Z.of_nat k)
    (fun i optimal_path =>
       rotation_i ← at_int (m_rotations self) i;
       position_i ← at_int (m_positions self) i;
       let pose :=
         mkPoseStamped Header_default
           (mkPose (mkPoint (v_x position_i) (v_y position_i) 0)
                   (to_quaternion rotation_i)) in
       Some (mkPath (path_header optimal_path) (poses optimal_path ++ [pose])))
    path
  = Some (mkPath (path_header path)
            (poses path
               ++ zip_with (stamped_pose_of to_quaternion)
                    (take n (drop k (m_rotations self)))
                    (take n (drop k (m_positions self))))).
Proof.
  revert k path. induction n as [|n IH]; intros k path Hr Hp.
  - cbn. rewrite app_nil_r. by destruct path.
  - cbn [for_int]. rewrite !at_int_of_nat.
    destruct (lookup_lt_is_Some_2 (m_rotations self) k ltac:(lia)) as [r Hlr].
    destruct (lookup_lt_is_Some_2 (m_positions self) k ltac:(lia)) as [p Hlp].
    rewrite Hlr, Hlp. cbn [mbind option_bind].
    replace (Z.of_nat k + 1) with (Z.of_nat (S k)) by lia.
    rewrite IH by lia.
    rewrite (drop_S _ _ _ Hlr), (drop_S _ _ _ Hlp).
    cbn [take zip_with path_header poses]. by rewrite <- app_assoc.
Qed.

Lemma get_optimal_path_loop_fails (self : Mpc) (n k : nat) (path : Path) :
  (Nat.min (length (m_rotations self)) (length (m_positions self)) < k + n)%nat ->
  (Nat.min (length (m_rotations self)) (length (m_positions self)) >= k)%nat ->
  for_int n (Z.of_nat k)
    (fun i optimal_path =>
       rotation_i ← at_int (m_rotations self) i;
       position_i ← at_int (m_positions self) i;
       let pose :=
         mkPoseStamped Header_default
           (mkPose (mkPoint (v_x position_i) (v_y position_i) 0)
                   (to_quaternion rotation_i)) in
       Some (mkPath (path_header optimal_path) (poses optimal_path ++ [pose])))
    path
  = None.
Proof.
  revert k path. induction n as [|n IH]; intros k path Hlt Hge; [lia|].
  cbn [for_int]. rewrite !at_int_of_nat.
  destruct (m_rotations self !! k) as [r|] eqn:Hlr; [|reflexivity].
  destruct (m_positions self !! k) as [p|] eqn:Hlp; [|reflexivity].
  cbn [mbind option_bind].
  apply lookup_lt_Some in Hlr, Hlp.
  replace (Z.of_nat k + 1) with (Z.of_nat (S k)) by lia.
  apply IH; lia.
Qed.

(** C10, as the code has it.  Whenever the rotation and position buffers hold
    at least problem-size entries, [get_optimal_path] returns a path whose
    header names the frame "map" and whose poses are exactly the first
    problem-size entries of the horizon, in order.  When a buffer is shorter
    than the problem size it reads past its end.  The buffers are long enough
    in the state a [solve] that returned normally leaves behind. *)
Theorem get_optimal_path_spec :
  (forall self,
     let N := Z.to_nat (m_problem_size self) in
     ((N <= length (m_rotations self))%nat ->
      (N <= length (m_positions self))%nat ->
      exists path,
        get_optimal_path self = Ok path
        /\ frame_id (path_header path) = "map"
        /\ length (poses path) = N
        /\ forall i, (i < N)%nat ->
             exists r p,
               m_rotations self !! i = Some r
               /\ m_positions self !! i = Some p
               /\ poses path !! i = Some (stamped_pose_of to_quaternion r p))
     /\ ((Nat.min (length (m_rotations self)) (length (m_positions self)) < N)%nat ->
         get_optimal_path self = Fail OutOfRange))
  /\ (forall self self' trace,
        solve self = (Ok tt, self', trace) ->
        (Z.to_nat (m_problem_size self') <= length (m_rotations self'))%nat
        /\ (Z.to_nat (m_problem_size self') <= length (m_positions self'))%nat).
Proof.
  split.
  - intros self N. split.
    + intros Hr Hp. eexists. split.
      { unfold Control.get_optimal_path. rewrite for_range_unfold, Z.sub_0_r.
        change 0 with (Z.of_nat 0). fold N.
        rewrite get_optimal_path_loop by (cbn; lia). reflexivity. }
      rewrite !drop_0. cbn [path_header poses frame_id app].
      split; [reflexivity|]. split.
      { rewrite length_zip_with, !length_take. lia. }
      intros i Hi.
      destruct (lookup_lt_is_Some_2 (m_rotations self) i ltac:(lia)) as [r Hlr].
      destruct (lookup_lt_is_Some_2 (m_positions self) i ltac:(lia)) as [p Hlp].
      exists r, p. split; [exact Hlr|]. split; [exact Hlp|].
      rewrite lookup_zip_with, !lookup_take_lt, Hlr, Hlp by lia. reflexivity.
    + intros Hshort. unfold Control.get_optimal_path.
      rewrite for_range_unfold, Z.sub_0_r. change 0 with (Z.of_nat 0). fold N.
      rewrite get_optimal_path_loop_fails by (cbn; lia). reflexivity.
  - intros self self' trace Hsolve.
    destruct (solve_sizes _ _ _ _ Hsolve) as (HN & [(_ & Hne & _) | (seed & Hgen & Hsz)]);
      [done|].
    destruct (generate_initial_values_sizes _ _ Hgen) as (_ & _ & Hr & Hp & _ & Hseed).
    rewrite Hseed in Hsz. unfold buffer_sizes in Hsz.
    injection Hsz as -> -> _ _ _. rewrite HN. lia.
Qed.

(** ** The lateral velocity *)

Lemma data_at_buffer {A : Type} (b : Buffer) (v : list A) (i : Z) (a : Address) :
  data_at b v i = Some a -> a.1 = b.
Proof.
  unfold data_at. destruct (at_int v i); cbn; [|discriminate].
  by intros [= <-].
Qed.

Lemma build_step_diffdrive (i : Z) (st st' : Problem * Mpc) :
  twist_blocks_diffdrive st.1 -> build_step i st = Some st' ->
  twist_blocks_diffdrive st'.1.
Proof.
  destruct st as [problem self]. cbn [fst]. intros Hinv Hstep.
  unfold build_step in Hstep.
  destruct (data_at Rotations (m_rotations self) i) as [a1|] eqn:E1; [|discriminate].
  destruct (data_at Positions (m_positions self) i) as [a2|] eqn:E2; [|discriminate].
  destruct (data_at ReferenceRotations (m_reference_rotations self) i) as [a3|] eqn:E3;
    [|discriminate].
  destruct (data_at ReferencePositions (m_reference_positions self) i) as [a4|] eqn:E4;
    [|discriminate].
  destruct (data_at Twists (m_twists self) i) as [a5|] eqn:E5; [|discriminate].
  cbn [mbind option_bind] in Hstep.
  destruct (data_at Rotations (m_rotations self) (i - 1)); [|discriminate].
  destruct (data_at Positions (m_positions self) (i - 1)); [|discriminate].
  destruct (data_at Twists (m_twists self) (i - 1)); [|discriminate].
  cbn in Hstep. injection Hstep as <-. cbn [fst parameter_blocks].
  apply data_at_buffer in E1, E2, E3, E4, E5.
  intros b Hb Hbuf.
  repeat (apply elem_of_app in Hb as [Hb | Hb]);
    [by apply Hinv | | | | | ];
    apply list_elem_of_singleton in Hb; subst b;
    cbn [block_address block_parameterization] in *;
    first [reflexivity | congruence].
Qed.

Lemma build_optimization_problem_diffdrive (problem : Problem) (seed start : Mpc) :
  build_optimization_problem Problem_empty seed = Ok (problem, start) ->
  twist_blocks_diffdrive problem.
Proof.
  unfold build_optimization_problem. intros Hbuild.
  destruct (data_at Rotations (m_rotations seed) 0) as [a1|] eqn:E1; [|discriminate].
  destruct (data_at Positions (m_positions seed) 0) as [a2|] eqn:E2; [|discriminate].
  destruct (data_at Twists (m_twists seed) 0) as [a3|] eqn:E3; [|discriminate].
  cbn [mbind option_bind] in Hbuild.
  match type of Hbuild with
  | context [for_range ?lo ?hi ?body ?s] =>
      destruct (for_range lo hi body s) as [[p s']|] eqn:Hloop
  end; [|discriminate].
  injection Hbuild as -> ->.
  apply (for_int_invariant (fun st => twist_blocks_diffdrive st.1)
           build_step build_step_diffdrive _ _ _ _) in Hloop; [exact Hloop|].
  cbn [fst]. apply data_at_buffer in E1, E2, E3.
  intros b Hb Hbuf. cbn in Hb.
  repeat (apply elem_of_cons in Hb as [Hb | Hb]);
    try (subst b; cbn [block_address block_parameterization] in *;
         first [reflexivity | congruence]).
  by apply elem_of_nil in Hb.
Qed.

(** An engine that respects a problem whose twist blocks are differential
    drive leaves the lateral component of every twist as it was. *)
Lemma respects_keeps_lateral (problem : Problem) (m m' : Memory) (i : nat) (t' : Vector3d) :
  respects problem m m' ->
  twist_blocks_diffdrive problem ->
  mem_twists m' !! i = Some t' ->
  exists t, mem_twists m !! i = Some t /\ e2 t' = e2 t.
Proof.
  intros Hres Hdd Ht'.
  assert (Hlt : (i < length (mem_twists m))%nat).
  { rewrite <- (keeps_twists_size _ _ _ Hres). by eapply lookup_lt_Some. }
  destruct (lookup_lt_is_Some_2 _ _ Hlt) as [t Ht].
  exists t. split; [exact Ht|].
  destruct (is_free problem (Twists, i)) eqn:Hfree.
  - assert (Hheld : is_held problem (Twists, i) 2 = true).
    { unfold is_free in Hfree. apply andb_true_iff in Hfree as [Hin _].
      apply bool_decide_eq_true in Hin.
      apply list_elem_of_fmap in Hin as (b & Hb & Hin).
      unfold is_held. apply existsb_exists. exists b.
      split; [by apply list_elem_of_In|].
      unfold holds_component.
      rewrite (Hdd b Hin) by (by rewrite <- Hb).
      apply andb_true_iff. split; apply bool_decide_eq_true; [done|].
      apply list_elem_of_singleton. reflexivity. }
    pose proof (keeps_held_components _ _ _ Hres _ _ Hheld) as Heq.
    unfold read in Heq. cbn [fst snd] in Heq. rewrite Ht, Ht' in Heq.
    cbn in Heq. by injection Heq.
  - pose proof (keeps_other_blocks _ _ _ Hres _ Hfree) as Heq.
    unfold read in Heq. cbn [fst snd] in Heq. rewrite Ht, Ht' in Heq.
    cbn in Heq. by injection Heq.
Qed.

Lemma penalty_step_keeps_lateral (c : Q) (problem : Problem) (st : LoopState) :
  twist_blocks_diffdrive problem ->
  lateral_is c (loop_self st) ->
  lateral_is c (loop_self (penalty_step problem st).1).
Proof.
  intros Hdd Hlat t' Hin.
  unfold Control.penalty_step in Hin. cbn [fst loop_self] in Hin.
  set (s1 := set_constraint_penalty_coefficient_handle _ _) in Hin.
  pose proof (Solve_respects problem (losses_of s1) (memory_of s1)) as Hres.
  change (m_twists (store_memory ?m s1)) with (mem_twists m) in Hin.
  apply list_elem_of_lookup in Hin as [i Hi].
  destruct (respects_keeps_lateral _ _ _ _ _ Hres Hdd Hi) as (t & Ht & ->).
  apply Hlat. eapply list_elem_of_lookup_2. exact Ht.
Qed.

(** Whatever [solve] does, a lateral velocity shared by all twists stays. *)
Lemma solve_keeps_lateral (c : Q) (self self' : Mpc) (r : Result unit)
    (trace : list Event) :
  lateral_is c self ->
  solve self = (r, self', trace) ->
  lateral_is c self'.
Proof.
  intros Hlat Hsolve.
  destruct (m_reference_path_set self) eqn:Hset.
  2:{ rewrite solve_unset in Hsolve by exact Hset.
      by injection Hsolve as <- <- <-. }
  destruct (generate_initial_values self) as [seed|fl] eqn:Hgen.
  2:{ unfold Control.solve in Hsolve. rewrite Hset, Hgen in Hsolve.
      by injection Hsolve as <- <- <-. }
  assert (Hseed : lateral_is c seed).
  { destruct (generate_initial_values_inv _ _ Hgen) as (tw & r0 & p0 & Ht & _ & _ & ->).
    intros t Hin. unfold append_horizon in Hin. cbn in Hin.
    apply elem_of_app in Hin as [Hin | Hin]; [by apply Hlat|].
    apply elem_of_replicate in Hin as [-> _].
    apply Hlat. eapply list_elem_of_lookup_2. exact Ht. }
  destruct (build_optimization_problem Problem_empty seed) as [[problem start]|fl] eqn:Hbuild.
  2:{ unfold Control.solve in Hsolve. rewrite Hset, Hgen, Hbuild in Hsolve.
      by injection Hsolve as <- <- <-. }
  destruct (solve_unfold _ _ _ _ Hset Hgen Hbuild) as (_ & _ & Heq).
  rewrite Heq in Hsolve. clear Heq.
  destruct (build_optimization_problem_inv _ _ _ _ Hbuild) as [ids Hstart].
  pose proof (build_optimization_problem_diffdrive _ _ _ Hbuild) as Hdd.
  destruct (penalty_loop _ problem (mkLoopState 0 1%float start [])) as [fault st'] eqn:Hloop.
  apply (penalty_loop_preserves (lateral_is c) problem) in Hloop.
  - assert (loop_self st' = self') as <-.
    { destruct fault; [by injection Hsolve|].
      destruct (_ <=? _); by injection Hsolve. }
    exact Hloop.
  - intros st. by apply penalty_step_keeps_lateral.
  - cbn. by subst start.
Qed.

(** C7, as the code has it.  [set_initial_twist] stores the supplied lateral
    velocity unchanged as the third component of the step-0 twist; it is not
    set to zero.  Initial-guess generation copies it to every step and the
    optimization holds it fixed, so after [solve], however it ends, every
    twist in the horizon carries the supplied lateral velocity. *)
Theorem lateral_velocity_is_kept (twist : TwistStamped) (self : Mpc) :
  let lateral := vy (linear (ts_twist twist)) in
  m_twists (set_initial_twist twist self)
  = [mkVector3d (vz (angular (ts_twist twist))) (vx (linear (ts_twist twist))) lateral]
  /\ (forall seed,
        generate_initial_values (set_initial_twist twist self) = Ok seed ->
        lateral_is lateral seed)
  /\ (forall r self' trace,
        solve (set_initial_twist twist self) = (r, self', trace) ->
        lateral_is lateral self').
Proof.
  intros lateral.
  assert (Hstart : lateral_is lateral (set_initial_twist twist self)).
  { intros t Hin. cbn in Hin. apply list_elem_of_singleton in Hin. by subst t. }
  split; [reflexivity|]. split.
  - intros seed Hgen.
    destruct (generate_initial_values_inv _ _ Hgen) as (tw & r0 & p0 & Ht & _ & _ & ->).
    intros t Hin. unfold append_horizon in Hin. cbn in Hin.
    cbn in Ht. injection Ht as <-.
    apply elem_of_cons in Hin as [-> | Hin]; [reflexivity|].
    by apply elem_of_replicate in Hin as [-> _].
  - intros r self' trace Hsolve. by eapply solve_keeps_lateral.
Qed.

(** * Further properties of the optimizer *)

(** ** What no operation changes *)

Lemma set_reference_path_configuration (path : Path) (self : Mpc) :
  configuration (set_reference_path path self).2 = configuration self.
Proof.
  destruct (poses path) as [|p0 ps] eqn:Hp.
  - unfold Control.set_reference_path. by rewrite Hp.
  - rewrite set_reference_path_unfold by (by rewrite Hp).
    by destruct (negb (reserve_ok _)).
Qed.

Lemma solve_configuration (self self' : Mpc) (r : Result unit) (trace : list Event) :
  solve self = (r, self', trace) -> configuration self' = configuration self.
Proof.
  intros Hsolve.
  destruct (m_reference_path_set self) eqn:Hset.
  2:{ rewrite solve_unset in Hsolve by exact Hset. by injection Hsolve as <- <- <-. }
  destruct (generate_initial_values self) as [seed|fl] eqn:Hgen.
  2:{ unfold Control.solve in Hsolve. rewrite Hset, Hgen in Hsolve.
      by injection Hsolve as <- <- <-. }
  assert (Hseed : configuration seed = configuration self).
  { by destruct (generate_initial_values_inv _ _ Hgen) as (? & ? & ? & _ & _ & _ & ->). }
  destruct (build_optimization_problem Problem_empty seed) as [[problem start]|fl] eqn:Hbuild.
  2:{ unfold Control.solve in Hsolve. rewrite Hset, Hgen, Hbuild in Hsolve.
      by injection Hsolve as <- <- <-. }
  destruct (solve_unfold _ _ _ _ Hset Hgen Hbuild) as (_ & _ & Heq).
  rewrite Heq in Hsolve. clear Heq.
  destruct (build_optimization_problem_inv _ _ _ _ Hbuild) as [ids Hstart].
  destruct (penalty_loop _ problem (mkLoopState 0 1%float start [])) as [fault st'] eqn:Hloop.
  apply (penalty_loop_preserves
           (fun s => configuration s = configuration self) problem) in Hloop.
  - assert (loop_self st' = self') as <-.
    { destruct fault; [by injection Hsolve|].
      destruct (_ <=? _); by injection Hsolve. }
    exact Hloop.
  - intros st Hst. rewrite <- Hst. reflexivity.
  - cbn. by subst start.
Qed.

(** X1. The kinematic model, the options and the two fixed loss functions of
    an optimizer are those its constructor received: no public operation
    changes them, and in every reachable state the reference and velocity
    losses scale by the factors of the options. *)
Theorem configuration_is_fixed :
  (forall km options,
     configuration (Mpc_new km options)
     = (km, options, mkScaledLoss (reference_loss_factor options),
        mkScaledLoss (velocity_loss_factor options)))
  /\ (forall path self, configuration (set_reference_path path self).2 = configuration self)
  /\ (forall pose self, configuration (set_initial_pose pose self) = configuration self)
  /\ (forall twist self, configuration (set_initial_twist twist self) = configuration self)
  /\ (forall self r self' trace,
        solve self = (r, self', trace) -> configuration self' = configuration self)
  /\ (forall self,
        reachable self ->
        m_reference_loss_function self
        = mkScaledLoss (reference_loss_factor (m_options self))
        /\ m_velocity_loss_function self
           = mkScaledLoss (velocity_loss_factor (m_options self))).
Proof.
  split; [reflexivity|].
  split; [apply set_reference_path_configuration|].
  split; [intros pose self; by destruct self|].
  split; [intros twist self; by destruct self|].
  split; [intros; by eapply solve_configuration|].
  assert (Hcfg : forall s s', configuration s' = configuration s ->
            m_reference_loss_function s = mkScaledLoss (reference_loss_factor (m_options s))
            /\ m_velocity_loss_function s = mkScaledLoss (velocity_loss_factor (m_options s)) ->
            m_reference_loss_function s' = mkScaledLoss (reference_loss_factor (m_options s'))
            /\ m_velocity_loss_function s' = mkScaledLoss (velocity_loss_factor (m_options s'))).
  { intros s s' Heq [H1 H2]. unfold configuration in Heq. split; congruence. }
  induction 1 as [km options | path self r self' _ IH Hset | pose self _ IH
                  | twist self _ IH | self r self' trace _ IH Hsolve].
  - by split.
  - apply (Hcfg self); [|exact IH].
    pose proof (set_reference_path_configuration path self) as Hc.
    by rewrite Hset in Hc.
  - apply (Hcfg self); [by destruct self|exact IH].
  - apply (Hcfg self); [by destruct self|exact IH].
  - apply (Hcfg self); [|exact IH]. by eapply solve_configuration.
Qed.

(** ** [solve] stays within its buffers *)

Lemma is_feasible_from_fault (problem : Problem) (self : Mpc)
    (ids : list ResidualBlockId) (f : Fault) :
  is_feasible_from EvaluateResidualBlock problem self ids = Fail f ->
  f = AssertionFailed
        "Could not evaluate feasibility of kinematic constraint residual block!".
Proof.
  induction ids as [|id ids IH]; cbn; [discriminate|].
  destruct (EvaluateResidualBlock problem (memory_of self) id) as [cost|];
    [|by intros [= <-]].
  destruct (Qgtb cost (max_constraint_cost (m_options self))); [discriminate|exact IH].
Qed.

Lemma penalty_loop_fault (problem : Problem) (fuel : nat) (st st' : LoopState) (f : Fault) :
  penalty_loop fuel problem st = (Some f, st') ->
  f = AssertionFailed
        "Could not evaluate feasibility of kinematic constraint residual block!".
Proof.
  revert st. induction fuel as [|fuel IH]; intros st Hrun;
    cbn [Control.penalty_loop] in Hrun; [discriminate|].
  destruct (iteration st <? max_penalty_iterations (m_options (loop_self st)));
    [|discriminate].
  destruct (Control.penalty_step ceres_Solve EvaluateResidualBlock problem st)
    as [st1 v] eqn:Hstep.
  destruct v as [[|]|fl].
  - discriminate.
  - by apply IH in Hrun.
  - injection Hrun as <- _.
    assert (Hfeas : (penalty_step problem st).2 = Fail fl) by (by rewrite Hstep).
    cbn [Control.penalty_step snd] in Hfeas.
    by apply is_feasible_from_fault in Hfeas.
Qed.

Lemma generate_initial_values_lengths (self seed : Mpc) :
  generate_initial_values self = Ok seed ->
  let n := Z.to_nat (m_problem_size self - 1) in
  m_problem_size seed = m_problem_size self
  /\ length (m_rotations seed) = (length (m_rotations self) + n)%nat
  /\ length (m_positions seed) = (length (m_positions self) + n)%nat
  /\ length (m_twists seed) = (length (m_twists self) + n)%nat
  /\ length (m_reference_rotations seed) = length (m_reference_rotations self)
  /\ length (m_reference_positions seed) = length (m_reference_positions self).
Proof.
  intros Hgen n.
  destruct (generate_initial_values_inv _ _ Hgen) as (tw & r0 & p0 & _ & _ & _ & ->).
  unfold append_horizon. cbn.
  rewrite !length_app, !length_fmap, length_rollout, length_replicate. by repeat split.
Qed.

(** X2. In every state a client can reach, [solve] never indexes a buffer
    out of range: it returns normally, or throws because no reference path is
    set (and only then), or stops on the assertion that a residual block
    could not be evaluated. *)
Theorem solve_stays_in_range (self self' : Mpc) (r : Result unit) (trace : list Event) :
  reachable self ->
  solve self = (r, self', trace) ->
  r <> Fail OutOfRange
  /\ (r = Fail (Thrown error_text) <-> m_reference_path_set self = false)
  /\ (r = Ok tt
      \/ r = Fail (Thrown error_text)
      \/ r = Fail (AssertionFailed
                     "Could not evaluate feasibility of kinematic constraint residual block!")).
Proof.
  intros Hreach Hsolve.
  destruct (reachable_buffers_wf _ Hreach) as (Hr & Hp & Ht & Hrr & Hrp).
  destruct (m_reference_path_set self) eqn:Hset.
  2:{ rewrite solve_unset in Hsolve by exact Hset. injection Hsolve as <- <- <-.
      split; [discriminate|]. split; [done|]. right. by left. }
  destruct (lookup_lt_is_Some_2 (m_twists self) 0 ltac:(lia)) as [tw Htw].
  destruct (lookup_lt_is_Some_2 (m_rotations self) 0 ltac:(lia)) as [r0 Hr0].
  destruct (lookup_lt_is_Some_2 (m_positions self) 0 ltac:(lia)) as [p0 Hp0].
  pose proof (generate_initial_values_unfold self tw r0 p0 Htw Hr0 Hp0) as Hgen.
  destruct (generate_initial_values_lengths _ _ Hgen) as (HN & H1 & H2 & H3 & H4 & H5).
  set (seed := append_horizon _ _ self) in *.
  assert (Hbounds : build_in_bounds seed).
  { unfold build_in_bounds. rewrite HN, H1, H2, H3, H4, H5, Hrr, Hrp.
    repeat split; lia. }
  pose proof (build_optimization_problem_unfold seed Hbounds) as Hbuild.
  cbn zeta in Hbuild.
  destruct (solve_unfold _ _ _ _ Hset Hgen Hbuild) as (_ & _ & Heq).
  rewrite Heq in Hsolve. clear Heq.
  match type of Hsolve with
  | context [Control.penalty_loop ?a ?b ?c ?d ?e] =>
      destruct (Control.penalty_loop a b c d e) as [[f|] st'] eqn:Hloop
  end.
  - apply penalty_loop_fault in Hloop. injection Hsolve as <- _ _. subst f.
    split; [discriminate|]. split; [split; discriminate|]. right. by right.
  - assert (r = Ok tt) as -> by (destruct (_ <=? _); by injection Hsolve).
    split; [discriminate|]. split; [split; discriminate|]. by left.
Qed.

(** ** What the optimization never touches *)

Lemma data_at_inv {A : Type} (b : Buffer) (v : list A) (i : Z) (a : Address) :
  data_at b v i = Some a -> a = (b, Z.to_nat i).
Proof.
  unfold data_at. destruct (at_int v i); cbn; [|discriminate].
  by intros [= <-].
Qed.

Lemma build_step_constants (i : Z) (st st' : Problem * Mpc) :
  step_0_constant st.1 /\ reference_blocks_constant st.1 ->
  build_step i st = Some st' ->
  step_0_constant st'.1 /\ reference_blocks_constant st'.1.
Proof.
  destruct st as [problem self]. cbn [fst]. intros [H0 Href] Hstep.
  unfold build_step in Hstep.
  destruct (data_at Rotations (m_rotations self) i) as [a1|] eqn:E1; [|discriminate].
  destruct (data_at Positions (m_positions self) i) as [a2|] eqn:E2; [|discriminate].
  destruct (data_at ReferenceRotations (m_reference_rotations self) i) as [a3|] eqn:E3;
    [|discriminate].
  destruct (data_at ReferencePositions (m_reference_positions self) i) as [a4|] eqn:E4;
    [|discriminate].
  destruct (data_at Twists (m_twists self) i) as [a5|] eqn:E5; [|discriminate].
  cbn [mbind option_bind] in Hstep.
  destruct (data_at Rotations (m_rotations self) (i - 1)); [|discriminate].
  destruct (data_at Positions (m_positions self) (i - 1)); [|discriminate].
  destruct (data_at Twists (m_twists self) (i - 1)); [|discriminate].
  cbn in Hstep. injection Hstep as <-. cbn [fst parameter_blocks constant_blocks].
  apply data_at_buffer in E1, E2, E5.
  split.
  - intros x Hx. apply elem_of_app. left. apply elem_of_app. left. by apply H0.
  - intros b Hb Hbuf.
    repeat (apply elem_of_app in Hb as [Hb | Hb]).
    + apply elem_of_app. left. apply elem_of_app. left. by apply Href.
    + apply list_elem_of_singleton in Hb. subst b. cbn [block_address] in Hbuf.
      destruct Hbuf; congruence.
    + apply list_elem_of_singleton in Hb. subst b. cbn [block_address] in Hbuf.
      destruct Hbuf; congruence.
    + apply list_elem_of_singleton in Hb. subst b. cbn [block_address].
      apply elem_of_app. left. apply elem_of_app. right. by apply list_elem_of_singleton.
    + apply list_elem_of_singleton in Hb. subst b. cbn [block_address].
      apply elem_of_app. right. by apply list_elem_of_singleton.
    + apply list_elem_of_singleton in Hb. subst b. cbn [block_address] in Hbuf.
      destruct Hbuf; congruence.
Qed.

Lemma build_optimization_problem_constants (problem : Problem) (seed start : Mpc) :
  build_optimization_problem Problem_empty seed = Ok (problem, start) ->
  step_0_constant problem /\ reference_blocks_constant problem.
Proof.
  unfold build_optimization_problem. intros Hbuild.
  destruct (data_at Rotations (m_rotations seed) 0) as [a1|] eqn:E1; [|discriminate].
  destruct (data_at Positions (m_positions seed) 0) as [a2|] eqn:E2; [|discriminate].
  destruct (data_at Twists (m_twists seed) 0) as [a3|] eqn:E3; [|discriminate].
  cbn [mbind option_bind] in Hbuild.
  match type of Hbuild with
  | context [for_range ?lo ?hi ?body ?s] =>
      destruct (for_range lo hi body s) as [[p s']|] eqn:Hloop
  end; [|discriminate].
  injection Hbuild as -> ->.
  apply (for_int_invariant
           (fun st => step_0_constant st.1 /\ reference_blocks_constant st.1)
           build_step build_step_constants _ _ _ _) in Hloop; [exact Hloop|].
  cbn [fst]. apply data_at_inv in E1, E2, E3. subst a1 a2 a3. split.
  - intros a Ha. exact Ha.
  - intros b Hb Hbuf. cbn in Hb.
    repeat (apply elem_of_cons in Hb as [Hb | Hb]);
      try (subst b; cbn [block_address] in Hbuf; destruct Hbuf; discriminate).
    by apply elem_of_nil in Hb.
Qed.

Lemma not_free_constant (problem : Problem) (a : Address) :
  a ∈ constant_blocks problem -> is_free problem a = false.
Proof.
  intros Ha. unfold is_free. apply andb_false_iff. right.
  by apply negb_false_iff, bool_decide_eq_true.
Qed.

Lemma not_free_reference (problem : Problem) (a : Address) :
  reference_blocks_constant problem ->
  a.1 = ReferenceRotations \/ a.1 = ReferencePositions ->
  is_free problem a = false.
Proof.
  intros Href Hbuf.
  destruct (bool_decide (a ∈ block_address <$> parameter_blocks problem)) eqn:Hin.
  - apply bool_decide_eq_true in Hin.
    apply list_elem_of_fmap in Hin as (b & -> & Hb).
    apply not_free_constant. by apply Href.
  - unfold is_free. by rewrite Hin.
Qed.

Lemma Matrix2d_data_inj (a b : Matrix2d) : Matrix2d_data a = Matrix2d_data b -> a = b.
Proof. destruct a, b. unfold Matrix2d_data. cbn. by intros [= -> -> -> ->]. Qed.

Lemma Vector2d_data_inj (a b : Vector2d) : Vector2d_data a = Vector2d_data b -> a = b.
Proof. destruct a, b. unfold Vector2d_data. cbn. by intros [= -> ->]. Qed.

Lemma Vector3d_data_inj (a b : Vector3d) : Vector3d_data a = Vector3d_data b -> a = b.
Proof. destruct a, b. unfold Vector3d_data. cbn. by intros [= -> -> ->]. Qed.

Lemma fmap_option_inj {A B : Type} (f : A -> B) (x y : option A) :
  (forall a b, f a = f b -> a = b) -> f <$> x = f <$> y -> x = y.
Proof.
  intros Hinj. destruct x, y; cbn; try discriminate; [|done].
  intros [= H]. f_equal. by apply Hinj.
Qed.

(** An engine that respects a problem leaves the reference buffers and the
    step-0 entries of the horizon as they were, when the problem declares them
    constant. *)
Lemma respects_keeps_reference (problem : Problem) (m m' : Memory) :
  respects problem m m' ->
  reference_blocks_constant problem ->
  mem_reference_rotations m' = mem_reference_rotations m
  /\ mem_reference_positions m' = mem_reference_positions m.
Proof.
  intros Hres Href. split; apply list_eq; intros i.
  - pose proof (keeps_other_blocks _ _ _ Hres (ReferenceRotations, i)
                  (not_free_reference _ (ReferenceRotations, i) Href
                     (or_introl eq_refl))) as Heq.
    unfold read in Heq. cbn [fst snd] in Heq.
    by apply (fmap_option_inj _ _ _ Matrix2d_data_inj).
  - pose proof (keeps_other_blocks _ _ _ Hres (ReferencePositions, i)
                  (not_free_reference _ (ReferencePositions, i) Href
                     (or_intror eq_refl))) as Heq.
    unfold read in Heq. cbn [fst snd] in Heq.
    by apply (fmap_option_inj _ _ _ Vector2d_data_inj).
Qed.

Lemma respects_keeps_step_0 (problem : Problem) (m m' : Memory) :
  respects problem m m' ->
  step_0_constant problem ->
  mem_rotations m' !! 0%nat = mem_rotations m !! 0%nat
  /\ mem_positions m' !! 0%nat = mem_positions m !! 0%nat
  /\ mem_twists m' !! 0%nat = mem_twists m !! 0%nat.
Proof.
  intros Hres H0.
  assert (Hfree : forall a, a ∈ initial_constant_blocks -> read m' a = read m a).
  { intros a Ha. apply (keeps_other_blocks _ _ _ Hres). apply not_free_constant.
    by apply H0. }
  split; [|split].
  - pose proof (Hfree (Rotations, 0%nat) ltac:(unfold initial_constant_blocks; repeat constructor))
      as Heq.
    by apply (fmap_option_inj _ _ _ Matrix2d_data_inj).
  - pose proof (Hfree (Positions, 0%nat) ltac:(unfold initial_constant_blocks; repeat constructor))
      as Heq.
    by apply (fmap_option_inj _ _ _ Vector2d_data_inj).
  - pose proof (Hfree (Twists, 0%nat) ltac:(unfold initial_constant_blocks; repeat constructor))
      as Heq.
    by apply (fmap_option_inj _ _ _ Vector3d_data_inj).
Qed.

Lemma penalty_step_keeps_constants (problem : Problem) (st : LoopState) :
  step_0_constant problem -> reference_blocks_constant problem ->
  step_0 (loop_self (penalty_step problem st).1) = step_0 (loop_self st)
  /\ reference_of (loop_self (penalty_step problem st).1) = reference_of (loop_self st).
Proof.
  intros H0 Href.
  unfold Control.penalty_step. cbn [fst loop_self].
  set (s1 := set_constraint_penalty_coefficient_handle _ _).
  pose proof (Solve_respects problem (losses_of s1) (memory_of s1)) as Hres.
  destruct (respects_keeps_reference _ _ _ Hres Href) as [Hr Hp].
  destruct (respects_keeps_step_0 _ _ _ Hres H0) as (H1 & H2 & H3).
  remember (ceres_Solve problem (losses_of s1) (memory_of s1)) as m' eqn:Hm'. clear Hm'.
  unfold step_0, reference_of. cbn in *. by rewrite Hr, Hp, H1, H2, H3.
Qed.

(** X3 and X4 share this: what [solve] leaves of step 0 and of the reference. *)
Lemma solve_keeps_constants (self self' : Mpc) (r : Result unit) (trace : list Event) :
  solve self = (r, self', trace) ->
  step_0 self' = step_0 self /\ reference_of self' = reference_of self.
Proof.
  intros Hsolve.
  destruct (m_reference_path_set self) eqn:Hset.
  2:{ rewrite solve_unset in Hsolve by exact Hset. by injection Hsolve as <- <- <-. }
  destruct (generate_initial_values self) as [seed|fl] eqn:Hgen.
  2:{ unfold Control.solve in Hsolve. rewrite Hset, Hgen in Hsolve.
      by injection Hsolve as <- <- <-. }
  assert (Hseed : step_0 seed = step_0 self /\ reference_of seed = reference_of self).
  { destruct (generate_initial_values_inv _ _ Hgen) as (tw & r0 & p0 & Ht & Hr & Hp & ->).
    split; [|reflexivity].
    unfold step_0, append_horizon. cbn.
    rewrite !lookup_app_l by (by eapply lookup_lt_Some). reflexivity. }
  destruct (build_optimization_problem Problem_empty seed) as [[problem start]|fl] eqn:Hbuild.
  2:{ unfold Control.solve in Hsolve. rewrite Hset, Hgen, Hbuild in Hsolve.
      by injection Hsolve as <- <- <-. }
  destruct (solve_unfold _ _ _ _ Hset Hgen Hbuild) as (_ & _ & Heq).
  rewrite Heq in Hsolve. clear Heq.
  destruct (build_optimization_problem_inv _ _ _ _ Hbuild) as [ids Hstart].
  destruct (build_optimization_problem_constants _ _ _ Hbuild) as [H0 Href].
  destruct (penalty_loop _ problem (mkLoopState 0 1%float start [])) as [fault st'] eqn:Hloop.
  apply (penalty_loop_preserves
           (fun s => step_0 s = step_0 self /\ reference_of s = reference_of self)
           problem) in Hloop.
  - assert (loop_self st' = self') as <-.
    { destruct fault; [by injection Hsolve|].
      destruct (_ <=? _); by injection Hsolve. }
    exact Hloop.
  - intros st [Hs Hr].
    destruct (penalty_step_keeps_constants problem st H0 Href) as [-> ->]. by split.
  - cbn. by subst start.
Qed.

(** X3. [solve] never changes the reference trajectory: whatever the outcome,
    both reference buffers are afterwards what they were before. *)
Theorem solve_keeps_reference (self self' : Mpc) (r : Result unit) (trace : list Event) :
  solve self = (r, self', trace) ->
  m_reference_rotations self' = m_reference_rotations self
  /\ m_reference_positions self' = m_reference_positions self.
Proof.
  intros Hsolve. destruct (solve_keeps_constants _ _ _ _ Hsolve) as [_ Href].
  unfold reference_of in Href. by injection Href as -> ->.
Qed.

(** X4. [solve] never changes step 0 of the horizon: the first rotation,
    position and twist are afterwards what they were before, so the initial
    state set by [set_initial_pose] and [set_initial_twist] survives the
    optimization. *)
Theorem solve_keeps_initial_state (pose : PoseStamped) (twist : TwistStamped)
    (self self' : Mpc) (r : Result unit) (trace : list Event) :
  (forall s s' r' t, solve s = (r', s', t) -> step_0 s' = step_0 s)
  /\ (solve (set_initial_twist twist (set_initial_pose pose self)) = (r, self', trace) ->
      m_rotations self' !! 0%nat = Some (from_quaternion (pose_orientation (ps_pose pose)))
      /\ m_positions self' !! 0%nat = Some (point_of pose)
      /\ m_twists self' !! 0%nat = Some (twist_of_msg twist)).
Proof.
  split.
  - intros s s' r' t Hs. by destruct (solve_keeps_constants _ _ _ _ Hs).
  - intros Hsolve. destruct (solve_keeps_constants _ _ _ _ Hsolve) as [H0 _].
    unfold step_0 in H0. by injection H0 as -> -> ->.
Qed.

(** ** The trace of [solve] *)

(** X5. Whatever happens in [solve], its trace is the events of n engine
    invocations, each followed by one brief report, with n at most
    max_penalty_iterations, the j-th invocation made while the penalty handle
    holds the scale 1 multiplied j-1 times by the growth factor (binary64
    products, each rounded), and then nothing, the feasibility message naming
    iteration n, the warning, both in that order, or (with n = 0) the error
    message. *)
Theorem solve_trace_shape (self self' : Mpc) (r : Result unit) (trace : list Event) :
  solve self = (r, self', trace) ->
  let max := max_penalty_iterations (m_options self) in
  let f := penalty_increase_factor (m_options self) in
  exists n tail,
    trace = loop_events 1%float f n ++ tail
    /\ tail ∈ trace_tails n
    /\ (n <= Z.to_nat max)%nat
    /\ solver_invocations trace = n
    /\ (tail = [ROS_ERROR error_text] -> n = 0%nat /\ r = Fail (Thrown error_text)).
Proof.
  intros Hsolve max f.
  destruct (solve_trace _ _ _ _ Hsolve) as (n0 & _ & Hinv & _ & _).
  destruct (m_reference_path_set self) eqn:Hset.
  2:{ rewrite solve_unset in Hsolve by exact Hset.
      injection Hsolve as <- <- <-. exists 0%nat, [ROS_ERROR error_text].
      unfold trace_tails. repeat split; try done; try lia. repeat constructor. }
  destruct (generate_initial_values self) as [seed|fl] eqn:Hgen.
  2:{ unfold Control.solve in Hsolve. rewrite Hset, Hgen in Hsolve.
      injection Hsolve as <- <- <-. exists 0%nat, [].
      unfold trace_tails. repeat split; try done; try lia. repeat constructor. }
  destruct (build_optimization_problem Problem_empty seed) as [[problem start]|fl] eqn:Hbuild.
  2:{ unfold Control.solve in Hsolve. rewrite Hset, Hgen, Hbuild in Hsolve.
      injection Hsolve as <- <- <-. exists 0%nat, [].
      unfold trace_tails. repeat split; try done; try lia. repeat constructor. }
  destruct (solve_unfold _ _ _ _ Hset Hgen Hbuild) as (Ho & _ & Heq).
  rewrite Heq in Hsolve. clear Heq. fold max in Hsolve.
  destruct (penalty_loop (Z.to_nat max) problem (mkLoopState 0 1%float start []))
    as [fault st'] eqn:Hloop.
  apply penalty_loop_trace in Hloop as (n & tail & Htr & Htail & Hit & Hopt & Hn).
  cbn [iteration penalty_coefficient loop_self loop_trace app] in *.
  rewrite Ho in Htr, Hopt. fold f in Htr. rewrite Hopt in Hsolve. fold max in Hsolve.
  rewrite Hit, Z.add_0_l in Htail.
  assert (Hcount : forall t, t ∈ trace_tails n -> t <> [ROS_ERROR error_text] ->
            solver_invocations (loop_events 1%float f n ++ t) = n).
  { intros t Ht Hne. rewrite solver_invocations_app, solver_invocations_loop_events.
    unfold trace_tails in Ht.
    repeat (apply elem_of_cons in Ht as [-> | Ht]); try (cbn; lia); try done.
    by apply elem_of_nil in Ht. }
  exists n. destruct fault as [fl|].
  - injection Hsolve as <- <- <-. exists tail. rewrite Htr.
    assert (Hin : tail ∈ trace_tails n).
    { unfold trace_tails. destruct Htail as [-> | ->]; repeat constructor. }
    split; [done|]. split; [exact Hin|]. split; [exact Hn|].
    split; [apply Hcount; [exact Hin|destruct Htail as [-> | ->]; discriminate]|].
    destruct Htail as [-> | ->]; discriminate.
  - destruct (max <=? iteration st'); injection Hsolve as <- <- <-; rewrite Htr.
    + exists (tail ++ [ROS_WARN_MaxIterations]). rewrite <- app_assoc.
      assert (Hin : tail ++ [ROS_WARN_MaxIterations] ∈ trace_tails n).
      { unfold trace_tails. destruct Htail as [-> | ->]; repeat constructor. }
      split; [done|]. split; [exact Hin|]. split; [exact Hn|].
      split; [apply Hcount; [exact Hin|destruct Htail as [-> | ->]; discriminate]|].
      destruct Htail as [-> | ->]; discriminate.
    + exists tail.
      assert (Hin : tail ∈ trace_tails n).
      { unfold trace_tails. destruct Htail as [-> | ->]; repeat constructor. }
      split; [done|]. split; [exact Hin|]. split; [exact Hn|].
      split; [apply Hcount; [exact Hin|destruct Htail as [-> | ->]; discriminate]|].
      destruct Htail as [-> | ->]; discriminate.
Qed.

(** ** The three answers of [is_feasible] *)

(** X6. [is_feasible] examines the recorded residual blocks in order and
    stops at the first one that decides: it answers false exactly when some
    block costs more than [max_constraint_cost] and every block before it
    could be evaluated within the bound, and it fails its assertion exactly
    when some block cannot be evaluated and every block before it could be
    evaluated within the bound.  Blocks after the deciding one are not
    evaluated. *)
Theorem is_feasible_outcomes (problem : Problem) (self : Mpc) :
  let ids := m_kinematic_constraint_residuals self in
  let cost := EvaluateResidualBlock problem (memory_of self) in
  let within := fun id =>
    exists c, cost id = Some c /\ (c <= max_constraint_cost (m_options self))%Q in
  (is_feasible problem self = Ok false <->
   exists before id after c,
     ids = before ++ id :: after /\ Forall within before
     /\ cost id = Some c /\ ~ (c <= max_constraint_cost (m_options self))%Q)
  /\ ((exists fl, is_feasible problem self = Fail fl) <->
      exists before id after,
        ids = before ++ id :: after /\ Forall within before /\ cost id = None).
Proof.
  intros ids cost within. unfold Control.is_feasible. fold ids.
  induction ids as [|id rest [IHfalse IHfail]]; cbn [Control.is_feasible_from].
  - split; split.
    + discriminate.
    + intros (before & ? & ? & ? & Heq & _). by destruct before.
    + intros [fl H]. discriminate.
    + intros (before & ? & ? & Heq & _). by destruct before.
  - fold cost. destruct (cost id) as [c|] eqn:Hc.
    + destruct (Qgtb c (max_constraint_cost (m_options self))) eqn:Hgt.
      * assert (Hnle : ~ (c <= max_constraint_cost (m_options self))%Q).
        { intros Hle. apply Qgtb_false in Hle. congruence. }
        split; split.
        -- intros _. exists [], id, rest, c. by repeat split.
        -- done.
        -- intros [fl H]. discriminate.
        -- intros (before & id' & after & Heq & Hbefore & Hnone).
           destruct before as [|b before]; cbn in Heq; injection Heq as <- _.
           ++ congruence.
           ++ apply Forall_cons in Hbefore as [(c' & Hc' & Hle) _].
              rewrite Hc in Hc'. injection Hc' as <-. done.
      * assert (Hle : (c <= max_constraint_cost (m_options self))%Q)
          by (by apply Qgtb_false).
        split; split.
        -- intros H. apply IHfalse in H as (before & id' & after & c' & -> & Hb & Hc' & Hn).
           exists (id :: before), id', after, c'. repeat split; try done.
           constructor; [by exists c|exact Hb].
        -- intros (before & id' & after & c' & Heq & Hb & Hc' & Hn).
           apply IHfalse.
           destruct before as [|b before]; cbn in Heq; injection Heq as <- ->.
           ++ rewrite Hc in Hc'. injection Hc' as <-. done.
           ++ apply Forall_cons in Hb as [_ Hb]. by exists before, id', after, c'.
        -- intros H. apply IHfail in H as (before & id' & after & -> & Hb & Hnone).
           exists (id :: before), id', after. repeat split; try done.
           constructor; [by exists c|exact Hb].
        -- intros (before & id' & after & Heq & Hb & Hnone).
           apply IHfail.
           destruct before as [|b before]; cbn in Heq; injection Heq as <- ->.
           ++ congruence.
           ++ apply Forall_cons in Hb as [_ Hb]. by exists before, id', after.
    + split; split.
      * discriminate.
      * intros (before & id' & after & c' & Heq & Hb & Hc' & Hn).
        destruct before as [|b before]; cbn in Heq; injection Heq as <- _.
        -- congruence.
        -- apply Forall_cons in Hb as [(c'' & Hc'' & _) _]. congruence.
      * intros _. exists [], id, rest. by repeat split.
      * intros _. eexists. reflexivity.
Qed.

(** ** Setting the initial state *)

(** X7. Setting the initial pose or twist replaces what was set before, also
    a whole horizon left by an earlier [solve]: the last call wins, the two
    setters commute, and neither touches the reference path, the problem size
    or the other setter's buffer. *)
Theorem initial_state_setters (pose pose' : PoseStamped) (twist twist' : TwistStamped)
    (self : Mpc) :
  set_initial_pose pose' (set_initial_pose pose self) = set_initial_pose pose' self
  /\ set_initial_twist twist' (set_initial_twist twist self) = set_initial_twist twist' self
  /\ set_initial_pose pose (set_initial_twist twist self)
     = set_initial_twist twist (set_initial_pose pose self)
  /\ m_twists (set_initial_pose pose self) = m_twists self
  /\ m_rotations (set_initial_twist twist self) = m_rotations self
  /\ m_positions (set_initial_twist twist self) = m_positions self
  /\ reference_of (set_initial_twist twist (set_initial_pose pose self)) = reference_of self
  /\ m_problem_size (set_initial_twist twist (set_initial_pose pose self))
     = m_problem_size self
  /\ m_reference_path_set (set_initial_twist twist (set_initial_pose pose self))
     = m_reference_path_set self.
Proof. by repeat split. Qed.

(** ** A negative [max_num_poses] *)

Lemma set_reference_path_negative (path : Path) (self : Mpc) :
  max_num_poses (m_options self) < 0 ->
  (set_reference_path path self).1 <> Ok tt
  /\ m_reference_path_set (set_reference_path path self).2 = m_reference_path_set self.
Proof.
  intros Hneg. destruct (poses path) as [|p0 ps] eqn:Hp.
  - unfold Control.set_reference_path. rewrite Hp. by cbn.
  - rewrite set_reference_path_unfold by (by rewrite Hp).
    unfold reserve_ok.
    destruct (Z.leb_spec 0
                (Z.min (int_of_size (length (poses path))) (max_num_poses (m_options self))));
      [lia|]. by cbn.
Qed.

(** X8. An optimizer constructed with a negative [max_num_poses] can never be
    given a reference path: [set_reference_path] fails on every path (its
    assertion on an empty one, [std::length_error] from [reserve] otherwise),
    no reachable state has the reference path set, and so every [solve]
    throws. *)
Theorem negative_max_num_poses_is_unusable (self : Mpc) :
  reachable self ->
  max_num_poses (m_options self) < 0 ->
  m_reference_path_set self = false
  /\ (forall path,
        (poses path = [] ->
         (set_reference_path path self).1
         = Fail (AssertionFailed "reference_path.poses.size() > 0"))
        /\ (poses path <> [] ->
            (set_reference_path path self).1 = Fail (Thrown "std::length_error")))
  /\ solve self = (Fail (Thrown error_text), self, [ROS_ERROR error_text]).
Proof.
  intros Hreach Hneg.
  assert (Hflag : m_reference_path_set self = false).
  { induction Hreach as [km options | path self r self' _ IH Hset | pose self _ IH
                         | twist self _ IH | self r self' trace _ IH Hsolve].
    - reflexivity.
    - pose proof (set_reference_path_configuration path self) as Hc.
      rewrite Hset in Hc. cbn [snd] in Hc.
      assert (Ho : m_options self' = m_options self)
        by (unfold configuration in Hc; congruence).
      rewrite Ho in Hneg.
      destruct (set_reference_path_negative path self Hneg) as [_ Hkeep].
      rewrite Hset in Hkeep. cbn [snd] in Hkeep. rewrite Hkeep. by apply IH.
    - by apply IH.
    - by apply IH.
    - pose proof (solve_configuration _ _ _ _ Hsolve) as Hc.
      assert (Ho : m_options self' = m_options self)
        by (unfold configuration in Hc; congruence).
      rewrite Ho in Hneg. specialize (IH Hneg).
      rewrite solve_unset in Hsolve by exact IH. by injection Hsolve as <- <- <-. }
  split; [exact Hflag|]. split; [|by apply solve_unset].
  intros path. split.
  - intros Hp. unfold Control.set_reference_path. by rewrite Hp.
  - intros Hp. rewrite set_reference_path_unfold by exact Hp.
    unfold reserve_ok.
    destruct (Z.leb_spec 0
                (Z.min (int_of_size (length (poses path))) (max_num_poses (m_options self))));
      [lia|]. by cbn.
Qed.

(** ** What [set_reference_path] reads *)

(** X9. [set_reference_path] reads only the x and y of the position and the
    orientation of each pose: the headers of the path and of its poses (stamp
    and frame) and the z coordinate are ignored, so two paths that agree on
    those three values pose by pose give the same outcome and the same
    optimizer. *)
Theorem set_reference_path_ignores_frames (path path' : Path) (self : Mpc) :
  (fun p => (px (pose_position (ps_pose p)), py (pose_position (ps_pose p)),
             pose_orientation (ps_pose p))) <$> poses path
  = (fun p => (px (pose_position (ps_pose p)), py (pose_position (ps_pose p)),
               pose_orientation (ps_pose p))) <$> poses path' ->
  set_reference_path path self = set_reference_path path' self.
Proof.
  set (key := fun p : PoseStamped =>
                (px (pose_position (ps_pose p)), py (pose_position (ps_pose p)),
                 pose_orientation (ps_pose p))).
  intros Hkey.
  assert (Hlen : length (poses path) = length (poses path')).
  { by rewrite <- (length_fmap key (poses path)), Hkey, length_fmap. }
  assert (Hpoint : forall n, point_of <$> take n (poses path)
                             = point_of <$> take n (poses path')).
  { intros n.
    change point_of with ((fun k : Q * Q * Quaternion => mkVector2d k.1.1 k.1.2) ∘ key).
    by rewrite !list_fmap_compose, !fmap_take, Hkey. }
  assert (Hrot : forall n, rotation_of <$> take n (poses path)
                           = rotation_of <$> take n (poses path')).
  { intros n.
    change rotation_of
      with ((fun k : Q * Q * Quaternion => from_quaternion k.2) ∘ key).
    by rewrite !list_fmap_compose, !fmap_take, Hkey. }
  destruct (poses path) as [|p0 ps] eqn:Hp; destruct (poses path') as [|p0' ps'] eqn:Hp';
    try discriminate.
  - unfold Control.set_reference_path. by rewrite Hp, Hp'.
  - rewrite !set_reference_path_unfold by (by rewrite ?Hp, ?Hp').
    rewrite Hp, Hp', Hlen, Hpoint, Hrot. reflexivity.
Qed.

(** ** What [get_optimal_path] writes *)

(** X10. Every pose of the path [get_optimal_path] returns has a
    value-initialised header (no stamp, empty frame name) and z = 0: only the
    path's own header names the frame "map", and nothing is stamped with a
    time. *)
Theorem get_optimal_path_poses_are_unstamped (self : Mpc) (path : Path) :
  get_optimal_path self = Ok path ->
  path_header path = mkHeader 0 0 "map"
  /\ forall pose, pose ∈ poses path ->
       ps_header pose = Header_default
       /\ (pz (pose_position (ps_pose pose)) = 0)%Q.
Proof.
  unfold Control.get_optimal_path.
  match goal with
  | |- context [for_range ?lo ?hi ?body ?s] =>
      destruct (for_range lo hi body s) as [result|] eqn:Hloop
  end; [|discriminate].
  intros [= <-].
  apply (for_int_invariant
           (fun p => path_header p = mkHeader 0 0 "map"
                     /\ forall pose, pose ∈ poses p ->
                          ps_header pose = Header_default
                          /\ pz (pose_position (ps_pose pose)) = 0%Q)) in Hloop;
    [exact Hloop| |].
  - intros i p p' [Hh Hp] Hbody.
    destruct (at_int (m_rotations self) i) as [rot|]; [|discriminate].
    destruct (at_int (m_positions self) i) as [pos|]; [|discriminate].
    cbn in Hbody. injection Hbody as <-. cbn [path_header poses]. split; [exact Hh|].
    intros pose Hin. apply elem_of_app in Hin as [Hin | Hin]; [by apply Hp|].
    apply list_elem_of_singleton in Hin. by subst pose.
  - split; [reflexivity|]. intros pose Hin. by apply elem_of_nil in Hin.
Qed.

(** ** [solve] with no iteration allowed, and [solve] repeated *)

Lemma get_optimal_path_in_bounds (self : Mpc) :
  let N := Z.to_nat (m_problem_size self) in
  (N <= length (m_rotations self))%nat ->
  (N <= length (m_positions self))%nat ->
  get_optimal_path self
  = Ok (mkPath (mkHeader 0 0 "map")
          (zip_with (stamped_pose_of to_quaternion)
             (take N (m_rotations self)) (take N (m_positions self)))).
Proof.
  intros N Hr Hp. unfold Control.get_optimal_path.
  rewrite for_range_unfold, Z.sub_0_r. change 0 with (Z.of_nat 0). fold N.
  rewrite get_optimal_path_loop by (cbn; lia). by rewrite !drop_0.
Qed.

(** X11. With [max_penalty_iterations] at most 0, [solve] on a reachable
    optimizer with a reference path of problem size N >= 1 and a freshly set
    initial pose and twist invokes no engine, warns, and leaves the initial
    guess in place: [get_optimal_path] then returns the initial pose followed
    by its N-1 successive propagations under the initial twist. *)
Theorem solve_without_iterations (pose : PoseStamped) (twist : TwistStamped) (s : Mpc) :
  reachable s ->
  m_reference_path_set s = true ->
  1 <= m_problem_size s ->
  max_penalty_iterations (m_options s) <= 0 ->
  let self := set_initial_twist twist (set_initial_pose pose s) in
  let pose_0 := pose_of_msg from_quaternion pose in
  let trajectory :=
    pose_0 :: rollout propagate (twist_of_msg twist) (time_step (m_options s))
                (Z.to_nat (m_problem_size s) - 1) pose_0 in
  exists self',
    solve self = (Ok tt, self', [ROS_WARN_MaxIterations])
    /\ get_optimal_path self'
       = Ok (mkPath (mkHeader 0 0 "map")
               ((fun q => stamped_pose_of to_quaternion (rotation q) (position q))
                  <$> trajectory)).
Proof.
  intros Hreach Hset HN Hmax self pose_0 trajectory.
  destruct (reachable_buffers_wf _ Hreach) as (_ & _ & _ & Hrr & Hrp).
  set (N := Z.to_nat (m_problem_size s)) in *.
  assert (Hgen : generate_initial_values self
                 = Ok (append_horizon
                         (rollout propagate (twist_of_msg twist) (time_step (m_options s))
                            (N - 1) pose_0)
                         (replicate (N - 1) (twist_of_msg twist)) self)).
  { rewrite (generate_initial_values_unfold self (twist_of_msg twist)
               (rotation pose_0) (position pose_0)) by reflexivity.
    change (m_problem_size self) with (m_problem_size s).
    replace (Z.to_nat (m_problem_size s - 1)) with (N - 1)%nat by (subst N; lia).
    reflexivity. }
  set (seed := append_horizon _ _ self) in *.
  assert (Hrs : m_rotations seed = rotation <$> trajectory) by reflexivity.
  assert (Hps : m_positions seed = position <$> trajectory) by reflexivity.
  assert (Hlen : length trajectory = N).
  { unfold trajectory. cbn [length]. rewrite length_rollout. subst N. lia. }
  assert (Hbounds : build_in_bounds seed).
  { unfold build_in_bounds.
    change (m_problem_size seed) with (m_problem_size s). fold N.
    rewrite Hrs, Hps, !length_fmap, Hlen.
    change (m_reference_rotations seed) with (m_reference_rotations s).
    change (m_reference_positions seed) with (m_reference_positions s).
    rewrite Hrr, Hrp.
    change (length (m_twists seed)) with (length ([twist_of_msg twist]
      ++ replicate (N - 1) (twist_of_msg twist))).
    rewrite length_app, length_replicate. cbn [length]. subst N. repeat split; lia. }
  pose proof (build_optimization_problem_unfold seed Hbounds) as Hbuild.
  cbn zeta in Hbuild.
  assert (Hset' : m_reference_path_set self = true) by exact Hset.
  destruct (solve_unfold _ _ _ _ Hset' Hgen Hbuild) as (Ho & _ & Heq).
  eexists. split.
  - rewrite Heq. rewrite penalty_loop_done by (cbn; lia).
    cbn [loop_self loop_trace iteration].
    destruct (Z.leb_spec (max_penalty_iterations
                            (m_options (set_kinematic_constraint_residuals
                               ((fun m => (3 * m + 2)%nat) <$>
                                seq 0 (Z.to_nat (m_problem_size seed) - 1)) seed))) 0)
      as [_|Hgt]; [reflexivity|cbn in Hgt; lia].
  - rewrite get_optimal_path_in_bounds.
    + change (m_problem_size (set_kinematic_constraint_residuals _ seed))
        with (m_problem_size s). fold N.
      change (m_rotations (set_kinematic_constraint_residuals _ seed))
        with (m_rotations seed).
      change (m_positions (set_kinematic_constraint_residuals _ seed))
        with (m_positions seed).
      rewrite Hrs, Hps.
      rewrite !take_ge by (rewrite length_fmap; lia).
      rewrite zip_with_fmap_l, zip_with_fmap_r, zip_with_diag. reflexivity.
    + change (m_problem_size (set_kinematic_constraint_residuals _ seed))
        with (m_problem_size s).
      change (m_rotations (set_kinematic_constraint_residuals _ seed))
        with (m_rotations seed).
      fold N. rewrite Hrs, length_fmap. lia.
    + change (m_problem_size (set_kinematic_constraint_residuals _ seed))
        with (m_problem_size s).
      change (m_positions (set_kinematic_constraint_residuals _ seed))
        with (m_positions seed).
      fold N. rewrite Hps, length_fmap. lia.
Qed.

(** X12. When [solve] gets as far as the initial guess (the reference path is
    set and the horizon has its step 0), it pushes problem-size minus one
    entries onto each horizon buffer, whatever the buffers held: a [solve]
    repeated without resetting the initial pose and twist makes each buffer
    longer by that much every time. *)
Theorem solve_grows_horizon (self self' : Mpc) (r : Result unit) (trace : list Event) :
  m_reference_path_set self = true ->
  (1 <= length (m_rotations self))%nat ->
  (1 <= length (m_positions self))%nat ->
  (1 <= length (m_twists self))%nat ->
  solve self = (r, self', trace) ->
  let n := Z.to_nat (m_problem_size self - 1) in
  length (m_rotations self') = (length (m_rotations self) + n)%nat
  /\ length (m_positions self') = (length (m_positions self) + n)%nat
  /\ length (m_twists self') = (length (m_twists self) + n)%nat.
Proof.
  intros Hset Hr Hp Ht Hsolve n.
  destruct (lookup_lt_is_Some_2 (m_twists self) 0 ltac:(lia)) as [tw Htw].
  destruct (lookup_lt_is_Some_2 (m_rotations self) 0 ltac:(lia)) as [r0 Hr0].
  destruct (lookup_lt_is_Some_2 (m_positions self) 0 ltac:(lia)) as [p0 Hp0].
  pose proof (generate_initial_values_unfold self tw r0 p0 Htw Hr0 Hp0) as Hgen.
  destruct (solve_sizes _ _ _ _ Hsolve)
    as (_ & [([Hflag | [fl Hfail]] & _) | (seed & Hgen' & Hsz)]).
  - congruence.
  - congruence.
  - destruct (generate_initial_values_lengths _ _ Hgen') as (_ & H1 & H2 & H3 & _ & _).
    unfold buffer_sizes in Hsz.
    assert (length (m_rotations self') = length (m_rotations seed)) by congruence.
    assert (length (m_positions self') = length (m_positions seed)) by congruence.
    assert (length (m_twists self') = length (m_twists seed)) by congruence.
    fold n in H1, H2, H3. repeat split; congruence.
Qed.

End MpcProperties.

(** * The concrete collaborators meet the assumptions *)

Lemma Concrete_pose_minus_diag (p : Pose2D) :
  Vector3d_isZero (Concrete.pose_minus p p).
Proof. unfold Vector3d_isZero, Concrete.pose_minus. cbn. repeat split; ring. Qed.

Lemma move_held (problem : Problem) (a : Address) (j : nat) (old new : Q) :
  is_held problem a j = true -> Concrete.move problem a j old new = old.
Proof. intros H. unfold Concrete.move. by rewrite H. Qed.

Lemma Concrete_Solve_respects (problem : Problem) (losses : LossFunctions) (m : Memory) :
  respects problem m (Concrete.Solve problem losses m).
Proof.
  split; cbn [Concrete.Solve mem_rotations mem_positions mem_twists
              mem_reference_rotations mem_reference_positions];
    rewrite ?length_imap; try reflexivity.
  - intros [b i] Hfree. unfold read. cbn [fst snd Concrete.Solve mem_rotations
      mem_positions mem_twists mem_reference_rotations mem_reference_positions].
    destruct b; try reflexivity.
    + rewrite list_lookup_imap. destruct (mem_positions m !! i) as [p|]; [|reflexivity].
      cbn. unfold Concrete.solve_position. by rewrite Hfree.
    + rewrite list_lookup_imap. destruct (mem_twists m !! i) as [t|]; [|reflexivity].
      cbn. unfold Concrete.solve_twist. by rewrite Hfree.
  - intros [b i] j Hheld. unfold read. cbn [fst snd Concrete.Solve mem_rotations
      mem_positions mem_twists mem_reference_rotations mem_reference_positions].
    destruct b; try reflexivity.
    + rewrite list_lookup_imap. destruct (mem_positions m !! i) as [p|]; [|reflexivity].
      cbn. unfold Concrete.solve_position.
      destruct (is_free problem (Positions, i)); [|reflexivity].
      destruct (mem_reference_positions m !! i) as [r|]; [|reflexivity].
      destruct j as [|[|j]]; cbn; [| |reflexivity];
        by rewrite move_held.
    + rewrite list_lookup_imap. destruct (mem_twists m !! i) as [t|]; [|reflexivity].
      cbn. unfold Concrete.solve_twist.
      destruct (is_free problem (Twists, i)); [|reflexivity].
      destruct j as [|[|[|j]]]; cbn; [| | |reflexivity];
        by rewrite move_held.
Qed.

(** * The theorems at concrete inputs *)

(** C4 at an empty path, and at the path one metre ahead given to an
    optimizer that already holds another reference. *)
Lemma set_reference_path_spec_witness :
  let self := Concrete.ready Options_default Concrete.still_path in
  Concrete.set_reference_path Concrete.empty_path self
  = (Fail (AssertionFailed "reference_path.poses.size() > 0"), self)
  /\ m_problem_size (Concrete.set_reference_path Concrete.ahead_path self).2 = 2
  /\ m_reference_positions (Concrete.set_reference_path Concrete.ahead_path self).2
     = [mkVector2d 0 0; mkVector2d 1 0]
  /\ (Concrete.set_reference_path Concrete.ahead_path self).1 = Ok tt.
Proof.
  intros self.
  destruct (set_reference_path_spec Concrete.from_quaternion Concrete.empty_path self)
    as [Hempty _].
  destruct (set_reference_path_spec Concrete.from_quaternion Concrete.ahead_path self)
    as [_ Hfull].
  split; [apply Hempty; reflexivity|].
  destruct Hfull as (H1 & H2 & _ & H4); [discriminate|vm_compute; discriminate|].
  split; [exact H1|]. split; [exact H2|].
  apply H4. vm_compute. discriminate.
Defined.

(** C5 at a fresh optimizer. *)
Lemma solve_requires_reference_path_witness :
  Concrete.solve (Mpc_new mkKinematicModel Options_default)
  = (Fail (Thrown error_text), Mpc_new mkKinematicModel Options_default,
     [ROS_ERROR error_text]).
Proof.
  apply (solve_requires_reference_path Concrete.propagate Concrete.Solve
           Concrete.EvaluateResidualBlock).
  reflexivity.
Defined.

(** X19 for a reference of three poses, a start at (1, 2) and a twist with
    forward velocity 3. *)
Lemma initial_guess_is_kinematically_consistent_witness :
  let self :=
    Concrete.ready Options_default
      (mkPath Header_default
         [Concrete.pose_at 0 0; Concrete.pose_at 1 0; Concrete.pose_at 2 0]) in
  exists seed,
    Concrete.generate_initial_values
      (set_initial_twist (Concrete.twist_of 0 3 0)
         (Concrete.set_initial_pose (Concrete.pose_at 1 2) self))
    = Ok seed
    /\ length (m_rotations seed) = 3%nat
    /\ (forall i, (1 <= i < 3)%nat ->
          exists residual,
            kinematic_residual Concrete.propagate Concrete.pose_minus seed i = Some residual
            /\ Vector3d_isZero residual).
Proof.
  intros self.
  destruct (initial_guess_is_kinematically_consistent
              Concrete.propagate Concrete.from_quaternion Concrete.pose_minus
              (Concrete.pose_at 1 2) (Concrete.twist_of 0 3 0) self)
    as (seed & Hgen & Hr & _ & _ & _ & _ & _ & _ & Hres).
  - vm_compute. discriminate.
  - apply Concrete_pose_minus_diag.
  - exists seed. split; [exact Hgen|]. split; [exact Hr|exact Hres].
Defined.


Lemma reachable_ready (options : Options) (path : Path) :
  reachable Concrete.propagate Concrete.from_quaternion Concrete.Solve
    Concrete.EvaluateResidualBlock (Concrete.ready options path).
Proof.
  unfold Concrete.ready.
  eapply reachable_set_reference_path; [apply reachable_new|].
  apply surjective_pairing.
Qed.

(** C1 for the path one metre ahead under the default options: the third
    iteration is the first feasible one. *)
Lemma penalty_iterations_run_witness :
  let self := Concrete.ready Options_default Concrete.ahead_path in
  exists trace,
    Concrete.solve self
    = (Ok tt, Concrete.self_on (Concrete.problem_of self)
                (mkLoopState 0 1 (Concrete.start_of self) []) 3, trace)
    /\ solver_invocations trace = 3%nat.
Proof.
  intros self.
  destruct (penalty_iterations_run Concrete.propagate Concrete.Solve
              Concrete.EvaluateResidualBlock self (Concrete.seed_of self)
              (Concrete.start_of self) (Concrete.problem_of self))
    as (Hfirst & _ & _).
  - reflexivity.
  - vm_compute. reflexivity.
  - vm_compute. reflexivity.
  - apply (Hfirst 3%nat).
    + lia.
    + vm_compute. discriminate.
    + intros j Hj. destruct j as [|[|[|j]]]; try lia; vm_compute; reflexivity.
    + apply is_feasible_true_iff. vm_compute. reflexivity.
Defined.

(** C2 for the default options over the path one metre ahead: three
    invocations, with the scales 1, 5 and 25. *)
Lemma penalty_coefficient_schedule_witness :
  let self := Concrete.ready Options_default Concrete.ahead_path in
  let coefficients := penalty_coefficients (Concrete.trace_of_solve self) in
  coefficients = [1%float; 5%float; 25%float]
  /\ length coefficients = solver_invocations (Concrete.trace_of_solve self)
  /\ penalty_on_kinematic_blocks (Concrete.problem_of self)
  /\ (forall j k c c', (j <= k)%nat ->
        coefficients !! j = Some c -> coefficients !! k = Some c' ->
        PrimFloat.leb c c' = true)
  /\ m_constraint_penalty_coefficient_handle (Concrete.after_solve self)
     = Some (mkScaledLoss 25%float).
Proof.
  intros self coefficients.
  destruct (penalty_coefficient_schedule Concrete.propagate Concrete.Solve
              Concrete.EvaluateResidualBlock self
              (Concrete.after_solve self) (Concrete.solve self).1.1
              (Concrete.trace_of_solve self))
    as (Hlen & Hblocks & _ & _ & _ & Hmono & _ & Hlast).
  - vm_compute. reflexivity.
  - split; [vm_compute; reflexivity|]. split; [exact Hlen|].
    split.
    { apply (Hblocks (Concrete.seed_of self) (Concrete.problem_of self)
               (Concrete.start_of self)); vm_compute; reflexivity. }
    split; [apply Hmono; reflexivity|].
    apply Hlast. vm_compute. reflexivity.
Defined.

(** C6 for a run that is never feasible within two iterations, and for a run
    whose single allowed iteration is feasible. *)
Lemma iteration_limit_warning_witness :
  (let self := Concrete.ready (Concrete.with_iterations 2 0.5%float) Concrete.ahead_path in
   exists self' trace,
     Concrete.solve self = (Ok tt, self', trace) /\ warned trace = true)
  /\ (let self := Concrete.ready (Concrete.with_iterations 1 5%float) Concrete.still_path in
      exists trace,
        Concrete.solve self
        = (Ok tt, Concrete.self_on (Concrete.problem_of self)
                    (mkLoopState 0 1 (Concrete.start_of self) []) 1, trace)
        /\ (warned trace = true <-> 1 = 1)).
Proof.
  split; intros self.
  - destruct (iteration_limit_warning Concrete.propagate Concrete.Solve
                Concrete.EvaluateResidualBlock self (Concrete.seed_of self)
                (Concrete.start_of self) (Concrete.problem_of self))
      as (_ & Hnever & _).
    + reflexivity.
    + vm_compute. reflexivity.
    + vm_compute. reflexivity.
    + destruct Hnever as (self' & trace & Hsolve & Hwarn & _).
      * intros j Hj Hmax. change (Z.of_nat j <= 2) in Hmax.
        destruct j as [|[|[|j]]]; try lia; vm_compute; reflexivity.
      * exists self', trace. split; [exact Hsolve|exact Hwarn].
  - destruct (iteration_limit_warning Concrete.propagate Concrete.Solve
                Concrete.EvaluateResidualBlock self (Concrete.seed_of self)
                (Concrete.start_of self) (Concrete.problem_of self))
      as (_ & _ & Hfirst).
    + reflexivity.
    + vm_compute. reflexivity.
    + vm_compute. reflexivity.
    + apply (Hfirst 1%nat).
      * lia.
      * vm_compute. discriminate.
      * intros j Hj. lia.
      * vm_compute. reflexivity.
Defined.

(** X20 for the first [solve] on a fresh optimizer with a reference of two
    poses. *)
Lemma solve_fills_horizon_witness :
  let self := Concrete.ready Options_default Concrete.ahead_path in
  buffer_sizes (Concrete.after_solve self) = [2; 2; 2; 2; 2]%nat.
Proof.
  intros self.
  destruct (solve_fills_horizon Concrete.propagate Concrete.from_quaternion
              Concrete.Solve Concrete.EvaluateResidualBlock Concrete_Solve_respects)
    as (_ & _ & Hsolve).
  apply (Hsolve self (Concrete.after_solve self) (Concrete.solve self).1.1
           (Concrete.trace_of_solve self)).
  - apply reachable_ready.
  - reflexivity.
  - vm_compute. discriminate.
  - reflexivity.
  - reflexivity.
  - reflexivity.
  - vm_compute. reflexivity.
Defined.

(** C10 for the optimizer after that [solve]. *)
Lemma get_optimal_path_spec_witness :
  let self' := Concrete.after_solve (Concrete.ready Options_default Concrete.ahead_path) in
  exists path,
    Concrete.get_optimal_path self' = Ok path
    /\ frame_id (path_header path) = "map"
    /\ length (poses path) = 2%nat.
Proof.
  intros self'.
  destruct (get_optimal_path_spec Concrete.propagate Concrete.to_quaternion
              Concrete.Solve Concrete.EvaluateResidualBlock Concrete_Solve_respects)
    as (Hpath & Hsolve).
  destruct (Hsolve (Concrete.ready Options_default Concrete.ahead_path) self'
              (Concrete.trace_of_solve (Concrete.ready Options_default Concrete.ahead_path)))
    as (Hr & Hp); [vm_compute; reflexivity|].
  destruct (Hpath self') as (Hok & _).
  destruct (Hok Hr Hp) as (path & Hget & Hframe & Hlen & _).
  exists path. split; [exact Hget|]. split; [exact Hframe|exact Hlen].
Defined.

(** C7 for a twist with lateral velocity 1/2. *)
Lemma lateral_velocity_is_kept_witness :
  let self := Concrete.ready Options_default Concrete.ahead_path in
  let twist := Concrete.twist_of 0 1 (1 # 2) in
  lateral_is (1 # 2) (Concrete.after_solve (set_initial_twist twist self)).
Proof.
  intros self twist.
  destruct (lateral_velocity_is_kept Concrete.propagate Concrete.Solve
              Concrete.EvaluateResidualBlock Concrete_Solve_respects twist self)
    as (_ & _ & Hsolve).
  apply (Hsolve (Concrete.solve (set_initial_twist twist self)).1.1
           (Concrete.after_solve (set_initial_twist twist self))
           (Concrete.trace_of_solve (set_initial_twist twist self))).
  vm_compute. reflexivity.
Defined.

(** * Where the spec and the code part *)

(** C2: with a growth factor below 1 the coefficient decreases; and the
    coefficient is a chain of rounded products, not the power of the factor:
    with the factor 1 + 2^-52 the third coefficient is 1 + 2^-51, which is
    not the square of the factor. *)
Lemma penalty_coefficient_can_decrease :
  (let self := Concrete.ready (Concrete.with_iterations 2 0.5%float) Concrete.ahead_path in
   penalty_coefficients (Concrete.trace_of_solve self) = [1%float; 0.5%float]
   /\ PrimFloat.leb 1 0.5 = false)
  /\ (let factor := 0x1.0000000000001p0%float in
      let self := Concrete.ready (Concrete.with_iterations 3 factor) Concrete.ahead_path in
      penalty_coefficients (Concrete.trace_of_solve self)
      = [1%float; factor; 0x1.0000000000002p0%float]
      /\ ~ (Concrete.Q_of_double 0x1.0000000000002p0 == Concrete.Q_of_double factor ^ 2)%Q).
Proof.
  split; [split; vm_compute; reflexivity|].
  split; [vm_compute; reflexivity|].
  intros H. vm_compute in H. discriminate.
Qed.

(** C6: with one iteration allowed and that iteration feasible, the warning
    follows the feasibility message. *)
Lemma warning_after_feasible_last_iteration :
  let self := Concrete.ready (Concrete.with_iterations 1 5%float) Concrete.still_path in
  Concrete.solve self
  = (Ok tt, Concrete.after_solve self,
     [CeresSolve (Some (mkScaledLoss 1%float)); ROS_INFO_BriefReport; ROS_INFO_Feasible 1; ROS_WARN_MaxIterations])
  /\ is_feasible Concrete.EvaluateResidualBlock (Concrete.problem_of self)
       (Concrete.after_solve self) = Ok true
  /\ warned (Concrete.trace_of_solve self) = true.
Proof. vm_compute. repeat split. Qed.

(** C7: a lateral velocity of 1/2 is stored, and is still there in every
    twist after [solve]. *)
Lemma lateral_velocity_is_not_zeroed :
  let self := Concrete.ready Options_default Concrete.ahead_path in
  let twist := Concrete.twist_of 0 1 (1 # 2) in
  e2 <$> m_twists (set_initial_twist twist self) = [(1 # 2)%Q]
  /\ e2 <$> m_twists (Concrete.after_solve (set_initial_twist twist self))
     = [(1 # 2)%Q; (1 # 2)%Q]
  /\ ~ (1 # 2 == 0)%Q.
Proof.
  split; [vm_compute; reflexivity|]. split; [vm_compute; reflexivity|].
  intros H. vm_compute in H. discriminate.
Qed.

(** C3: on a second [solve] without resetting the initial pose and twist the
    generator leaves the horizon of the first [solve] in steps 0..N-1 and
    pushes its values behind them: the twist of step 1 is not the twist of
    step 0, and the kinematic-consistency residual of step 1 is not zero. *)
Lemma second_solve_breaks_initial_guess :
  let once := Concrete.after_solve (Concrete.ready Options_default Concrete.ahead_path) in
  exists seed residual,
    Concrete.generate_initial_values once = Ok seed
    /\ m_problem_size seed = 2
    /\ m_twists seed = [mkVector3d 0 0 0; mkVector3d 3 3 0; mkVector3d 0 0 0]
    /\ kinematic_residual Concrete.propagate Concrete.pose_minus seed 1 = Some residual
    /\ ~ Vector3d_isZero residual.
Proof.
  eexists _, _. split; [vm_compute; reflexivity|].
  split; [reflexivity|]. split; [reflexivity|]. split; [vm_compute; reflexivity|].
  intros H. vm_compute in H. destruct H as (_ & H & _). discriminate.
Qed.

(** C8: a second [solve] without resetting the initial pose and twist leaves
    three entries in each horizon buffer for a problem size of two. *)
Lemma second_solve_grows_horizon :
  let self := Concrete.ready Options_default Concrete.still_path in
  let once := Concrete.after_solve self in
  let twice := Concrete.after_solve once in
  (Concrete.solve once).1.1 = Ok tt
  /\ m_problem_size twice = 2
  /\ buffer_sizes once = [2; 2; 2; 2; 2]%nat
  /\ buffer_sizes twice = [3; 3; 3; 2; 2]%nat.
Proof. vm_compute. repeat split. Qed.

(** C10: after [set_reference_path] and before any [solve] the buffers hold
    one entry and [get_optimal_path] reads past their end. *)
Lemma get_optimal_path_before_solve :
  let self := Concrete.ready Options_default Concrete.ahead_path in
  m_problem_size self = 2
  /\ buffer_sizes self = [1; 1; 1; 2; 2]%nat
  /\ Concrete.get_optimal_path self = Fail OutOfRange.
Proof. vm_compute. repeat split. Qed.

(** * Properties of the localisation node *)

Section KalmanNodeProperties.

Import Localisation.

Variables Imu DistanceMeasurement KalmanFilter : Type.
Variable KalmanFilter_new : Q -> Vector2d -> Vector2d -> KalmanFilter.
Variable filter_position : KalmanFilter -> Vector2d.
Variable filter_velocity : KalmanFilter -> Vector2d.
Variable filter_heading : KalmanFilter -> Q.
Variable to_quat_z : Q -> Quaternion.

Local Abbreviation Node := (KalmanNode Imu KalmanFilter).
Local Abbreviation Callbacks := (list (Callback Imu DistanceMeasurement)).
Local Abbreviation spin :=
  (Localisation.spin Imu DistanceMeasurement KalmanFilter
     filter_position filter_velocity filter_heading to_quat_z).
Local Abbreviation dispatch :=
  (Localisation.dispatch Imu DistanceMeasurement KalmanFilter
     filter_position filter_velocity filter_heading to_quat_z).
Local Abbreviation timer_cb :=
  (Localisation.timer_cb Imu KalmanFilter
     filter_position filter_velocity filter_heading to_quat_z).
Local Abbreviation transform_at :=
  (Localisation.transform_at Imu KalmanFilter filter_position filter_heading to_quat_z).
Local Abbreviation pose_at := (Localisation.pose_at Imu KalmanFilter filter_position).
Local Abbreviation velocity_at :=
  (Localisation.velocity_at Imu KalmanFilter filter_velocity).
Local Abbreviation fixed_part := (Localisation.fixed_part Imu KalmanFilter).
Local Abbreviation imu_messages := (Localisation.imu_messages Imu DistanceMeasurement).
Local Abbreviation timer_stamps := (Localisation.timer_stamps Imu DistanceMeasurement).

(** One timer event: the three messages, and what it leaves for the next. *)
Lemma timer_cb_unfold (t : Z) (node : Node) (out : list Output) :
  exists node',
    timer_cb t (node, out)
    = (node', out ++ [sendTransform (transform_at node t);
                      publish_pose_msg (pose_at node t);
                      publish_vel_msg (velocity_at node t)])
    /\ fixed_part node' = fixed_part node
    /\ m_imu_queue _ _ node' = m_imu_queue _ _ node
    /\ (forall t', transform_at node' t' = transform_at node t')
    /\ (forall t', pose_at node' t' = pose_at node t')
    /\ (forall t', velocity_at node' t' = velocity_at node t').
Proof.
  eexists. split.
  - unfold Localisation.timer_cb, publish_velocity, publish_pose, publish_tf. cbn.
    rewrite <- !app_assoc. reflexivity.
  - by repeat split.
Qed.

(** The messages that the timer events of a sequence of deliveries produce. *)
Lemma spin_unfold (callbacks : Callbacks) (node : Node) (out : list Output) :
  exists node',
    spin callbacks (node, out)
    = (node',
       out ++ flat_map (fun t => [sendTransform (transform_at node t);
                                  publish_pose_msg (pose_at node t);
                                  publish_vel_msg (velocity_at node t)])
                (timer_stamps callbacks))
    /\ fixed_part node' = fixed_part node
    /\ m_imu_queue _ _ node' = m_imu_queue _ _ node ++ imu_messages callbacks
    /\ (forall t', transform_at node' t' = transform_at node t')
    /\ (forall t', pose_at node' t' = pose_at node t')
    /\ (forall t', velocity_at node' t' = velocity_at node t').
Proof.
  revert node out. induction callbacks as [|c cs IH]; intros node out.
  - exists node. cbn. rewrite !app_nil_r. by repeat split.
  - destruct c as [t|msg|msg].
    + destruct (timer_cb_unfold t node out)
        as (node1 & Hstep & Hfix & Hq & Htf & Hpose & Hvel).
      destruct (IH node1 (out ++ [sendTransform (transform_at node t);
                                  publish_pose_msg (pose_at node t);
                                  publish_vel_msg (velocity_at node t)]))
        as (node' & Hrun & Hfix' & Hq' & Htf' & Hpose' & Hvel').
      exists node'. split.
      { unfold Localisation.spin in *. cbn [foldl Localisation.dispatch].
        rewrite Hstep, Hrun. cbn [Localisation.timer_stamps omap list_omap flat_map].
        rewrite <- app_assoc. f_equal. f_equal. f_equal.
        apply flat_map_ext. intros t'. by rewrite Htf, Hpose, Hvel. }
      split; [congruence|]. split; [by rewrite Hq', Hq|].
      split; [intros; by rewrite Htf', Htf|].
      split; [intros; by rewrite Hpose', Hpose|intros; by rewrite Hvel', Hvel].
    + destruct (IH (imu_cb _ _ msg (node, out)).1 out)
        as (node' & Hrun & Hfix' & Hq' & Htf' & Hpose' & Hvel').
      exists node'. split; [exact Hrun|].
      split; [exact Hfix'|]. split; [|by repeat split].
      rewrite Hq'. cbn. by rewrite <- app_assoc.
    + destruct (IH node out) as (node' & Hrun & Hrest). exists node'.
      split; [exact Hrun|exact Hrest].
Qed.

(** X13. No callback ever updates the filter: after any sequence of timer
    events, IMU messages and sonar messages the filter, the frames, the
    parameters and the timer state are what they were, and the IMU queue holds
    everything it held plus every IMU message received, in order of arrival:
    nothing is ever taken out of it. *)
Theorem callbacks_never_update_filter (callbacks : Callbacks) (node : Node)
    (out : list Output) :
  fixed_part (spin callbacks (node, out)).1 = fixed_part node
  /\ m_kalman_filter _ _ (spin callbacks (node, out)).1 = m_kalman_filter _ _ node
  /\ m_imu_queue _ _ (spin callbacks (node, out)).1
     = m_imu_queue _ _ node ++ imu_messages callbacks.
Proof.
  destruct (spin_unfold callbacks node out) as (node' & -> & Hfix & Hq & _).
  cbn [fst]. split; [exact Hfix|]. split; [|exact Hq].
  unfold Localisation.fixed_part in Hfix. congruence.
Qed.

Lemma timer_events_publish_aux (callbacks : Callbacks) (node : Node)
    (out : list Output) :
  (spin callbacks (node, out)).2
  = out ++ flat_map (fun t => [sendTransform (transform_at node t);
                               publish_pose_msg (pose_at node t);
                               publish_vel_msg (velocity_at node t)])
             (timer_stamps callbacks).
Proof.
  by destruct (spin_unfold callbacks node out) as (node' & -> & _).
Qed.

(** X14. Every timer event makes the node send exactly three messages, in the
    order transform, pose, velocity, each stamped with the event's time and
    the map frame; the transform carries the filter's position and the yaw
    quaternion of its heading towards the base frame, the pose the filter's
    position, the velocity the filter's velocity.  Nothing else is sent. *)
Theorem timer_events_publish (callbacks : Callbacks) (node : Node) (out : list Output) :
  (spin callbacks (node, out)).2
  = out ++ flat_map (fun t => [sendTransform (transform_at node t);
                               publish_pose_msg (pose_at node t);
                               publish_vel_msg (velocity_at node t)])
             (timer_stamps callbacks).
Proof. apply timer_events_publish_aux. Qed.

Lemma published_poses_app (o1 o2 : list Output) :
  published_poses (o1 ++ o2) = published_poses o1 ++ published_poses o2.
Proof. unfold published_poses. apply omap_app. Qed.

(** X15. The orientation of a published pose is never written: every pose the
    node publishes carries the orientation its pose message had to begin
    with, whatever the filter's heading ([publish_pose] assigns the yaw
    quaternion to the transform message instead).  On a node as the
    constructor makes it, that is the all-zero quaternion. *)
Theorem published_pose_orientation_is_stale (callbacks : Callbacks) (node : Node)
    (out : list Output) :
  published_poses (spin callbacks (node, out)).2
  = published_poses out ++ (pose_at node <$> timer_stamps callbacks)
  /\ (forall t,
        pose_orientation (ps_pose (pose_at node t))
        = pose_orientation (ps_pose (m_pose_msg _ _ node)))
  /\ (forall params now t,
        pose_orientation
          (ps_pose (pose_at (KalmanNode_new Imu KalmanFilter KalmanFilter_new params now) t))
        = mkQuaternion 0 0 0 0).
Proof.
  split; [|by split].
  rewrite timer_events_publish_aux.
  rewrite published_poses_app. f_equal.
  induction (timer_stamps callbacks) as [|t ts IH]; [done|].
  cbn [flat_map fmap list_fmap]. rewrite published_poses_app, IH. reflexivity.
Qed.

End KalmanNodeProperties.

(** * Properties of the firmware entry points *)

Section FirmwareProperties.

Import Firmware.

Variable Board : Type.
Variable initNode : Board -> Board.
Variable connected : Board -> bool.
Variable spinOnce : Board -> Board.
Variable negotiateTopics : Board -> Board.
Variable get_last_sync_receive_time : Board -> Z.
Variable requestSyncTime : Board -> Board.
Variable send_log : LogEntry -> Board -> Board.
Variable configure_modules : Board -> ConfigResult * Board.
Variable timer_start : Board -> Board.

Local Abbreviation spin_while := (Firmware.spin_while Board spinOnce).
Local Abbreviation spun := (Firmware.spun Board spinOnce).
Local Abbreviation first_release := (Firmware.first_release Board spinOnce).
Local Abbreviation synchronise_with_server :=
  (Firmware.synchronise_with_server Board spinOnce negotiateTopics
     get_last_sync_receive_time requestSyncTime).
Local Abbreviation setup :=
  (Firmware.setup Board initNode connected spinOnce negotiateTopics
     get_last_sync_receive_time requestSyncTime send_log configure_modules timer_start).

Lemma spun_S (n : nat) (b : Board) : spun (S n) b = spun n (spinOnce b).
Proof.
  unfold Firmware.spun. induction n as [|n IH]; [reflexivity|].
  change (spinOnce (Nat.iter (S n) spinOnce b)
          = spinOnce (Nat.iter n spinOnce (spinOnce b))).
  by rewrite IH.
Qed.

(** A busy-wait loop returns after exactly as many spins as it takes for its
    condition to fail, given that much fuel. *)
Lemma spin_while_release (cond : Board -> bool) (n fuel : nat) (b : Board) :
  first_release cond n b -> (n <= fuel)%nat ->
  spin_while cond fuel b = Some (spun n b).
Proof.
  revert fuel b. induction n as [|n IH]; intros fuel b [Hend Hbefore] Hfuel.
  - cbn in Hend. destruct fuel; cbn; by rewrite Hend.
  - destruct fuel as [|fuel]; [lia|].
    pose proof (Hbefore 0%nat ltac:(lia)) as H0. cbn in H0.
    cbn [Firmware.spin_while]. rewrite H0. rewrite spun_S. apply IH; [|lia].
    split.
    + by rewrite <- spun_S.
    + intros k Hk. rewrite <- spun_S. apply Hbefore. lia.
Qed.

(** When a busy-wait loop returns, its condition has just failed for the
    first time. *)
Lemma spin_while_returns (cond : Board -> bool) (fuel : nat) (b b' : Board) :
  spin_while cond fuel b = Some b' ->
  exists n, (n <= fuel)%nat /\ b' = spun n b /\ first_release cond n b.
Proof.
  revert b. induction fuel as [|fuel IH]; intros b Hrun; cbn in Hrun.
  - destruct (cond b) eqn:Hc; [discriminate|]. injection Hrun as <-.
    exists 0%nat. repeat split; [lia|exact Hc|intros; lia].
  - destruct (cond b) eqn:Hc.
    + apply IH in Hrun as (n & Hn & -> & Hend & Hbefore).
      exists (S n). rewrite spun_S. repeat split; [lia| |].
      * by rewrite spun_S.
      * intros [|k] Hk; [exact Hc|]. rewrite spun_S. apply Hbefore. lia.
    + injection Hrun as <-. exists 0%nat. repeat split; [lia|exact Hc|intros; lia].
Qed.

(** X16. [synchronise_with_server] never returns with the sync time it read
    before its request: when it returns, the board has been spun some number
    of times after the request, and the last sync receive time differs from
    the one read after the topic negotiation, for the first time. *)
Theorem synchronise_with_server_returns (fuel : nat) (b b' : Board) :
  synchronise_with_server fuel b = Some b' ->
  get_last_sync_receive_time b' <> get_last_sync_receive_time (negotiateTopics b)
  /\ exists n,
       (n <= fuel)%nat
       /\ b' = spun n (requestSyncTime (negotiateTopics b))
       /\ forall k, (k < n)%nat ->
            get_last_sync_receive_time (spun k (requestSyncTime (negotiateTopics b)))
            = get_last_sync_receive_time (negotiateTopics b).
Proof.
  unfold Firmware.synchronise_with_server. intros Hrun.
  apply spin_while_returns in Hrun as (n & Hn & -> & Hend & Hbefore).
  split.
  - apply Z.eqb_neq in Hend. congruence.
  - exists n. repeat split; [exact Hn|].
    intros k Hk. specialize (Hbefore k Hk). apply Z.eqb_eq in Hbefore. congruence.
Qed.

(** X17. [setup] goes on whatever [configure_modules] answers.  If the node
    handle reports a connection after n spins and, after the request, a new
    sync time after m spins, then [setup] (given that much fuel) returns
    having logged, in this order, the start line, one line for the
    configuration result (an error line for either failure) and the done
    line, and having started the timer after the synchronisation: a failed
    module configuration is logged and nothing more. *)
Theorem setup_runs_to_the_end (n m fuel : nat) (b : Board) (entries : list LogEntry) :
  first_release (fun b => negb (connected b)) n (initNode b) ->
  let b1 := send_log (loginfo "Arduino starting...") (spun n (initNode b)) in
  let result := (configure_modules b1).1 in
  let b2 := send_log (report result) (configure_modules b1).2 in
  let b3 := requestSyncTime (negotiateTopics b2) in
  first_release
    (fun b => get_last_sync_receive_time (negotiateTopics b2)
              =? get_last_sync_receive_time b) m b3 ->
  (n <= fuel)%nat -> (m <= fuel)%nat ->
  setup fuel (b, entries)
  = Some (send_log (loginfo "Arduino setup done!") (timer_start (spun m b3)),
          entries ++ [loginfo "Arduino starting..."; report result;
                      loginfo "Arduino setup done!"]).
Proof.
  intros Hconn b1 result b2 b3 Hsync Hn Hm.
  unfold Firmware.setup. cbn [fst snd].
  rewrite (spin_while_release _ n fuel _ Hconn Hn). cbn [mbind option_bind].
  unfold Firmware.log. cbn [fst snd]. fold b1.
  destruct (configure_modules b1) as [res b'] eqn:Hcfg.
  unfold Firmware.synchronise_with_server.
  subst result b2 b3. cbn [fst snd] in *.
  rewrite (spin_while_release _ m fuel _ Hsync Hm). cbn [mbind option_bind].
  by rewrite <- !app_assoc.
Qed.

(** X18. [setup] cannot return before the node handle is connected and the
    sync time has changed: whenever it returns, the node handle first
    reported a connection after some n spins, the sync time first differed
    from the one read before the request after some m further spins (both
    within the fuel), the returned board is the one reached by exactly those
    steps, with the timer started on the synchronised board and the done line
    sent last, and exactly three lines were logged after the earlier ones. *)
Theorem setup_returns (fuel : nat) (b b' : Board) (entries entries' : list LogEntry) :
  setup fuel (b, entries) = Some (b', entries') ->
  exists n m,
    let b1 := send_log (loginfo "Arduino starting...") (spun n (initNode b)) in
    let result := (configure_modules b1).1 in
    let b2 := send_log (report result) (configure_modules b1).2 in
    let b3 := requestSyncTime (negotiateTopics b2) in
    first_release (fun b => negb (connected b)) n (initNode b)
    /\ first_release
         (fun b => get_last_sync_receive_time (negotiateTopics b2)
                   =? get_last_sync_receive_time b) m b3
    /\ (n <= fuel)%nat /\ (m <= fuel)%nat
    /\ connected (spun n (initNode b)) = true
    /\ get_last_sync_receive_time (spun m b3)
       <> get_last_sync_receive_time (negotiateTopics b2)
    /\ b' = send_log (loginfo "Arduino setup done!") (timer_start (spun m b3))
    /\ entries' = entries ++ [loginfo "Arduino starting..."; report result;
                              loginfo "Arduino setup done!"].
Proof.
  unfold Firmware.setup. cbn [fst snd]. intros Hrun.
  destruct (spin_while (fun b => negb (connected b)) fuel (initNode b)) as [bc|] eqn:Hc;
    [|discriminate].
  cbn [mbind option_bind] in Hrun.
  apply spin_while_returns in Hc as (n & Hn & -> & Hrel).
  unfold Firmware.log in Hrun. cbn [fst snd] in Hrun.
  exists n.
  destruct (configure_modules
              (send_log (loginfo "Arduino starting...") (spun n (initNode b))))
    as [res bm] eqn:Hcfg.
  cbn [fst snd] in Hrun |- *.
  unfold Firmware.synchronise_with_server in Hrun.
  match type of Hrun with
  | context [Firmware.spin_while ?B ?f ?c ?k ?x] =>
      destruct (Firmware.spin_while B f c k x) as [bs|] eqn:Hs
  end; [|discriminate].
  cbn [mbind option_bind] in Hrun.
  injection Hrun as <- <-.
  apply spin_while_returns in Hs as (m & Hm & -> & Hsync).
  exists m. split; [exact Hrel|]. split; [exact Hsync|].
  split; [exact Hn|]. split; [exact Hm|].
  split; [destruct Hrel as [Hend _]; by apply negb_false_iff in Hend|].
  split; [destruct Hsync as [Hend _]; apply Z.eqb_neq in Hend; congruence|].
  split; [reflexivity|by rewrite <- !app_assoc].
Qed.

End FirmwareProperties.

(** * The further properties at concrete inputs *)

Lemma solve_stays_in_range_witness :
  let self := Concrete.ready Options_default Concrete.ahead_path in
  (Concrete.solve self).1.1 <> Fail OutOfRange.
Proof.
  intros self.
  destruct (solve_stays_in_range Concrete.propagate Concrete.from_quaternion
              Concrete.Solve Concrete.EvaluateResidualBlock Concrete_Solve_respects
              self (Concrete.after_solve self) (Concrete.solve self).1.1
              (Concrete.trace_of_solve self)) as (Hrange & _).
  - apply reachable_ready.
  - vm_compute. reflexivity.
  - exact Hrange.
Defined.

Lemma solve_keeps_reference_witness :
  let self := Concrete.ready Options_default Concrete.ahead_path in
  m_reference_positions (Concrete.after_solve self) = m_reference_positions self.
Proof.
  intros self.
  destruct (solve_keeps_reference Concrete.propagate Concrete.Solve
              Concrete.EvaluateResidualBlock Concrete_Solve_respects
              self (Concrete.after_solve self) (Concrete.solve self).1.1
              (Concrete.trace_of_solve self)) as (_ & Hp).
  - vm_compute. reflexivity.
  - exact Hp.
Defined.

Lemma solve_keeps_initial_state_witness :
  let self := Concrete.ready Options_default Concrete.ahead_path in
  let start :=
    set_initial_twist (Concrete.twist_of 0 1 0)
      (Concrete.set_initial_pose (Concrete.pose_at 3 4) self) in
  m_positions (Concrete.after_solve start) !! 0%nat = Some (mkVector2d 3 4).
Proof.
  intros self start.
  destruct (solve_keeps_initial_state Concrete.propagate Concrete.from_quaternion
              Concrete.Solve Concrete.EvaluateResidualBlock Concrete_Solve_respects
              (Concrete.pose_at 3 4) (Concrete.twist_of 0 1 0) self
              (Concrete.after_solve start) (Concrete.solve start).1.1
              (Concrete.trace_of_solve start)) as (_ & Hstart).
  destruct Hstart as (_ & Hp & _); [vm_compute; reflexivity|exact Hp].
Defined.

Lemma solve_trace_shape_witness :
  let self := Concrete.ready Options_default Concrete.ahead_path in
  exists n tail,
    Concrete.trace_of_solve self = loop_events 1%float 5%float n ++ tail
    /\ tail ∈ trace_tails n
    /\ (n <= 8)%nat.
Proof.
  intros self.
  destruct (solve_trace_shape Concrete.propagate Concrete.Solve
              Concrete.EvaluateResidualBlock
              self (Concrete.after_solve self) (Concrete.solve self).1.1
              (Concrete.trace_of_solve self))
    as (n & tail & Htrace & Htail & Hn & _).
  - vm_compute. reflexivity.
  - exists n, tail. split; [exact Htrace|]. split; [exact Htail|exact Hn].
Defined.

Lemma negative_max_num_poses_is_unusable_witness :
  let self :=
    Concrete.ready (mkOptions (-1) (1 # 100) 8 5%float (1 # 100) 20%float 1%float) Concrete.ahead_path in
  m_reference_path_set self = false
  /\ Concrete.solve self = (Fail (Thrown error_text), self, [ROS_ERROR error_text]).
Proof.
  intros self.
  destruct (negative_max_num_poses_is_unusable Concrete.propagate
              Concrete.from_quaternion Concrete.Solve Concrete.EvaluateResidualBlock self)
    as (Hflag & _ & Hsolve).
  - apply reachable_ready.
  - vm_compute. reflexivity.
  - split; [exact Hflag|exact Hsolve].
Defined.

Lemma set_reference_path_ignores_frames_witness :
  let moved :=
    mkPath (mkHeader 7 99 "odom")
      [mkPoseStamped (mkHeader 1 2 "base_link")
         (mkPose (mkPoint 0 0 5) (mkQuaternion 0 0 0 1));
       mkPoseStamped (mkHeader 3 4 "odom")
         (mkPose (mkPoint 1 0 6) (mkQuaternion 0 0 0 1))] in
  Concrete.set_reference_path moved (Mpc_new mkKinematicModel Options_default)
  = Concrete.set_reference_path Concrete.ahead_path
      (Mpc_new mkKinematicModel Options_default).
Proof.
  intros moved.
  apply (set_reference_path_ignores_frames Concrete.from_quaternion).
  reflexivity.
Defined.

Lemma get_optimal_path_poses_are_unstamped_witness :
  let self := Concrete.after_solve (Concrete.ready Options_default Concrete.ahead_path) in
  exists path,
    Concrete.get_optimal_path self = Ok path
    /\ path_header path = mkHeader 0 0 "map"
    /\ forall pose, pose ∈ poses path -> ps_header pose = Header_default.
Proof.
  intros self. unfold Concrete.get_optimal_path.
  assert (Hpath : exists path,
            Control.get_optimal_path Concrete.to_quaternion self = Ok path).
  { vm_compute. eexists. reflexivity. }
  destruct Hpath as (path & Hpath).
  pose proof (get_optimal_path_poses_are_unstamped Concrete.to_quaternion self path Hpath)
    as (Hheader & Hposes).
  exists path. split; [exact Hpath|]. split; [exact Hheader|].
  intros pose Hin. destruct (Hposes pose Hin) as (Hh & _). exact Hh.
Defined.

Lemma solve_without_iterations_witness :
  let s := Concrete.ready (Concrete.with_iterations 0 5%float) Concrete.ahead_path in
  let self :=
    set_initial_twist (Concrete.twist_of 0 1 0)
      (Concrete.set_initial_pose (Concrete.pose_at 0 0) s) in
  exists self',
    Concrete.solve self = (Ok tt, self', [ROS_WARN_MaxIterations])
    /\ exists path, Concrete.get_optimal_path self' = Ok path
                    /\ length (poses path) = 2%nat.
Proof.
  intros s self.
  destruct (solve_without_iterations Concrete.propagate Concrete.from_quaternion
              Concrete.to_quaternion Concrete.Solve Concrete.EvaluateResidualBlock
              Concrete_Solve_respects (Concrete.pose_at 0 0) (Concrete.twist_of 0 1 0) s)
    as (self' & Hsolve & Hpath).
  - apply reachable_ready.
  - reflexivity.
  - vm_compute. discriminate.
  - vm_compute. discriminate.
  - exists self'. split; [exact Hsolve|]. eexists. split; [exact Hpath|reflexivity].
Defined.

Lemma solve_grows_horizon_witness :
  let once := Concrete.after_solve (Concrete.ready Options_default Concrete.ahead_path) in
  length (m_rotations (Concrete.after_solve once)) = 3%nat.
Proof.
  intros once.
  destruct (solve_grows_horizon Concrete.propagate Concrete.Solve
              Concrete.EvaluateResidualBlock Concrete_Solve_respects
              once (Concrete.after_solve once) (Concrete.solve once).1.1
              (Concrete.trace_of_solve once)) as (Hr & _).
  - reflexivity.
  - vm_compute. lia.
  - vm_compute. lia.
  - vm_compute. lia.
  - vm_compute. reflexivity.
  - exact Hr.
Defined.

Lemma synchronise_with_server_returns_witness :
  let b := Firmware.mkBench 2 false in
  let b' := Firmware.mkBench 4 false in
  Firmware.Bench_synchronise 5 b = Some b'
  /\ Firmware.Bench_sync_time b' <> Firmware.Bench_sync_time b.
Proof.
  intros b b'.
  assert (Hrun : Firmware.Bench_synchronise 5 b = Some b') by reflexivity.
  split; [exact Hrun|].
  destruct (synchronise_with_server_returns Firmware.Bench Firmware.Bench_spinOnce
              Firmware.Bench_same Firmware.Bench_sync_time Firmware.Bench_same
              5 b b' Hrun) as (Hne & _).
  exact Hne.
Defined.

Lemma setup_runs_to_the_end_witness :
  Firmware.Bench_setup 4 (Firmware.mkBench 0 false, [])
  = Some (Firmware.mkBench 4 true,
          [Firmware.loginfo "Arduino starting...";
           Firmware.logerror "AllocationError during module setup!";
           Firmware.loginfo "Arduino setup done!"]).
Proof.
  apply (setup_runs_to_the_end Firmware.Bench Firmware.Bench_same
           Firmware.Bench_connected Firmware.Bench_spinOnce Firmware.Bench_same
           Firmware.Bench_sync_time Firmware.Bench_same Firmware.Bench_send_log
           Firmware.Bench_configure Firmware.Bench_timer_start 2 2 4
           (Firmware.mkBench 0 false) []).
  - split; [reflexivity|]. intros [|[|k]] Hk; try lia; reflexivity.
  - split; [reflexivity|]. intros [|[|k]] Hk; try lia; reflexivity.
  - lia.
  - lia.
Defined.

Lemma setup_returns_witness :
  let b' := Firmware.mkBench 4 true in
  let entries' :=
    [Firmware.loginfo "Arduino starting...";
     Firmware.logerror "AllocationError during module setup!";
     Firmware.loginfo "Arduino setup done!"] in
  Firmware.Bench_setup 4 (Firmware.mkBench 0 false, []) = Some (b', entries')
  /\ exists n m,
       (n <= 4)%nat /\ (m <= 4)%nat
       /\ Firmware.Bench_connected
            (Firmware.spun Firmware.Bench Firmware.Bench_spinOnce n
               (Firmware.mkBench 0 false)) = true.
Proof.
  intros b' entries'.
  assert (Hrun : Firmware.Bench_setup 4 (Firmware.mkBench 0 false, [])
                 = Some (b', entries')) by reflexivity.
  split; [exact Hrun|].
  destruct (setup_returns Firmware.Bench Firmware.Bench_same
              Firmware.Bench_connected Firmware.Bench_spinOnce Firmware.Bench_same
              Firmware.Bench_sync_time Firmware.Bench_same Firmware.Bench_send_log
              Firmware.Bench_configure Firmware.Bench_timer_start
              4 (Firmware.mkBench 0 false) b' [] entries' Hrun)
    as (n & m & _ & _ & Hn & Hm & Hconnected & _).
  exists n, m. split; [exact Hn|]. split; [exact Hm|exact Hconnected].
Defined.
